(** * ALevelNEA: a 3x3 twisty-cube puzzle

    A shallow embedding of the Python sources
    - [src/rubix_cube/rubix_2d.py], on facelet values (module [rubix_2d])
      and on a store of list objects (module [rubix_store]);
    - [src/rubix_cube/rubix_solver.py], on the store (module [rubix_store])
      and on facelet values (module [rubix_solver]);
    - [src/graphics/engine.py] (module [engine]);
    - [src/graphics/shape.py] and [src/graphics/cube.py] (module [cube]);
    - the scene assembly of [src/main.py] (module [main]);
    - the turn of a layer of [src/rubix_cube/rubix_cube.py] (module
      [rubix_cube]);
    - the sorting of the shapes of [src/graphics/shape.py] (module
      [shape]);
    then the lemmas that relate the two models of [rubix_2d.py] and of
    [rubix_solver.py], the properties of the specification, and further
    properties of the code. *)

From Stdlib Require Import ZArith List Floats Lia Sorted.
From stdpp Require Import gmap strings list.

#[local] Open Scope Z_scope.

(** ** Python results: a value or a raised exception *)

(** [InvalidReference] stands for the use of a reference to no object; no
    Python program can raise it, and it is there to keep the store
    operations below total. *)
Inductive exn :=
  | IndexError
  | KeyError
  | ValueError
  | TransformationError
  | InvalidReference.

Inductive result (A : Type) :=
  | Ok (a : A)
  | Raise (e : exn).
Arguments Ok {A} a.
Arguments Raise {A} e.

#[global] Instance result_ret : MRet result := @Ok.
#[global] Instance result_bind : MBind result :=
  λ A B f m, match m with Ok a => f a | Raise e => Raise e end.
#[global] Instance result_fmap : FMap result :=
  λ A B f m, match m with Ok a => Ok (f a) | Raise e => Raise e end.

(** ** Python sequences *)

(** [l[i]] accepts [-len(l) <= i < len(l)]; a negative index counts from
    the end.  [py_index n i] is the position addressed, if any. *)
Definition py_index (n : nat) (i : Z) : option nat :=
  if (0 <=? i) && (i <? Z.of_nat n) then Some (Z.to_nat i)
  else if (- Z.of_nat n <=? i) && (i <? 0) then Some (Z.to_nat (Z.of_nat n + i))
  else None.

(** [l[i]] as an expression. *)
Definition py_get {A} (l : list A) (i : Z) : result A :=
  match py_index (length l) i ≫= (l !!.) with
  | Some v => Ok v
  | None => Raise IndexError
  end.

(** [l[i] = v] on a list held by value. *)
Definition py_set {A} (l : list A) (i : Z) (v : A) : result (list A) :=
  match py_index (length l) i with
  | Some k => Ok (<[k:=v]> l)
  | None => Raise IndexError
  end.

(** [range(n)]: empty when [n <= 0]. *)
Definition range (n : Z) : list Z := Z.of_nat <$> seq 0 (Z.to_nat n).

(** [range(a, b)] *)
Definition range_from (a b : Z) : list Z := (λ i, a + i) <$> range (b - a).

(** [for x in xs: body], threading the state the body updates. *)
Fixpoint for_each {I S} (xs : list I) (body : I → S → result S) (s : S)
  : result S :=
  match xs with
  | [] => Ok s
  | x :: xs => body x s ≫= for_each xs body
  end.

(** [zip] applied to the unpacked [rows]: the columns of [rows], as many
    as the shortest row has cells; [zip()] of nothing is empty. *)
Fixpoint heads {A} (rows : list (list A)) : option (list A) :=
  match rows with
  | [] => Some []
  | [] :: _ => None
  | (x :: _) :: rest => (x ::.) <$> heads rest
  end.

Fixpoint zip_upto {A} (n : nat) (rows : list (list A)) : list (list A) :=
  match n with
  | O => []
  | S n =>
      match heads rows with
      | None => []
      | Some hs => hs :: zip_upto n (tail <$> rows)
      end
  end.

Definition zip_star {A} (rows : list (list A)) : list (list A) :=
  match rows with
  | [] => []
  | r :: _ => zip_upto (length r) rows
  end.

(** * rubix_2d.py, on facelet values

    A [Rubix2D] holds six grids; each grid is a list of rows and each row a
    list of colour names.  In this module a grid is a value: the eighteen
    rows of a cube are eighteen distinct list objects ([__init__] builds
    each row afresh, [rotate_x] permutes row references, [rotate_y] and
    [rotate_z] write cells in place, [rotate_arr] builds new rows), so an
    assignment to one cell changes that cell only.  Module [rubix_store]
    below models the same code on a store of list objects, where rows may
    be shared; theorem [rotate_side_represents] relates the two. *)
Module rubix_2d.

Abbreviation grid := (list (list string)).

Record Rubix2D := mkRubix2D {
  top : grid;
  bottom : grid;
  left : grid;
  right : grid;
  front : grid;
  back : grid
}.

Definition set_top (g : grid) (self : Rubix2D) : Rubix2D :=
  mkRubix2D g (bottom self) (left self) (right self) (front self) (back self).
Definition set_bottom (g : grid) (self : Rubix2D) : Rubix2D :=
  mkRubix2D (top self) g (left self) (right self) (front self) (back self).
Definition set_left (g : grid) (self : Rubix2D) : Rubix2D :=
  mkRubix2D (top self) (bottom self) g (right self) (front self) (back self).
Definition set_right (g : grid) (self : Rubix2D) : Rubix2D :=
  mkRubix2D (top self) (bottom self) (left self) g (front self) (back self).
Definition set_front (g : grid) (self : Rubix2D) : Rubix2D :=
  mkRubix2D (top self) (bottom self) (left self) (right self) g (back self).
Definition set_back (g : grid) (self : Rubix2D) : Rubix2D :=
  mkRubix2D (top self) (bottom self) (left self) (right self) (front self) g.

(** [INVERSE = {0: 2, 1: 1, 2: 0}] *)
Definition INVERSE : gmap Z Z := list_to_map [(0, 2); (1, 1); (2, 0)].

Definition INVERSE_get (k : Z) : result Z :=
  match INVERSE !! k with
  | Some v => Ok v
  | None => Raise KeyError
  end.

(** [Rubix2D.__init__] *)
Definition init : Rubix2D :=
  {| top := replicate 3 (replicate 3 "yellow"%string);
     bottom := replicate 3 (replicate 3 "white"%string);
     left := replicate 3 (replicate 3 "green"%string);
     right := replicate 3 (replicate 3 "blue"%string);
     front := replicate 3 (replicate 3 "red"%string);
     back := replicate 3 (replicate 3 "orange"%string) |}.

(** [rotate_arr]: [iters] times the [zip] of the unpacked [arr[::-1]]; the
    closing [[list(row) for row in arr]] turns the tuples back into lists. *)
Definition rotate_arr (arr : grid) (iters : Z) : grid :=
  Nat.iter (Z.to_nat iters) (λ arr, zip_star (reverse arr)) arr.

(** [g[i][j]] and [g[i][j] = v] *)
Definition get2 (g : grid) (i j : Z) : result string :=
  row ← py_get g i; py_get row j.

Definition set2 (g : grid) (i j : Z) (v : string) : result grid :=
  row ← py_get g i; row' ← py_set row j v; py_set g i row'.

(** One pass of the loop of [Rubix2D.rotate_x]: the tuple on the right is
    read first, then the four targets are assigned from left to right. *)
Definition rotate_x_step (y : Z) (self : Rubix2D) : result Rubix2D :=
  l ← py_get (left self) y;
  f ← py_get (front self) y;
  r ← py_get (right self) y;
  b ← py_get (back self) y;
  front' ← py_set (front self) y l;
  right' ← py_set (right self) y f;
  back' ← py_set (back self) y r;
  left' ← py_set (left self) y b;
  mret (set_left left' (set_back back' (set_right right' (set_front front' self)))).

Definition rotate_x (y iters : Z) (self : Rubix2D) : result Rubix2D :=
  self ← for_each (range iters) (λ _, rotate_x_step y) self;
  let self :=
    if y =? 0 then set_top (rotate_arr (top self) (3 * iters)) self else self in
  let self :=
    if y =? 2 then set_bottom (rotate_arr (bottom self) (1 * iters)) self
    else self in
  mret self.

(** One pass of the loop of [Rubix2D.rotate_y]; [front0], [top0], [back0]
    and [bottom0] are the deep copies taken at the start of the pass. *)
Definition rotate_y_step (x : Z) (self : Rubix2D) : result Rubix2D :=
  let front0 := front self in
  let top0 := top self in
  let back0 := back self in
  let bottom0 := bottom self in
  inv_x ← INVERSE_get x;
  self ← for_each [0; 1; 2] (λ index self,
    v ← get2 top0 index x;
    g ← set2 (front self) index x v;
    let self := set_front g self in
    v ← get2 front0 index x;
    g ← set2 (bottom self) index x v;
    mret (set_bottom g self)) self;
  for_each [(0, 2); (1, 1); (2, 0)] (λ '(index_1, index_2) self,
    v ← get2 back0 index_2 inv_x;
    g ← set2 (top self) index_1 x v;
    let self := set_top g self in
    v ← get2 bottom0 index_2 x;
    g ← set2 (back self) index_1 inv_x v;
    mret (set_back g self)) self.

Definition rotate_y (x iters : Z) (self : Rubix2D) : result Rubix2D :=
  self ← for_each (range iters) (λ _, rotate_y_step x) self;
  let self :=
    if x =? 0 then set_left (rotate_arr (left self) (1 * iters)) self else self in
  let self :=
    if x =? 2 then set_right (rotate_arr (right self) (3 * iters)) self
    else self in
  mret self.

(** One pass of the loop of [Rubix2D.rotate_z]. *)
Definition rotate_z_step (z : Z) (self : Rubix2D) : result Rubix2D :=
  let left0 := left self in
  let top0 := top self in
  let right0 := right self in
  let bottom0 := bottom self in
  inv_z ← INVERSE_get z;
  self ← for_each [(0, 2); (1, 1); (2, 0)] (λ '(index_1, index_2) self,
    v ← get2 left0 index_2 z;
    g ← set2 (top self) z index_1 v;
    let self := set_top g self in
    v ← get2 right0 index_2 inv_z;
    g ← set2 (bottom self) inv_z index_1 v;
    mret (set_bottom g self)) self;
  for_each [0; 1; 2] (λ index self,
    v ← get2 top0 z index;
    g ← set2 (right self) index inv_z v;
    let self := set_right g self in
    v ← get2 bottom0 inv_z index;
    g ← set2 (left self) index z v;
    mret (set_left g self)) self.

Definition rotate_z (z iters : Z) (self : Rubix2D) : result Rubix2D :=
  self ← for_each (range iters) (λ _, rotate_z_step z) self;
  let self :=
    if z =? 0 then set_back (rotate_arr (back self) (3 * iters)) self else self in
  let self :=
    if z =? 2 then set_front (rotate_arr (front self) (1 * iters)) self
    else self in
  mret self.

(** [len(set(colour for row in side for colour in row)) == 1] *)
Definition uniform (side : grid) : bool :=
  bool_decide (size (list_to_set (concat side) : gset string) = 1%nat).

(** [Rubix2D.is_solved] *)
Definition is_solved (self : Rubix2D) : bool :=
  forallb uniform
    [top self; bottom self; left self; right self; front self; back self].

(** [rotate_side]: a [match] statement without a default case; an index
    that matches no case falls through and the function returns. *)
Definition rotate_side (index : Z) (rubix : Rubix2D) : result Rubix2D :=
  match index with
  | 1 => rotate_x 2 1 rubix
  | 2 => rotate_x 1 1 rubix
  | 3 => rotate_x 0 1 rubix
  | 4 => rotate_y 0 1 rubix
  | 5 => rotate_y 1 1 rubix
  | 6 => rotate_y 2 1 rubix
  | 7 => rotate_z 0 1 rubix
  | 8 => rotate_z 1 1 rubix
  | 9 => rotate_z 2 1 rubix
  | 10 => rotate_x 2 3 rubix
  | 11 => rotate_x 1 3 rubix
  | 12 => rotate_x 0 3 rubix
  | 13 => rotate_y 0 3 rubix
  | 14 => rotate_y 1 3 rubix
  | 15 => rotate_y 2 3 rubix
  | 16 => rotate_z 0 3 rubix
  | 17 => rotate_z 1 3 rubix
  | 18 => rotate_z 2 3 rubix
  | _ => Ok rubix
  end.

(** A facelet state: six grids of three rows of three cells. *)
Definition is_3x3 (g : grid) : bool :=
  (length g =? 3)%nat && forallb (λ row, (length row =? 3)%nat) g.

Definition well_formed (self : Rubix2D) : bool :=
  forallb is_3x3
    [top self; bottom self; left self; right self; front self; back self].

(** The 54 cells of a state, face after face. *)
Definition cells (self : Rubix2D) : list string :=
  concat (top self) ++ concat (bottom self) ++ concat (left self)
  ++ concat (right self) ++ concat (front self) ++ concat (back self).

(** A grid without its row [i], and without its column [j]. *)
Definition without_row (i : nat) (g : grid) : grid := delete i g.

Definition without_column (j : nat) (g : grid) : grid := delete j <$> g.

(** The number of cells of colour [c]. *)
Definition count_colour (c : string) (self : Rubix2D) : nat :=
  length (filter (λ x, x = c) (cells self)).

End rubix_2d.

(** * rubix_2d.py and rubix_solver.py, on a store of list objects

    The solver copies grids with [copy.deepcopy] and mutates the copies, so
    what it may or may not change depends on which list objects are shared.
    Here rows and grids are objects in a store, named by references: a row
    object holds colour names, a grid object holds references to its rows.
    A [Rubix2D] instance is the record of its six grid references, passed
    along by value: no instance is ever reachable under two names in the
    solver, and an assignment to an attribute yields the updated record. *)
Module rubix_store.

(** References are positions in the store. *)
Abbreviation ref := nat.

Record store := mkStore {
  rows : list (list string);
  grids : list (list ref)
}.

Definition empty : store := mkStore [] [].

(** Computations on the store that return or raise. *)
Definition M (A : Type) : Type := store → store * result A.

#[global] Instance M_ret : MRet M := λ A a s, (s, Ok a).
#[global] Instance M_bind : MBind M :=
  λ A B f m s,
    match m s with
    | (s', Ok a) => f a s'
    | (s', Raise e) => (s', Raise e)
    end.

Definition lift {A} (r : result A) : M A := λ s, (s, r).

Definition load_row (r : ref) : M (list string) :=
  λ s, (s, from_option Ok (Raise InvalidReference) (rows s !! r)).

Definition load_grid (g : ref) : M (list ref) :=
  λ s, (s, from_option Ok (Raise InvalidReference) (grids s !! g)).

Definition store_row (r : ref) (cells : list string) : M unit :=
  λ s, if decide (r < length (rows s))%nat
       then (mkStore (<[r:=cells]> (rows s)) (grids s), Ok ())
       else (s, Raise InvalidReference).

Definition store_grid (g : ref) (rs : list ref) : M unit :=
  λ s, if decide (g < length (grids s))%nat
       then (mkStore (rows s) (<[g:=rs]> (grids s)), Ok ())
       else (s, Raise InvalidReference).

(** A new list object takes the next free reference. *)
Definition new_row (cells : list string) : M ref :=
  λ s, (mkStore (rows s ++ [cells]) (grids s), Ok (length (rows s))).

Definition new_grid (rs : list ref) : M ref :=
  λ s, (mkStore (rows s) (grids s ++ [rs]), Ok (length (grids s))).

(** [for x in xs: body] and [[f(x) for x in xs]] on the store. *)
Fixpoint for_each_m {I S} (xs : list I) (body : I → S → M S) (s : S) : M S :=
  match xs with
  | [] => mret s
  | x :: xs => s ← body x s; for_each_m xs body s
  end.

Fixpoint comprehension_m {A B} (f : A → M B) (xs : list A) : M (list B) :=
  match xs with
  | [] => mret []
  | x :: xs => y ← f x; ys ← comprehension_m f xs; mret (y :: ys)
  end.

(** The colours a grid object holds now, row by row. *)
Definition snapshot (g : ref) : M rubix_2d.grid :=
  rs ← load_grid g; comprehension_m load_row rs.

(** [g[i]], [g[i] = r] and [g[i][j] = v] on a grid object. *)
Definition grid_item (g : ref) (i : Z) : M ref :=
  rs ← load_grid g; lift (py_get rs i).

Definition grid_set_item (g : ref) (i : Z) (r : ref) : M unit :=
  rs ← load_grid g; rs' ← lift (py_set rs i r); store_grid g rs'.

Definition set_cell (g : ref) (i j : Z) (v : string) : M unit :=
  r ← grid_item g i;
  cells ← load_row r;
  cells' ← lift (py_set cells j v);
  store_row r cells'.

Record Rubix2D := mkRubix2D {
  top : ref;
  bottom : ref;
  left : ref;
  right : ref;
  front : ref;
  back : ref
}.

Definition set_top (g : ref) (self : Rubix2D) : Rubix2D :=
  mkRubix2D g (bottom self) (left self) (right self) (front self) (back self).
Definition set_bottom (g : ref) (self : Rubix2D) : Rubix2D :=
  mkRubix2D (top self) g (left self) (right self) (front self) (back self).
Definition set_left (g : ref) (self : Rubix2D) : Rubix2D :=
  mkRubix2D (top self) (bottom self) g (right self) (front self) (back self).
Definition set_right (g : ref) (self : Rubix2D) : Rubix2D :=
  mkRubix2D (top self) (bottom self) (left self) g (front self) (back self).
Definition set_front (g : ref) (self : Rubix2D) : Rubix2D :=
  mkRubix2D (top self) (bottom self) (left self) (right self) g (back self).
Definition set_back (g : ref) (self : Rubix2D) : Rubix2D :=
  mkRubix2D (top self) (bottom self) (left self) (right self) (front self) g.

(** [[[colour] * 3 for _ in range(3)]]: three new rows in a new grid. *)
Definition uniform_grid (colour : string) : M ref :=
  rs ← comprehension_m (λ _, new_row (replicate 3 colour)) (range 3);
  new_grid rs.

(** [Rubix2D.__init__] *)
Definition Rubix2D_new : M Rubix2D :=
  top ← uniform_grid "yellow";
  bottom ← uniform_grid "white";
  left ← uniform_grid "green";
  right ← uniform_grid "blue";
  front ← uniform_grid "red";
  back ← uniform_grid "orange";
  mret (mkRubix2D top bottom left right front back).

(** [rotate_arr] reads the rows of [arr], turns their values and ends by
    building new row objects in a new grid object. *)
Definition rotate_arr (arr : ref) (iters : Z) : M ref :=
  g ← snapshot arr;
  rs ← comprehension_m new_row (rubix_2d.rotate_arr g iters);
  new_grid rs.

Definition rotate_x_step (y : Z) (self : Rubix2D) : M Rubix2D :=
  l ← grid_item (left self) y;
  f ← grid_item (front self) y;
  r ← grid_item (right self) y;
  b ← grid_item (back self) y;
  _ ← grid_set_item (front self) y l;
  _ ← grid_set_item (right self) y f;
  _ ← grid_set_item (back self) y r;
  _ ← grid_set_item (left self) y b;
  mret self.

Definition rotate_x (y iters : Z) (self : Rubix2D) : M Rubix2D :=
  self ← for_each_m (range iters) (λ _, rotate_x_step y) self;
  self ←
    (if y =? 0
     then g ← rotate_arr (top self) (3 * iters); mret (set_top g self)
     else mret self);
  self ←
    (if y =? 2
     then g ← rotate_arr (bottom self) (1 * iters); mret (set_bottom g self)
     else mret self);
  mret self.

(** The four [copy.deepcopy] at the head of a pass of [rotate_y] and of
    [rotate_z] build objects that the pass only reads and then drops: they
    are the snapshots of the four grids at that point. *)
Definition rotate_y_step (x : Z) (self : Rubix2D) : M Rubix2D :=
  front0 ← snapshot (front self);
  top0 ← snapshot (top self);
  back0 ← snapshot (back self);
  bottom0 ← snapshot (bottom self);
  inv_x ← lift (rubix_2d.INVERSE_get x);
  self ← for_each_m [0; 1; 2] (λ index self,
    v ← lift (rubix_2d.get2 top0 index x);
    _ ← set_cell (front self) index x v;
    v ← lift (rubix_2d.get2 front0 index x);
    _ ← set_cell (bottom self) index x v;
    mret self) self;
  for_each_m [(0, 2); (1, 1); (2, 0)] (λ '(index_1, index_2) self,
    v ← lift (rubix_2d.get2 back0 index_2 inv_x);
    _ ← set_cell (top self) index_1 x v;
    v ← lift (rubix_2d.get2 bottom0 index_2 x);
    _ ← set_cell (back self) index_1 inv_x v;
    mret self) self.

Definition rotate_y (x iters : Z) (self : Rubix2D) : M Rubix2D :=
  self ← for_each_m (range iters) (λ _, rotate_y_step x) self;
  self ←
    (if x =? 0
     then g ← rotate_arr (left self) (1 * iters); mret (set_left g self)
     else mret self);
  self ←
    (if x =? 2
     then g ← rotate_arr (right self) (3 * iters); mret (set_right g self)
     else mret self);
  mret self.

Definition rotate_z_step (z : Z) (self : Rubix2D) : M Rubix2D :=
  left0 ← snapshot (left self);
  top0 ← snapshot (top self);
  right0 ← snapshot (right self);
  bottom0 ← snapshot (bottom self);
  inv_z ← lift (rubix_2d.INVERSE_get z);
  self ← for_each_m [(0, 2); (1, 1); (2, 0)] (λ '(index_1, index_2) self,
    v ← lift (rubix_2d.get2 left0 index_2 z);
    _ ← set_cell (top self) z index_1 v;
    v ← lift (rubix_2d.get2 right0 index_2 inv_z);
    _ ← set_cell (bottom self) inv_z index_1 v;
    mret self) self;
  for_each_m [0; 1; 2] (λ index self,
    v ← lift (rubix_2d.get2 top0 z index);
    _ ← set_cell (right self) index inv_z v;
    v ← lift (rubix_2d.get2 bottom0 inv_z index);
    _ ← set_cell (left self) index z v;
    mret self) self.

Definition rotate_z (z iters : Z) (self : Rubix2D) : M Rubix2D :=
  self ← for_each_m (range iters) (λ _, rotate_z_step z) self;
  self ←
    (if z =? 0
     then g ← rotate_arr (back self) (3 * iters); mret (set_back g self)
     else mret self);
  self ←
    (if z =? 2
     then g ← rotate_arr (front self) (1 * iters); mret (set_front g self)
     else mret self);
  mret self.

(** The facelet values an instance holds now. *)
Definition view (self : Rubix2D) : M rubix_2d.Rubix2D :=
  t ← snapshot (top self);
  b ← snapshot (bottom self);
  l ← snapshot (left self);
  r ← snapshot (right self);
  f ← snapshot (front self);
  k ← snapshot (back self);
  mret (rubix_2d.mkRubix2D t b l r f k).

(** [Rubix2D.is_solved] only reads. *)
Definition is_solved (self : Rubix2D) : M bool :=
  v ← view self; mret (rubix_2d.is_solved v).

Definition rotate_side (index : Z) (rubix : Rubix2D) : M Rubix2D :=
  match index with
  | 1 => rotate_x 2 1 rubix
  | 2 => rotate_x 1 1 rubix
  | 3 => rotate_x 0 1 rubix
  | 4 => rotate_y 0 1 rubix
  | 5 => rotate_y 1 1 rubix
  | 6 => rotate_y 2 1 rubix
  | 7 => rotate_z 0 1 rubix
  | 8 => rotate_z 1 1 rubix
  | 9 => rotate_z 2 1 rubix
  | 10 => rotate_x 2 3 rubix
  | 11 => rotate_x 1 3 rubix
  | 12 => rotate_x 0 3 rubix
  | 13 => rotate_y 0 3 rubix
  | 14 => rotate_y 1 3 rubix
  | 15 => rotate_y 2 3 rubix
  | 16 => rotate_z 0 3 rubix
  | 17 => rotate_z 1 3 rubix
  | 18 => rotate_z 2 3 rubix
  | _ => mret rubix
  end.

(** ** copy.deepcopy

    [memo] maps the objects already copied in this call to their copies,
    so that an object reached twice is copied once.  Colour names are
    strings, which [deepcopy] returns as they are.  Python enters the copy
    of a list in the memo before it copies the items; a row holds no list
    and a grid holds rows only, so entering it afterwards is the same. *)
Record memo := mkMemo {
  row_copies : gmap ref ref;
  grid_copies : gmap ref ref
}.

Definition no_memo : memo := mkMemo ∅ ∅.

Definition deepcopy_row (r : ref) (mm : memo) : M (ref * memo) :=
  match row_copies mm !! r with
  | Some r' => mret (r', mm)
  | None =>
      cells ← load_row r;
      r' ← new_row cells;
      mret (r', mkMemo (<[r:=r']> (row_copies mm)) (grid_copies mm))
  end.

Fixpoint deepcopy_rows (rs : list ref) (mm : memo) : M (list ref * memo) :=
  match rs with
  | [] => mret ([], mm)
  | r :: rs =>
      '(r', mm) ← deepcopy_row r mm;
      '(rs', mm) ← deepcopy_rows rs mm;
      mret (r' :: rs', mm)
  end.

Definition deepcopy_grid (g : ref) (mm : memo) : M (ref * memo) :=
  match grid_copies mm !! g with
  | Some g' => mret (g', mm)
  | None =>
      rs ← load_grid g;
      '(rs', mm) ← deepcopy_rows rs mm;
      g' ← new_grid rs';
      mret (g', mkMemo (row_copies mm) (<[g:=g']> (grid_copies mm)))
  end.

(** [copy.deepcopy(g)] of a grid: a call of its own, with an empty memo. *)
Definition deepcopy (g : ref) : M ref :=
  '(g', _) ← deepcopy_grid g no_memo; mret g'.

(** [copy.deepcopy(rubix)] of an instance: its attributes are copied in
    the order [__init__] created them, under one memo. *)
Definition deepcopy_rubix (rubix : Rubix2D) : M Rubix2D :=
  '(t, mm) ← deepcopy_grid (top rubix) no_memo;
  '(b, mm) ← deepcopy_grid (bottom rubix) mm;
  '(l, mm) ← deepcopy_grid (left rubix) mm;
  '(r, mm) ← deepcopy_grid (right rubix) mm;
  '(f, mm) ← deepcopy_grid (front rubix) mm;
  '(k, mm) ← deepcopy_grid (back rubix) mm;
  mret (mkRubix2D t b l r f k).

(** ** rubix_solver.py *)

(** What a run of the search has produced when its fuel is spent. *)
Inductive outcome :=
  | Returned (steps : list Z)
  | Running.

Definition node : Type := list Z * Rubix2D.

(** The [for move in range(1, 19)] loop on one dequeued node: [inl steps]
    when it returns from the function, [inr queue] when it ends. *)
Fixpoint expand (moves : list Z) (steps : list Z) (rubix : Rubix2D)
    (queue : list node) : M (list Z + list node) :=
  match moves with
  | [] => mret (inr queue)
  | move :: moves =>
      let new_steps := steps ++ [move] in
      new_rubix ← deepcopy_rubix rubix;
      new_rubix ← rotate_side move new_rubix;
      solved ← is_solved new_rubix;
      if solved : bool then mret (inl new_steps)
      else expand moves steps rubix (queue ++ [(new_steps, new_rubix)])
  end.

(** [while True], for at most [fuel] passes. *)
Fixpoint search (fuel : nat) (queue : list node) : M outcome :=
  match fuel with
  | O => mret Running
  | S fuel =>
      match queue with
      | [] => lift (Raise IndexError)
      | (steps, rubix) :: queue =>
          r ← expand (range_from 1 19) steps rubix queue;
          match r with
          | inl new_steps => mret (Returned new_steps)
          | inr queue => search fuel queue
          end
      end
  end.

(** [breath_first_search]: the six grids of the new instance are dropped
    at once for deep copies of the six arguments, each copied in a call of
    its own. *)
Definition breath_first_search (fuel : nat)
    (top front left right back bottom : ref) : M outcome :=
  rubix ← Rubix2D_new;
  t ← deepcopy top;
  let rubix := set_top t rubix in
  f ← deepcopy front;
  let rubix := set_front f rubix in
  l ← deepcopy left;
  let rubix := set_left l rubix in
  r ← deepcopy right;
  let rubix := set_right r rubix in
  k ← deepcopy back;
  let rubix := set_back k rubix in
  b ← deepcopy bottom;
  let rubix := set_bottom b rubix in
  solved ← is_solved rubix;
  if solved : bool then mret (Returned [])
  else search fuel [([], rubix)].

(** The store and the instance after [rubix = Rubix2D()] and
    [rotate_side(1, rubix)], from the empty store. *)
Definition scrambled : store * result Rubix2D :=
  (Rubix2D_new ≫= rotate_side 1) empty.

End rubix_store.

(** * rubix_solver.py, on facelet values

    The search works on deep copies only, so what it returns depends on
    the colours of the six grids and not on the list objects that hold
    them.  Here it is on facelet values, where [copy.deepcopy] is the
    identity; lemma [breath_first_search_on_values] relates it to the
    search on the store. *)
Module rubix_solver.
Import rubix_2d.

Definition node : Type := list Z * Rubix2D.

Fixpoint expand (moves : list Z) (steps : list Z) (rubix : Rubix2D)
    (queue : list node) : result (list Z + list node) :=
  match moves with
  | [] => Ok (inr queue)
  | move :: moves =>
      let new_steps := steps ++ [move] in
      new_rubix ← rotate_side move rubix;
      if is_solved new_rubix then Ok (inl new_steps)
      else expand moves steps rubix (queue ++ [(new_steps, new_rubix)])
  end.

Fixpoint search (fuel : nat) (queue : list node) : result rubix_store.outcome :=
  match fuel with
  | O => Ok rubix_store.Running
  | S fuel =>
      match queue with
      | [] => Raise IndexError
      | (steps, rubix) :: queue =>
          r ← expand (range_from 1 19) steps rubix queue;
          match r with
          | inl new_steps => Ok (rubix_store.Returned new_steps)
          | inr queue => search fuel queue
          end
      end
  end.

Definition breath_first_search (fuel : nat)
    (top front left right back bottom : grid) : result rubix_store.outcome :=
  let rubix := mkRubix2D top bottom left right front back in
  if is_solved rubix then Ok (rubix_store.Returned [])
  else search fuel [([], rubix)].

End rubix_solver.

(** * graphics/engine.py

    Coordinates are Python floats: IEEE 754 binary64 numbers, here Rocq's
    primitive floats.  The integers the callers mix in (the camera
    position, the centre [[0, 0, 0]], the angles [1] and [-1], the scale
    factor [25]) are converted to the float of the same value by the first
    operation they meet, and are floats here. *)
Module engine.
#[local] Open Scope float_scope.

(** [math.radians], [math.sin] and [math.cos] belong to the C library, not
    to the repository: the functions that call them take them as a
    parameter.  [math.radians] returns on every float.  [math.sin] and
    [math.cos] raise [ValueError] at an infinite argument, so they return
    a result. *)
Record libm := mklibm {
  radians : float → float;
  sin : float → result float;
  cos : float → result float
}.

(** [transform_coord]; [x, y, z = vert] raises [ValueError] unless [vert]
    has three items. *)
Definition transform_coord (vert : list float) (scale_factor : float)
  : result (list float) :=
  match vert with
  | [x; y; z] =>
      if z <=? 0 then Raise TransformationError
      else
        let transformed_x := (x / z * 15) * scale_factor in
        let transformed_y := (y / z * 15) * scale_factor in
        Ok [transformed_x; transformed_y]
  | _ => Raise ValueError
  end.

(** The decorator [rotation]: [wrapper] computes the sine, then the
    cosine of the angle and forwards them to the wrapped function; what
    [math.sin] or [math.cos] raises leaves [wrapper] before the wrapped
    function is called. *)
Definition rotation (m : libm)
    (func : list float → list float → float → float → result (list float))
    (vert center : list float) (angle : float) : result (list float) :=
  sin ← sin m (radians m angle);
  cos ← cos m (radians m angle);
  func vert center cos sin.

(** The function [rotate_x] as written, before [@rotation] wraps it.  The
    returned tuple is a list of three floats. *)
Definition rotate_x_func (vert center : list float) (cos sin : float)
  : result (list float) :=
  v0 ← py_get vert 0; c0 ← py_get center 0; let x := v0 - c0 in
  v2 ← py_get vert 2; c2 ← py_get center 2; let z := v2 - c2 in
  c0 ← py_get center 0; let rotated_x := x * cos - z * sin + c0 in
  rotated_y ← py_get vert 1;
  c2 ← py_get center 2; let rotated_z := z * cos + x * sin + c2 in
  mret [rotated_x; rotated_y; rotated_z].

Definition rotate_y_func (vert center : list float) (cos sin : float)
  : result (list float) :=
  v1 ← py_get vert 1; c1 ← py_get center 1; let y := v1 - c1 in
  v2 ← py_get vert 2; c2 ← py_get center 2; let z := v2 - c2 in
  rotated_x ← py_get vert 0;
  c1 ← py_get center 1; let rotated_y := y * cos - z * sin + c1 in
  c2 ← py_get center 2; let rotated_z := z * cos + y * sin + c2 in
  mret [rotated_x; rotated_y; rotated_z].

Definition rotate_z_func (vert center : list float) (cos sin : float)
  : result (list float) :=
  v0 ← py_get vert 0; c0 ← py_get center 0; let x := v0 - c0 in
  v1 ← py_get vert 1; c1 ← py_get center 1; let y := v1 - c1 in
  c0 ← py_get center 0; let rotated_x := x * cos - y * sin + c0 in
  c1 ← py_get center 1; let rotated_y := y * cos + x * sin + c1 in
  v2 ← py_get vert 2;
  mret [rotated_x; rotated_y; v2].

(** The module-level names, after decoration. *)
Definition rotate_x (m : libm) := rotation m rotate_x_func.
Definition rotate_y (m : libm) := rotation m rotate_y_func.
Definition rotate_z (m : libm) := rotation m rotate_z_func.

(** The values CPython returns at 180 degrees: [math.radians(180)] is the
    float nearest pi, whose sine is [1.2246467991473532e-16] and whose
    cosine is [-1.0]. *)
Definition libm_at_180 : libm :=
  {| radians := λ _, 0x1.921fb54442d18p+1;
     sin := λ _, Ok 0x1.1a62633145c07p-53;
     cos := λ _, Ok (-1) |}.

(** What CPython does at an infinite angle: [math.radians(inf)] is [inf],
    and [math.sin(inf)] and [math.cos(inf)] raise [ValueError]. *)
Definition libm_at_infinity : libm :=
  {| radians := λ _, infinity;
     sin := λ _, Raise ValueError;
     cos := λ _, Raise ValueError |}.

End engine.

(** * graphics/shape.py and graphics/cube.py *)
Module cube.
#[local] Open Scope float_scope.

(** [Shape]: a colour, a polygon of 3D points, two view angles. *)
Record Shape := mkShape {
  colour : string;
  poly : list (list float);
  orientation_x : float;
  orientation_y : float
}.

(** [Shape(colour, side)], the orientations at their default of 45.  The
    constructor also appends the shape to the global [ALL_SHAPES], which
    only the renderer reads. *)
Definition Shape_new (colour : string) (side : list (list float)) : Shape :=
  mkShape colour side 45 45.

Definition CUBE_VERTS : list (list float) :=
  [ [-0.5; -0.5; -0.5];
    [0.5; -0.5; -0.5];
    [0.5; 0.5; -0.5];
    [-0.5; 0.5; -0.5];
    [-0.5; -0.5; 0.5];
    [0.5; -0.5; 0.5];
    [0.5; 0.5; 0.5];
    [-0.5; 0.5; 0.5] ].

Definition CUBE_POLYS : list (list Z) :=
  [ [0; 1; 2; 3];
    [4; 5; 6; 7];
    [0; 1; 5; 4];
    [1; 2; 6; 5];
    [2; 3; 7; 6];
    [3; 0; 4; 7] ]%Z.

(** The float a Python [int] becomes when it is added to a float; exact
    below [2^53] in absolute value, far above the lattice positions. *)
Definition float_of_int (n : Z) : float :=
  if (n <? 0)%Z then - of_uint63 (Uint63.of_Z (- n))
  else of_uint63 (Uint63.of_Z n).

(** A list comprehension whose element expression may raise. *)
Fixpoint comprehension {A B} (f : A → result B) (xs : list A) : result (list B) :=
  match xs with
  | [] => Ok []
  | x :: xs => y ← f x; ys ← comprehension f xs; mret (y :: ys)
  end.

Record Cube := mkCube {
  x : Z;
  y : Z;
  z : Z;
  colours : list string;
  cube : list Shape
}.

(** [Cube(x, y, z, colours)]: the dataclass constructor followed by
    [__post_init__], which builds the six faces and appends the new cube
    to the global list [ALL_CUBES], threaded here as a state. *)
Definition Cube_new (x y z : Z) (colours : list string) (ALL_CUBES : list Cube)
  : result (list Cube) :=
  sides ← comprehension (λ face_indexes,
    comprehension (λ index,
      v ← py_get CUBE_VERTS index;
      v0 ← py_get v 0; v1 ← py_get v 1; v2 ← py_get v 2;
      mret [v0 + float_of_int x; v1 + float_of_int y; v2 + float_of_int z])
      face_indexes) CUBE_POLYS;
  let self :=
    mkCube x y z colours (uncurry Shape_new <$> zip colours sides) in
  mret (ALL_CUBES ++ [self]).

(** The builtins [max] and [min] on the floats a generator yields: the
    first item is kept until a later one compares greater (smaller);
    [ValueError] on no item. *)
Definition py_max (items : list float) : result float :=
  match items with
  | [] => Raise ValueError
  | first :: rest => Ok (foldl (λ maxval item, if maxval <? item then item else maxval) first rest)
  end.

Definition py_min (items : list float) : result float :=
  match items with
  | [] => Raise ValueError
  | first :: rest => Ok (foldl (λ minval item, if item <? minval then item else minval) first rest)
  end.

(** [vert[index] for face in cube.cube for vert in face.poly] *)
Definition axis_coords (c : Cube) (index : Z) : result (list float) :=
  comprehension (λ vert, py_get vert index) (concat (poly <$> cube c)).

(** [filter_cubes]: the chained comparison [max(..) > target > min(..)]
    evaluates [min(..)] only when [max(..) > target] holds. *)
Definition filter_cubes (c : Cube) (index : Z) (target : float) : result bool :=
  coords ← axis_coords c index;
  hi ← py_max coords;
  if target <? hi then
    coords ← axis_coords c index;
    lo ← py_min coords;
    mret (lo <? target)
  else mret false.

(** [list(filter(lambda cube: filter_cubes(cube, axis, filter_), self.cubes))],
    the selection at the head of [RubixCube.rotate_cubes]. *)
Fixpoint select_layer (cubes : list Cube) (axis : Z) (filter_ : float)
  : result (list Cube) :=
  match cubes with
  | [] => Ok []
  | c :: cubes =>
      keep ← filter_cubes c axis filter_;
      rest ← select_layer cubes axis filter_;
      mret (if keep : bool then c :: rest else rest)
  end.

End cube.

(** * main.py: the scene assembled at startup *)
Module main.
Import cube.
#[local] Open Scope string_scope.

(** The twenty-seven [Cube(...)] calls of [main], in order, starting from
    the empty [ALL_CUBES]. *)
Definition calls : list (Z * Z * Z * list string) :=
  [
    (0, 0, 0, ["black"; "black"; "black"; "black"; "black"; "black"]);
    (0, 0, 1, ["black"; "orange"; "black"; "black"; "black"; "black"]);
    (0, 0, -1, ["red"; "black"; "black"; "black"; "black"; "black"]);
    (1, 0, 0, ["black"; "black"; "black"; "blue"; "black"; "black"]);
    (1, 0, 1, ["black"; "orange"; "black"; "blue"; "black"; "black"]);
    (1, 0, -1, ["red"; "black"; "black"; "blue"; "black"; "black"]);
    (-1, 0, 0, ["black"; "black"; "black"; "black"; "black"; "green"]);
    (-1, 0, 1, ["black"; "orange"; "black"; "black"; "black"; "green"]);
    (-1, 0, -1, ["red"; "black"; "black"; "black"; "black"; "green"]);
    (0, 1, 0, ["black"; "black"; "black"; "black"; "white"; "black"]);
    (1, 1, 0, ["black"; "black"; "black"; "blue"; "white"; "black"]);
    (1, 1, -1, ["red"; "black"; "black"; "blue"; "white"; "black"]);
    (1, 1, 1, ["black"; "orange"; "black"; "blue"; "white"; "black"]);
    (0, 1, -1, ["red"; "black"; "black"; "black"; "white"; "black"]);
    (-1, 1, -1, ["red"; "black"; "black"; "black"; "white"; "green"]);
    (0, 1, 1, ["black"; "orange"; "black"; "black"; "white"; "black"]);
    (-1, 1, 1, ["black"; "orange"; "black"; "black"; "white"; "green"]);
    (-1, 1, 0, ["black"; "black"; "black"; "black"; "white"; "green"]);
    (1, -1, 0, ["black"; "black"; "yellow"; "blue"; "black"; "black"]);
    (1, -1, 1, ["black"; "orange"; "yellow"; "blue"; "black"; "black"]);
    (1, -1, -1, ["red"; "black"; "yellow"; "blue"; "black"; "black"]);
    (-1, -1, 0, ["black"; "black"; "yellow"; "black"; "black"; "green"]);
    (-1, -1, 1, ["black"; "orange"; "yellow"; "black"; "black"; "green"]);
    (-1, -1, -1, ["red"; "black"; "yellow"; "black"; "black"; "green"]);
    (0, -1, 0, ["black"; "black"; "yellow"; "black"; "black"; "black"]);
    (0, -1, 1, ["black"; "orange"; "yellow"; "black"; "black"; "black"]);
    (0, -1, -1, ["red"; "black"; "yellow"; "black"; "black"; "black"])
  ]%Z.

Definition assemble : result (list Cube) :=
  for_each calls (λ '(x, y, z, colours), Cube_new x y z colours) [].

(** [ALL_CUBES] as [main] leaves it before the render loop starts. *)
Definition ALL_CUBES : list Cube :=
  match assemble with
  | Ok cubes => cubes
  | Raise _ => []
  end.

End main.

(** * rubix_cube/rubix_cube.py: the turn of a layer of the solid model

    [RubixCube.rotate_cubes] selects the cubes of a layer once, then in
    ninety passes replaces the polygon of each of their shapes by its
    rotation about the origin.  It is here on the list [self.cubes], the
    shapes of a cube held in the cube; the pause between two passes and the
    flag [self.rotating], which the method clears when it ends, are not part
    of the list and are left out. *)
Module rubix_cube.
Import cube.
#[local] Open Scope float_scope.

Abbreviation rotation_function :=
  (list float → list float → float → result (list float)).

(** [shape.poly = [rotate(vert, [0, 0, 0], angle) for vert in shape.poly]] *)
Definition turn_shape (rotate : rotation_function) (angle : float)
    (shape : Shape) : result Shape :=
  poly ← comprehension (λ vert, rotate vert [0; 0; 0] angle) (poly shape);
  mret (mkShape (colour shape) poly (orientation_x shape) (orientation_y shape)).

(** [for shape in cube.cube: ...] *)
Definition turn_cube (rotate : rotation_function) (angle : float) (c : Cube)
  : result Cube :=
  shapes ← comprehension (turn_shape rotate angle) (cube c);
  mret (mkCube (x c) (y c) (z c) (colours c) shapes).

(** One pass of [for cube in cubes: ...], on the whole of [self.cubes]:
    [chosen] tells which of them the filter kept. *)
Fixpoint turn_chosen (rotate : rotation_function) (angle : float)
    (chosen : list bool) (cubes : list Cube) : result (list Cube) :=
  match chosen, cubes with
  | keep :: chosen, c :: cubes =>
      c ← (if keep : bool then turn_cube rotate angle c else Ok c);
      cubes ← turn_chosen rotate angle chosen cubes;
      mret (c :: cubes)
  | _, _ => Ok cubes
  end.

(** [RubixCube.rotate_cubes], on [self.cubes]. *)
Definition rotate_cubes (cubes : list Cube) (axis : Z) (filter_ : float)
    (rotate : rotation_function) (angle : float) : result (list Cube) :=
  chosen ← comprehension (λ c, filter_cubes c axis filter_) cubes;
  for_each (range 90) (λ _, turn_chosen rotate angle chosen) cubes.

End rubix_cube.

(** * graphics/shape.py: the shapes sorted by their distance to the camera

    [merge_sort] calls itself on the two halves of its list and stops at a
    list of one item; [merge] empties two lists into a third, the smaller
    head first; [get_sorted_shapes] sorts the shapes by the sum of the
    distances of their rotated vertices to the camera and reverses the
    result.  The recursion of [merge_sort] is bounded by the depth of calls
    the interpreter allows: [limit] counts the nested calls of [merge_sort]
    that are allowed. *)
Module shape.

(** What a call returns when the interpreter allows a bounded depth of
    nested calls: a result, or [RecursionError] once the bound is passed. *)
Inductive bounded (A : Type) :=
  | Within (r : result A)
  | RecursionError.
Arguments Within {A} r.
Arguments RecursionError {A}.

Section sorting.
Context {A K : Type}.
(** [func], the key of an item, which may raise; [gt], the comparison [>]
    of two keys. *)
Variable func : A → result K.
Variable gt : K → K → bool.

(** [merge]: the [while array_one and array_two] loop, then the two
    [+=]. *)
Fixpoint merge_loop (array_one array_two array_three : list A)
  : result (list A) :=
  match array_one with
  | [] => Ok (array_three ++ array_one ++ array_two)
  | a :: rest_one =>
      (fix against (array_two array_three : list A) : result (list A) :=
         match array_two with
         | [] => Ok (array_three ++ (a :: rest_one) ++ array_two)
         | b :: rest_two =>
             key_one ← func a;
             key_two ← func b;
             if gt key_one key_two
             then against rest_two (array_three ++ [b])
             else merge_loop rest_one (b :: rest_two) (array_three ++ [a])
         end) array_two array_three
  end.

Definition merge (array_one array_two : list A) : result (list A) :=
  merge_loop array_one array_two [].

(** [merge_sort], with [limit] nested calls allowed. *)
Fixpoint merge_sort (limit : nat) (arr : list A) : bounded (list A) :=
  match limit with
  | O => RecursionError
  | S limit =>
      let length := length arr in
      if (length =? 1)%nat then Within (Ok arr)
      else
        let array_one := take (length `div` 2) arr in
        let array_two := drop (length `div` 2) arr in
        match merge_sort limit array_one with
        | Within (Ok array_one) =>
            match merge_sort limit array_two with
            | Within (Ok array_two) => Within (merge array_one array_two)
            | other => other
            end
        | other => other
        end
  end.

End sorting.

#[local] Open Scope float_scope.

(** [math.sqrt] and the power [** 2] of a float belong to the C library
    and may raise ([ValueError] on a negative argument, [OverflowError] on
    a result out of range); the builtin [sum] adds the floats it is given,
    with a rounding that depends on the version of the interpreter.  The
    function that calls them takes them as a parameter. *)
Record numerics := mknumerics {
  sqrt : float → result float;
  square : float → result float;
  sum : list float → float
}.

(** [rotate_shape] *)
Definition rotate_shape (m : engine.libm) (shape : cube.Shape)
    (angle_x angle_y : float) : result (list (list float)) :=
  polygon ← cube.comprehension
    (λ coord, engine.rotate_x m coord [0; 0; 0] angle_x) (cube.poly shape);
  cube.comprehension
    (λ coord, engine.rotate_y m coord [0; 0; 0] angle_y) polygon.

(** The key that [get_sorted_shapes] sorts by: the sum, over the vertices
    of the rotated polygon, of their distances to the camera. *)
Definition distance (n : numerics) (camera_pos : list float)
    (shapes : cube.Shape * list (list float)) : result float :=
  items ← cube.comprehension (λ vert,
    c2 ← py_get camera_pos 2; v2 ← py_get vert 2; d2 ← square n (c2 - v2);
    c1 ← py_get camera_pos 1; v1 ← py_get vert 1; d1 ← square n (c1 - v1);
    c0 ← py_get camera_pos 0; v0 ← py_get vert 0; d0 ← square n (c0 - v0);
    sqrt n (d2 + d1 + d0)) shapes.2;
  mret (sum n items).

(** [get_sorted_shapes] *)
Definition get_sorted_shapes (m : engine.libm) (n : numerics) (limit : nat)
    (shapes : list cube.Shape) (camera_pos : list float)
  : bounded (list cube.Shape) :=
  match
    cube.comprehension
      (λ shape, rotate_shape m shape (cube.orientation_x shape)
                  (cube.orientation_y shape)) shapes
  with
  | Raise e => Within (Raise e)
  | Ok rotated_shapes =>
      match
        merge_sort (distance n camera_pos) (λ a b, b <? a)%float limit
          (zip shapes rotated_shapes)
      with
      | Within (Ok sorted_shapes) => Within (Ok (reverse sorted_shapes).*1)
      | Within (Raise e) => Within (Raise e)
      | RecursionError => RecursionError
      end
  end.

(** A [numerics] for the evaluation of examples: the correctly rounded
    square root, the product of a float with itself, the sum from left to
    right. *)
Definition numerics_by_hand : numerics :=
  {| sqrt := λ x, if (x <? 0)%float then Raise ValueError
                        else Ok (PrimFloat.sqrt x);
     square := λ x, Ok (x * x)%float;
     sum := foldl PrimFloat.add 0%float |}.

End shape.

(** * Notions of the specification *)

(** Float order, through the IEEE 754 comparison of the standard library:
    a float that is not a NaN is ranked by sign class, then exponent, then
    mantissa, and the comparison is the lexicographic one on ranks. *)
Definition rank (f : spec_float) : option (Z * Z * Z) :=
  match f with
  | S754_nan => None
  | S754_zero _ => Some (0, 0, 0)
  | S754_infinity s => Some (if s then -2 else 2, 0, 0)
  | S754_finite s m e => Some (if s then (-1, - e, Z.neg m) else (1, e, Z.pos m))
  end.

Definition lex (a b : Z * Z * Z) : comparison :=
  match a.1.1 ?= b.1.1 with
  | Eq => match a.1.2 ?= b.1.2 with Eq => a.2 ?= b.2 | c => c end
  | c => c
  end.

Definition lt3 (a b : Z * Z * Z) : Prop :=
  a.1.1 < b.1.1
  ∨ (a.1.1 = b.1.1 ∧ (a.1.2 < b.1.2 ∨ (a.1.2 = b.1.2 ∧ a.2 < b.2))).

Definition le3 (a b : Z * Z * Z) : Prop :=
  a.1.1 < b.1.1
  ∨ (a.1.1 = b.1.1 ∧ (a.1.2 < b.1.2 ∨ (a.1.2 = b.1.2 ∧ a.2 ≤ b.2))).

(** "The maximum of the coordinates": an item that no item exceeds; and
    "the minimum": an item that exceeds no item. *)
Definition greatest (m : float) (l : list float) : Prop :=
  m ∈ l ∧ ∀ v, v ∈ l → (v <=? m)%float = true.

Definition least (m : float) (l : list float) : Prop :=
  m ∈ l ∧ ∀ v, v ∈ l → (m <=? v)%float = true.

Definition no_nan (l : list float) : Prop :=
  Forall (λ v, is_nan v = false) l.

(** What a search started in the store [s0] may do to a later store [s]:
    the objects of [s0] are still there, unchanged, ahead of the objects
    made since ([untouched]); a grid made since refers to rows made since
    ([closed]). *)
Section frame_notions.
Import rubix_store.
Variable s0 : store.

Definition fresh_row (r : ref) : Prop := (length (rows s0) ≤ r)%nat.
Definition fresh_grid (g : ref) : Prop := (length (grids s0) ≤ g)%nat.

Definition untouched (s : store) : Prop :=
  rows s0 `prefix_of` rows s ∧ grids s0 `prefix_of` grids s.

Definition closed (s : store) : Prop :=
  ∀ g rs, fresh_grid g → grids s !! g = Some rs → Forall fresh_row rs.

Definition framed (s : store) : Prop := untouched s ∧ closed s.

Definition fresh_rubix (self : Rubix2D) : Prop :=
  fresh_grid (top self) ∧ fresh_grid (bottom self) ∧ fresh_grid (left self)
  ∧ fresh_grid (right self) ∧ fresh_grid (front self) ∧ fresh_grid (back self).

Definition fresh_memo (mm : memo) : Prop :=
  map_Forall (λ _ r', fresh_row r') (row_copies mm)
  ∧ map_Forall (λ _ g', fresh_grid g') (grid_copies mm).

Definition fresh_queue (queue : list node) : Prop :=
  Forall (λ n, fresh_rubix n.2) queue.

(** [keeps m Q]: run in a framed store, [m] leaves a framed store, whether
    it returns or raises, and what it returns satisfies [Q]. *)
Definition keeps {A} (m : M A) (Q : A → Prop) : Prop :=
  ∀ s, framed s → framed (m s).1 ∧ ∀ a, (m s).2 = Ok a → Q a.

End frame_notions.

(** How a store and an instance stand for a facelet state: each face has
    a grid object of its own, whose rows are objects met nowhere else in
    the six grids and hold the colours of the corresponding rows. *)
Section refinement_notions.
Import rubix_store.

Inductive face := Top | Bottom | Left | Right | Front | Back.

#[global] Instance face_eq_dec : EqDecision face.
Proof. solve_decision. Defined.

Definition faces : list face := [Top; Bottom; Left; Right; Front; Back].

Definition grid_of (F : face) (self : Rubix2D) : ref :=
  match F with
  | Top => top self
  | Bottom => bottom self
  | Left => left self
  | Right => right self
  | Front => front self
  | Back => back self
  end.

Definition with_grid (F : face) (g : ref) (self : Rubix2D) : Rubix2D :=
  match F with
  | Top => set_top g self
  | Bottom => set_bottom g self
  | Left => set_left g self
  | Right => set_right g self
  | Front => set_front g self
  | Back => set_back g self
  end.

Definition value_of (F : face) (v : rubix_2d.Rubix2D) : rubix_2d.grid :=
  match F with
  | Top => rubix_2d.top v
  | Bottom => rubix_2d.bottom v
  | Left => rubix_2d.left v
  | Right => rubix_2d.right v
  | Front => rubix_2d.front v
  | Back => rubix_2d.back v
  end.

Definition with_value (F : face) (g : rubix_2d.grid) (v : rubix_2d.Rubix2D)
  : rubix_2d.Rubix2D :=
  match F with
  | Top => rubix_2d.set_top g v
  | Bottom => rubix_2d.set_bottom g v
  | Left => rubix_2d.set_left g v
  | Right => rubix_2d.set_right g v
  | Front => rubix_2d.set_front g v
  | Back => rubix_2d.set_back g v
  end.

(** The row objects [rs] hold the rows of [g]. *)
Definition holds (s : store) (rs : list ref) (g : rubix_2d.grid) : Prop :=
  Forall2 (λ r cells, rows s !! r = Some cells) rs g.

(** [G] names the rows of each face. *)
Definition laid_out (s : store) (self : Rubix2D) (v : rubix_2d.Rubix2D)
    (G : face → list ref) : Prop :=
  (∀ F, grids s !! grid_of F self = Some (G F))
  ∧ (∀ F, holds s (G F) (value_of F v))
  ∧ NoDup ((λ F, grid_of F self) <$> faces)
  ∧ NoDup (faces ≫= G).

Definition represents (s : store) (self : Rubix2D) (v : rubix_2d.Rubix2D)
  : Prop :=
  ∃ G : face → list ref, laid_out s self v G.

(** The store [s] with the rows [new] added, and a grid of them. *)
Definition with_new_face (s : store) (new : rubix_2d.grid) : store :=
  mkStore (rows s ++ new) (grids s ++ [seq (length (rows s)) (length new)]).

(** The first move of [moves] that solves the state [v]. *)
Definition first_solving (moves : list Z) (v : rubix_2d.Rubix2D) : option Z :=
  find (λ move,
          match rubix_2d.rotate_side move v with
          | Ok w => rubix_2d.is_solved w
          | Raise _ => false
          end) moves.

End refinement_notions.

(** ** Sequences of moves and the order of the search *)

(** [rotate_side] applied for each move of [steps] in turn. *)
Definition replay (steps : list Z) (v : rubix_2d.Rubix2D)
  : result rubix_2d.Rubix2D :=
  for_each steps rubix_2d.rotate_side v.

(** The moves of [steps] bring [v] to a solved state. *)
Definition solves (steps : list Z) (v : rubix_2d.Rubix2D) : bool :=
  match replay steps v with
  | Ok w => rubix_2d.is_solved w
  | Raise _ => false
  end.

(** A node of the queue on the store and the node of values it stands
    for. *)
Definition node_represents (s : rubix_store.store) (n : rubix_store.node)
    (nv : rubix_solver.node) : Prop :=
  n.1 = nv.1 ∧ represents s n.2 nv.2.

(** The state a move makes of [v]; [v] itself where the move raises. *)
Definition turn (m : Z) (v : rubix_2d.Rubix2D) : rubix_2d.Rubix2D :=
  match rubix_2d.rotate_side m v with
  | Ok w => w
  | Raise _ => v
  end.

(** The nodes that a pass of the search loop appends for the node [n]. *)
Definition kids (n : rubix_solver.node) : list rubix_solver.node :=
  (λ m, (n.1 ++ [m], turn m n.2)) <$> range_from 1 19.

(** The nodes at [k] moves from the state [v0], in the order the search
    meets them. *)
Fixpoint level (v0 : rubix_2d.Rubix2D) (k : nat) : list rubix_solver.node :=
  match k with
  | O => [([], v0)]
  | S k => level v0 k ≫= kids
  end.

(** No node of the list is one move from a solved state. *)
Definition unsolvable_next (ws : list rubix_solver.node) : bool :=
  forallb (λ n, bool_decide (first_solving (range_from 1 19) n.2 = None)) ws.

(** The passes of the search loop that empty the levels below [n]:
    1 + 18 + ... + 18 ^ (n - 1). *)
Fixpoint passes (n : nat) : nat :=
  match n with
  | O => 0
  | S n => passes n + 18 ^ n
  end.

(** A node whose steps lead from [v0] to its state. *)
Definition sound_node (v0 : rubix_2d.Rubix2D) (n : rubix_solver.node) : Prop :=
  replay n.1 v0 = Ok n.2 ∧ rubix_2d.well_formed n.2 = true
  ∧ Forall (λ m, 1 ≤ m ≤ 18) n.1.

(** A node that no move solves. *)
Definition clear_node (n : rubix_solver.node) : Prop :=
  rubix_2d.well_formed n.2 = true
  ∧ first_solving (range_from 1 19) n.2 = None.

(** The move that undoes the move [m]. *)
Definition inverse_move (m : Z) : Z :=
  if bool_decide (1 ≤ m ≤ 9) then m + 9
  else if bool_decide (10 ≤ m ≤ 18) then m - 9
  else m.

(** The sequence that undoes the sequence [x]. *)
Definition undo (x : list Z) : list Z := reverse (inverse_move <$> x).

(** ** Moves and faces *)

(** The axis a move turns a layer about: 0 for the moves with which
    [rotate_side] calls [rotate_x], 1 for [rotate_y], 2 for [rotate_z]. *)
Definition axis_of_move (m : Z) : Z := ((m - 1) `mod` 9) `div` 3.

(** A grid of one colour: it has a cell, and every cell is of the colour
    [c]. *)
Definition one_colour (c : string) (side : rubix_2d.grid) : Prop :=
  concat side ≠ [] ∧ Forall (λ x, x = c) (concat side).

(** ** The solid model *)

(** The lattice coordinate of a cube on an axis (0 = x, 1 = y, 2 = z). *)
Definition lattice_coordinate (axis : Z) (c : cube.Cube) : Z :=
  match axis with
  | 0 => cube.x c
  | 1 => cube.y c
  | _ => cube.z c
  end.

(** [rotate] returns three coordinates, of which the one at [axis] is the
    one it was given. *)
Definition holds_coordinate (rotate : rubix_cube.rotation_function) (axis : Z)
  : Prop :=
  ∀ vert center angle out,
    rotate vert center angle = Ok out →
    py_get out axis = py_get vert axis.

(** What a turn of a layer may change of a cube: not its extent along
    the axis of the turn, nor its position fields, nor its colours; and
    nothing at all when the filter did not keep the cube. *)
Definition turned (axis : Z) (kept_and_before : bool * cube.Cube)
    (after : cube.Cube) : Prop :=
  let '(keep, before) := kept_and_before in
  cube.axis_coords after axis = cube.axis_coords before axis
  ∧ cube.x after = cube.x before ∧ cube.y after = cube.y before
  ∧ cube.z after = cube.z before
  ∧ cube.colours after = cube.colours before
  ∧ cube.colour <$> cube.cube after = cube.colour <$> cube.cube before
  ∧ (keep = false → after = before).

(** A cube with a vertex, all of whose vertices have three coordinates. *)
Definition solid (c : cube.Cube) : Prop :=
  concat (cube.poly <$> cube.cube c) ≠ []
  ∧ Forall (λ vert : list float, length vert = 3%nat)
      (concat (cube.poly <$> cube.cube c)).

(** [a] comes no later than [b] in ascending order of keys: the key of
    [a] is not [>] the key of [b]. *)
Definition not_after {A K} (key : A → K) (gt : K → K → bool) (a b : A) : Prop :=
  gt (key a) (key b) = false.

(** * Supporting lemmas: the facelet state machine *)
Section facelet_properties.
Import rubix_2d.

Lemma is_3x3_inv (g : grid) :
  is_3x3 g = true →
  ∃ a b c d e f p q r, g = [[a; b; c]; [d; e; f]; [p; q; r]].
Proof.
  unfold is_3x3.
  destruct g as [|r1 [|r2 [|r3 [|r4 g]]]]; simpl; try discriminate.
  destruct r1 as [|? [|? [|? [|? ?]]]]; simpl; try discriminate.
  destruct r2 as [|? [|? [|? [|? ?]]]]; simpl; try discriminate.
  destruct r3 as [|? [|? [|? [|? ?]]]]; simpl; try discriminate.
  intros _. by repeat eexists.
Qed.

Lemma well_formed_inv (self : Rubix2D) :
  well_formed self = true →
  is_3x3 (top self) = true ∧ is_3x3 (bottom self) = true
  ∧ is_3x3 (left self) = true ∧ is_3x3 (right self) = true
  ∧ is_3x3 (front self) = true ∧ is_3x3 (back self) = true.
Proof.
  unfold well_formed. simpl. rewrite !andb_true_iff. tauto.
Qed.

End facelet_properties.

(** Replaces a well-formed state by its 54 cells. *)
Ltac explode_grid H :=
  apply is_3x3_inv in H;
  destruct H as (? & ? & ? & ? & ? & ? & ? & ? & ? & H);
  simpl in H; subst.

Ltac explode_state self Hwf :=
  let Et := fresh in let Eb := fresh in let El := fresh in
  let Er := fresh in let Ef := fresh in let Ek := fresh in
  destruct self as [? ? ? ? ? ?];
  apply well_formed_inv in Hwf; simpl in Hwf;
  destruct Hwf as (Et & Eb & El & Er & Ef & Ek);
  explode_grid Et; explode_grid Eb; explode_grid El;
  explode_grid Er; explode_grid Ef; explode_grid Ek.

Lemma Z_cases_1_9 (m : Z) :
  1 ≤ m ≤ 9 →
  m = 1 ∨ m = 2 ∨ m = 3 ∨ m = 4 ∨ m = 5 ∨ m = 6 ∨ m = 7 ∨ m = 8 ∨ m = 9.
Proof. lia. Qed.

Lemma Z_cases_1_18 (m : Z) :
  1 ≤ m ≤ 18 →
  (m = 1 ∨ m = 2 ∨ m = 3 ∨ m = 4 ∨ m = 5 ∨ m = 6 ∨ m = 7 ∨ m = 8 ∨ m = 9)
  ∨ (m = 10 ∨ m = 11 ∨ m = 12 ∨ m = 13 ∨ m = 14 ∨ m = 15 ∨ m = 16
     ∨ m = 17 ∨ m = 18).
Proof. lia. Qed.

(** [split_at a r] cuts the list term [r] at the first [a]. *)
Ltac split_at a r :=
  lazymatch r with
  | a :: ?r2 => constr:((@nil string, r2))
  | ?b :: ?r' =>
      lazymatch split_at a r' with
      | (?l1, ?l2) => constr:((b :: l1, l2))
      end
  end.

(** Proves that two lists of the same variables are permutations of each
    other, one head at a time. *)
Ltac solve_perm :=
  repeat lazymatch goal with
  | |- [] ≡ₚ [] => reflexivity
  | |- ?a :: ?l ≡ₚ ?r =>
      lazymatch split_at a r with
      | (?l1, ?l2) =>
          change r with (l1 ++ a :: l2);
          apply Permutation_cons_app; simpl app
      end
  end.

(** A loop whose body keeps an invariant and never raises runs to its end
    and keeps the invariant. *)
Lemma for_each_invariant {I S} (P : S → Prop) (xs : list I)
    (body : I → S → result S) (s : S) :
  P s →
  (∀ x s, P s → ∃ s', body x s = Ok s' ∧ P s') →
  ∃ s', for_each xs body s = Ok s' ∧ P s'.
Proof.
  intros Hs Hbody. revert s Hs.
  induction xs as [|x xs IH]; intros s Hs; simpl.
  - by exists s.
  - destruct (Hbody x s Hs) as (s1 & -> & Hs1). simpl. by apply IH.
Qed.


(** * Supporting lemmas: the transform engine and the solid model *)

(** ** The order of floats *)
Section float_order.

Lemma SFcompare_rank (a b : spec_float) :
  SFcompare a b =
    match rank a, rank b with
    | Some ra, Some rb => Some (lex ra rb)
    | _, _ => None
    end.
Proof.
  destruct a as [sa|sa| |sa ma ea], b as [sb|sb| |sb mb eb]; simpl;
    try destruct sa; try destruct sb; try reflexivity.
  unfold lex; simpl. rewrite Z.compare_opp, (Z.compare_antisym ea eb).
  destruct (ea ?= eb); reflexivity.
Qed.

Lemma lex_lt a b : lex a b = Lt ↔ lt3 a b.
Proof.
  unfold lex, lt3.
  destruct (Z.compare_spec a.1.1 b.1.1), (Z.compare_spec a.1.2 b.1.2),
    (Z.compare_spec a.2 b.2); split; (discriminate || lia || reflexivity || idtac).
Qed.

Lemma lex_le a b : lex a b ≠ Gt ↔ le3 a b.
Proof.
  unfold lex, le3.
  destruct (Z.compare_spec a.1.1 b.1.1), (Z.compare_spec a.1.2 b.1.2),
    (Z.compare_spec a.2 b.2); split; (congruence || lia || idtac).
Qed.

#[local] Open Scope float_scope.

Lemma ltb_rank (a b : float) :
  (a <? b) = true ↔
  ∃ ra rb, rank (Prim2SF a) = Some ra ∧ rank (Prim2SF b) = Some rb ∧ lt3 ra rb.
Proof.
  rewrite FloatAxioms.ltb_spec. unfold SFltb. rewrite SFcompare_rank.
  destruct (rank (Prim2SF a)) as [ra|], (rank (Prim2SF b)) as [rb|];
    try (split; [discriminate | intros (? & ? & ? & ? & ?); discriminate]).
  split.
  - destruct (lex ra rb) eqn:E; try discriminate.
    intros _. exists ra, rb. by rewrite <- lex_lt.
  - intros (? & ? & [= <-] & [= <-] & H). apply lex_lt in H. by rewrite H.
Qed.

Lemma leb_rank (a b : float) :
  (a <=? b) = true ↔
  ∃ ra rb, rank (Prim2SF a) = Some ra ∧ rank (Prim2SF b) = Some rb ∧ le3 ra rb.
Proof.
  rewrite FloatAxioms.leb_spec. unfold SFleb. rewrite SFcompare_rank.
  destruct (rank (Prim2SF a)) as [ra|], (rank (Prim2SF b)) as [rb|];
    try (split; [discriminate | intros (? & ? & ? & ? & ?); discriminate]).
  split.
  - destruct (lex ra rb) eqn:E; try discriminate;
      intros _; exists ra, rb; rewrite <- lex_le; by rewrite E.
  - intros (? & ? & [= <-] & [= <-] & H). apply lex_le in H.
    by destruct (lex ra rb).
Qed.

Lemma is_nan_rank (a : float) :
  is_nan a = false ↔ ∃ ra, rank (Prim2SF a) = Some ra.
Proof.
  unfold is_nan. rewrite FloatAxioms.eqb_spec. unfold SFeqb. rewrite SFcompare_rank.
  destruct (rank (Prim2SF a)) as [ra|].
  - split; [eauto|]. intros _. unfold lex. by rewrite !Z.compare_refl.
  - split; [discriminate|]. intros [? ?]. discriminate.
Qed.

Lemma float_le_total (a b : float) :
  is_nan a = false → is_nan b = false → (a <? b) = false → (b <=? a) = true.
Proof.
  rewrite !is_nan_rank. intros [ra Ha] [rb Hb] Hlt.
  apply leb_rank. exists rb, ra. repeat split; [done..|].
  destruct (decide (lt3 ra rb)) as [H|H].
  - assert ((a <? b) = true) by (apply ltb_rank; eauto). congruence.
  - unfold lt3, le3 in *. lia.
Qed.

Lemma float_le_trans (a b c : float) :
  (a <=? b) = true → (b <=? c) = true → (a <=? c) = true.
Proof.
  rewrite !leb_rank. intros (ra & rb & Ha & Hb & H1) (rb' & rc & Hb' & Hc & H2).
  simplify_eq. exists ra, rc. repeat split; [done..|]. unfold le3 in *. lia.
Qed.

Lemma float_lt_le_trans (a b c : float) :
  (a <? b) = true → (b <=? c) = true → (a <? c) = true.
Proof.
  rewrite !ltb_rank, leb_rank. intros (ra & rb & Ha & Hb & H1) (rb' & rc & Hb' & Hc & H2).
  simplify_eq. exists ra, rc. repeat split; [done..|]. unfold le3, lt3 in *. lia.
Qed.

Lemma float_le_lt_trans (a b c : float) :
  (a <=? b) = true → (b <? c) = true → (a <? c) = true.
Proof.
  rewrite !ltb_rank, leb_rank. intros (ra & rb & Ha & Hb & H1) (rb' & rc & Hb' & Hc & H2).
  simplify_eq. exists ra, rc. repeat split; [done..|]. unfold le3, lt3 in *. lia.
Qed.

Lemma float_le_refl (a : float) : is_nan a = false → (a <=? a) = true.
Proof.
  rewrite is_nan_rank, leb_rank. intros [ra Ha]. exists ra, ra. repeat split; [done..|].
  unfold le3. lia.
Qed.

End float_order.

(** ** The builtins [max] and [min] *)
Section extrema.
Import cube.
#[local] Open Scope float_scope.

Lemma foldl_max_greatest (rest seen : list float) (acc : float) :
  no_nan (seen ++ rest) →
  greatest acc seen →
  greatest
    (foldl (λ maxval item, if maxval <? item then item else maxval) acc rest)
    (seen ++ rest).
Proof.
  revert seen acc. induction rest as [|item rest IH]; intros seen acc Hnan Hacc.
  - by rewrite app_nil_r.
  - simpl. replace (seen ++ item :: rest) with ((seen ++ [item]) ++ rest)
      by by rewrite <- app_assoc.
    replace (seen ++ item :: rest) with ((seen ++ [item]) ++ rest) in Hnan
      by by rewrite <- app_assoc.
    apply IH; [done|]. destruct Hacc as [Hin Hub].
    unfold no_nan in Hnan. rewrite !Forall_app, Forall_singleton in Hnan.
    destruct Hnan as [[Hseen Hitem] _].
    assert (Hacc_nan : is_nan acc = false)
      by (rewrite Forall_forall in Hseen; by apply Hseen).
    destruct (acc <? item) eqn:Hcmp; split.
    + apply elem_of_app. right. by apply list_elem_of_singleton.
    + intros v [Hv | Hv%list_elem_of_singleton]%elem_of_app.
      * apply float_le_trans with acc; [by apply Hub|].
        apply float_le_total; [done..|].
        destruct (item <? acc) eqn:Hrev; [|done].
        apply ltb_rank in Hcmp as (ra & rb & Ha & Hb & H1).
        apply ltb_rank in Hrev as (rb' & ra' & Hb' & Ha' & H2).
        simplify_eq. unfold lt3 in *. lia.
      * subst v. by apply float_le_refl.
    + apply elem_of_app. by left.
    + intros v [Hv | Hv%list_elem_of_singleton]%elem_of_app.
      * by apply Hub.
      * subst v. by apply float_le_total.
Qed.

Lemma foldl_min_least (rest seen : list float) (acc : float) :
  no_nan (seen ++ rest) →
  least acc seen →
  least
    (foldl (λ minval item, if item <? minval then item else minval) acc rest)
    (seen ++ rest).
Proof.
  revert seen acc. induction rest as [|item rest IH]; intros seen acc Hnan Hacc.
  - by rewrite app_nil_r.
  - simpl. replace (seen ++ item :: rest) with ((seen ++ [item]) ++ rest)
      by by rewrite <- app_assoc.
    replace (seen ++ item :: rest) with ((seen ++ [item]) ++ rest) in Hnan
      by by rewrite <- app_assoc.
    apply IH; [done|]. destruct Hacc as [Hin Hlb].
    unfold no_nan in Hnan. rewrite !Forall_app, Forall_singleton in Hnan.
    destruct Hnan as [[Hseen Hitem] _].
    assert (Hacc_nan : is_nan acc = false)
      by (rewrite Forall_forall in Hseen; by apply Hseen).
    destruct (item <? acc) eqn:Hcmp; split.
    + apply elem_of_app. right. by apply list_elem_of_singleton.
    + intros v [Hv | Hv%list_elem_of_singleton]%elem_of_app.
      * apply float_le_trans with acc; [|by apply Hlb].
        apply float_le_total; [done..|].
        destruct (acc <? item) eqn:Hrev; [|done].
        apply ltb_rank in Hcmp as (ra & rb & Ha & Hb & H1).
        apply ltb_rank in Hrev as (rb' & ra' & Hb' & Ha' & H2).
        simplify_eq. unfold lt3 in *. lia.
      * subst v. by apply float_le_refl.
    + apply elem_of_app. by left.
    + intros v [Hv | Hv%list_elem_of_singleton]%elem_of_app.
      * by apply Hlb.
      * subst v. by apply float_le_total.
Qed.

(** On floats without a NaN, [max] returns a greatest item. *)
Lemma py_max_greatest (items : list float) (m : float) :
  no_nan items → py_max items = Ok m → greatest m items.
Proof.
  destruct items as [|first rest]; [discriminate|].
  intros Hnan [= <-].
  apply (foldl_max_greatest rest [first] first); [done|].
  split; [by apply list_elem_of_singleton|].
  intros v ->%list_elem_of_singleton. apply float_le_refl.
  by inversion Hnan.
Qed.

(** On floats without a NaN, [min] returns a least item. *)
Lemma py_min_least (items : list float) (m : float) :
  no_nan items → py_min items = Ok m → least m items.
Proof.
  destruct items as [|first rest]; [discriminate|].
  intros Hnan [= <-].
  apply (foldl_min_least rest [first] first); [done|].
  split; [by apply list_elem_of_singleton|].
  intros v ->%list_elem_of_singleton. apply float_le_refl.
  by inversion Hnan.
Qed.

End extrema.



(** * Supporting lemmas: what the solver leaves untouched *)
Section solver_frame.
Import rubix_store.
Variable s0 : store.


Lemma keeps_ret {A} (a : A) (Q : A → Prop) : Q a → keeps s0 (mret a) Q.
Proof. intros Ha s Hs. split; [done|]. by intros ? [= <-]. Qed.

Lemma keeps_bind {A B} (m : M A) (f : A → M B) (Q : A → Prop) (Q' : B → Prop) :
  keeps s0 m Q → (∀ a, Q a → keeps s0 (f a) Q') → keeps s0 (m ≫= f) Q'.
Proof.
  intros Hm Hf s Hs. destruct (Hm s Hs) as [Hs' Ha].
  unfold mbind, M_bind. destruct (m s) as [s' [a|e]]; simpl in *.
  - by apply Hf; [apply Ha|].
  - split; [done|]. discriminate.
Qed.

Lemma keeps_weaken {A} (m : M A) (Q Q' : A → Prop) :
  keeps s0 m Q → (∀ a, Q a → Q' a) → keeps s0 m Q'.
Proof.
  intros Hm HQ s Hs. destruct (Hm s Hs) as [Hs' Ha]. split; [done|].
  intros a Hr. by apply HQ, Ha.
Qed.

Lemma keeps_lift {A} (r : result A) : keeps s0 (lift r) (λ _, True).
Proof. intros s Hs. by split. Qed.

Lemma keeps_load_row (r : ref) : keeps s0 (load_row r) (λ _, True).
Proof. intros s Hs. by split. Qed.

Lemma keeps_load_grid (g : ref) : keeps s0 (load_grid g) (λ _, True).
Proof. intros s Hs. by split. Qed.

Lemma keeps_load_fresh_grid (g : ref) :
  fresh_grid s0 g → keeps s0 (load_grid g) (Forall (fresh_row s0)).
Proof.
  intros Hg s Hs. split; [done|]. intros rs. unfold load_grid. simpl.
  destruct (grids s !! g) as [rs'|] eqn:E; simpl; [|discriminate].
  intros [= <-]. by apply (proj2 Hs g).
Qed.

Lemma prefix_insert_beyond {A} (l0 l : list A) (i : nat) (x : A) :
  l0 `prefix_of` l → (length l0 ≤ i)%nat → l0 `prefix_of` <[i:=x]> l.
Proof.
  intros [k ->] Hi. exists (<[(i - length l0)%nat:=x]> k).
  by rewrite insert_app_r_alt.
Qed.

Lemma keeps_store_row (r : ref) (cells : list string) :
  fresh_row s0 r → keeps s0 (store_row r cells) (λ _, True).
Proof.
  intros Hr s [[Hrows Hgrids] Hclosed]. unfold store_row.
  destruct (decide _); simpl; [|done].
  split; [|done]. split; [split|]; simpl; [|done..].
  by apply prefix_insert_beyond.
Qed.

Lemma keeps_store_grid (g : ref) (rs : list ref) :
  fresh_grid s0 g → Forall (fresh_row s0) rs →
  keeps s0 (store_grid g rs) (λ _, True).
Proof.
  intros Hg Hrs s [[Hrows Hgrids] Hclosed]. unfold store_grid.
  destruct (decide _) as [Hlt|]; simpl; [|done].
  split; [|done]. split; [split|]; cbn [rows grids]; [done| |].
  - by apply prefix_insert_beyond.
  - intros g' rs' Hg'. cbn [grids]. destruct (decide (g = g')) as [<-|Hne].
    + rewrite list_lookup_insert_eq by done. by intros [= <-].
    + rewrite list_lookup_insert_ne by done. by apply Hclosed.
Qed.

Lemma keeps_new_row (cells : list string) :
  keeps s0 (new_row cells) (fresh_row s0).
Proof.
  intros s [[Hrows Hgrids] Hclosed]. unfold new_row. simpl.
  split; [split; [split|]|]; simpl; [|done..|].
  - by apply prefix_app_r.
  - intros r [= <-]. by apply prefix_length.
Qed.

Lemma keeps_new_grid (rs : list ref) :
  Forall (fresh_row s0) rs → keeps s0 (new_grid rs) (fresh_grid s0).
Proof.
  intros Hrs s [[Hrows Hgrids] Hclosed]. unfold new_grid. simpl.
  split; [split; [split|]|]; cbn [rows grids]; [done| | |].
  - by apply prefix_app_r.
  - intros g rs' Hg. cbn [grids].
    intros [Hl | [? Hl]]%lookup_app_Some; [by eapply Hclosed|].
    apply list_lookup_singleton_Some in Hl as [_ <-].
    done.
  - intros g [= <-]. by apply prefix_length.
Qed.

Lemma keeps_comprehension_m {A B} (f : A → M B) (xs : list A) (Q : B → Prop) :
  (∀ x, keeps s0 (f x) Q) → keeps s0 (comprehension_m f xs) (Forall Q).
Proof.
  intros Hf. induction xs as [|x xs IH]; simpl.
  - by apply keeps_ret.
  - eapply keeps_bind; [apply Hf|]. intros y Hy.
    eapply keeps_bind; [apply IH|]. intros ys Hys.
    apply keeps_ret. by constructor.
Qed.

Lemma keeps_for_each_m {I S} (xs : list I) (body : I → S → M S) (s : S)
    (P : S → Prop) :
  P s → (∀ x s, P s → keeps s0 (body x s) P) →
  keeps s0 (for_each_m xs body s) P.
Proof.
  intros Hs Hbody. revert s Hs. induction xs as [|x xs IH]; intros s Hs; simpl.
  - by apply keeps_ret.
  - eapply keeps_bind; [by apply Hbody|]. intros s' Hs'. by apply IH.
Qed.

Lemma keeps_snapshot (g : ref) : keeps s0 (snapshot g) (λ _, True).
Proof.
  eapply keeps_bind; [apply keeps_load_grid|]. intros rs _.
  eapply keeps_weaken; [apply keeps_comprehension_m, keeps_load_row|done].
Qed.

Lemma keeps_grid_item (g : ref) (i : Z) :
  fresh_grid s0 g → keeps s0 (grid_item g i) (fresh_row s0).
Proof.
  intros Hg. eapply keeps_bind; [by apply keeps_load_fresh_grid|].
  intros rs Hrs s Hs. split; [done|]. intros r. unfold lift, py_get. simpl.
  destruct (py_index (length rs) i ≫= _) as [r'|] eqn:E; [|discriminate].
  intros [= <-]. apply bind_Some in E as (k & _ & Hk).
  rewrite Forall_forall in Hrs. apply Hrs. by eapply list_elem_of_lookup_2.
Qed.

Lemma keeps_grid_set_item (g : ref) (i : Z) (r : ref) :
  fresh_grid s0 g → fresh_row s0 r → keeps s0 (grid_set_item g i r) (λ _, True).
Proof.
  intros Hg Hr. eapply keeps_bind; [by apply keeps_load_fresh_grid|].
  intros rs Hrs.
  eapply (keeps_bind _ _ (Forall (fresh_row s0))).
  - intros s Hs. split; [done|]. intros rs'. unfold lift, py_set. simpl.
    destruct (py_index (length rs) i); [|discriminate].
    intros [= <-]. by apply Forall_insert.
  - intros rs' Hrs'. by apply keeps_store_grid.
Qed.

Lemma keeps_set_cell (g : ref) (i j : Z) (v : string) :
  fresh_grid s0 g → keeps s0 (set_cell g i j v) (λ _, True).
Proof.
  intros Hg. eapply keeps_bind; [by apply keeps_grid_item|]. intros r Hr.
  eapply keeps_bind; [apply keeps_load_row|]. intros cells _.
  eapply keeps_bind; [apply keeps_lift|]. intros cells' _.
  by apply keeps_store_row.
Qed.

Lemma keeps_rotate_arr (arr : ref) (iters : Z) :
  keeps s0 (rotate_arr arr iters) (fresh_grid s0).
Proof.
  eapply keeps_bind; [apply keeps_snapshot|]. intros g _.
  eapply keeps_bind; [apply keeps_comprehension_m, keeps_new_row|].
  intros rs Hrs. by apply keeps_new_grid.
Qed.

Lemma keeps_uniform_grid (colour : string) :
  keeps s0 (uniform_grid colour) (fresh_grid s0).
Proof.
  eapply keeps_bind; [apply keeps_comprehension_m; intros; apply keeps_new_row|].
  intros rs Hrs. by apply keeps_new_grid.
Qed.

Lemma keeps_Rubix2D_new : keeps s0 Rubix2D_new (fresh_rubix s0).
Proof.
  unfold Rubix2D_new.
  do 6 (eapply keeps_bind; [apply keeps_uniform_grid|]; intros ? ?).
  by apply keeps_ret.
Qed.

(** One step of a frame proof: peel the first computation of a sequence
    with the lemma that fits it. *)
Ltac keeps_step :=
  lazymatch goal with
  | |- keeps _ (mret _) _ => apply keeps_ret
  | |- keeps _ (_ ≫= _) _ =>
      eapply keeps_bind;
      [ first
          [ apply keeps_snapshot
          | apply keeps_lift
          | apply keeps_grid_item
          | apply keeps_grid_set_item
          | apply keeps_set_cell
          | apply keeps_rotate_arr
          | apply keeps_load_row ]
      | intros ? ? ]
  end.

Lemma keeps_rotate_x_step (y : Z) (self : Rubix2D) :
  fresh_rubix s0 self → keeps s0 (rotate_x_step y self) (fresh_rubix s0).
Proof.
  intros Hself. pose proof Hself as (Ht & Hb & Hl & Hr & Hf & Hk).
  unfold rotate_x_step. repeat (keeps_step; try done).
Qed.

Lemma keeps_rotate_y_step (x : Z) (self : Rubix2D) :
  fresh_rubix s0 self → keeps s0 (rotate_y_step x self) (fresh_rubix s0).
Proof.
  intros Hself. unfold rotate_y_step. do 5 keeps_step.
  eapply keeps_bind.
  - apply (keeps_for_each_m _ _ _ (fresh_rubix s0)); [done|].
    intros index self' (Ht & Hb & Hl & Hr & Hf & Hk).
    repeat (keeps_step; try done).
  - intros self' Hself'.
    apply (keeps_for_each_m _ _ _ (fresh_rubix s0)); [done|].
    intros [index_1 index_2] self'' (Ht & Hb & Hl & Hr & Hf & Hk).
    repeat (keeps_step; try done).
Qed.

Lemma keeps_rotate_z_step (z : Z) (self : Rubix2D) :
  fresh_rubix s0 self → keeps s0 (rotate_z_step z self) (fresh_rubix s0).
Proof.
  intros Hself. unfold rotate_z_step. do 5 keeps_step.
  eapply keeps_bind.
  - apply (keeps_for_each_m _ _ _ (fresh_rubix s0)); [done|].
    intros [index_1 index_2] self' (Ht & Hb & Hl & Hr & Hf & Hk).
    repeat (keeps_step; try done).
  - intros self' Hself'.
    apply (keeps_for_each_m _ _ _ (fresh_rubix s0)); [done|].
    intros index self'' (Ht & Hb & Hl & Hr & Hf & Hk).
    repeat (keeps_step; try done).
Qed.

(** The closing lines of a turn: a face grid is replaced by a new one. *)
Lemma keeps_replace_face (b : bool) (arr : ref) (iters : Z)
    (set : ref → Rubix2D → Rubix2D) (self : Rubix2D) :
  fresh_rubix s0 self →
  (∀ g, fresh_grid s0 g → fresh_rubix s0 (set g self)) →
  keeps s0
    (if b then g ← rotate_arr arr iters; mret (set g self) else mret self)
    (fresh_rubix s0).
Proof.
  intros Hself Hset. destruct b; [|by apply keeps_ret].
  eapply keeps_bind; [apply keeps_rotate_arr|]. intros g Hg.
  by apply keeps_ret, Hset.
Qed.

Lemma keeps_rotate_x (y iters : Z) (self : Rubix2D) :
  fresh_rubix s0 self → keeps s0 (rotate_x y iters self) (fresh_rubix s0).
Proof.
  intros Hself. unfold rotate_x.
  eapply keeps_bind;
    [apply (keeps_for_each_m _ _ _ (fresh_rubix s0)); [done|];
     intros; by apply keeps_rotate_x_step|].
  intros self1 H1.
  eapply keeps_bind; [apply keeps_replace_face; [done|]|].
  { intros g Hg. unfold fresh_rubix in *. simpl. tauto. }
  intros self2 H2.
  eapply keeps_bind; [apply keeps_replace_face; [done|]|].
  { intros g Hg. unfold fresh_rubix in *. simpl. tauto. }
  intros self3 H3. by apply keeps_ret.
Qed.

Lemma keeps_rotate_y (x iters : Z) (self : Rubix2D) :
  fresh_rubix s0 self → keeps s0 (rotate_y x iters self) (fresh_rubix s0).
Proof.
  intros Hself. unfold rotate_y.
  eapply keeps_bind;
    [apply (keeps_for_each_m _ _ _ (fresh_rubix s0)); [done|];
     intros; by apply keeps_rotate_y_step|].
  intros self1 H1.
  eapply keeps_bind; [apply keeps_replace_face; [done|]|].
  { intros g Hg. unfold fresh_rubix in *. simpl. tauto. }
  intros self2 H2.
  eapply keeps_bind; [apply keeps_replace_face; [done|]|].
  { intros g Hg. unfold fresh_rubix in *. simpl. tauto. }
  intros self3 H3. by apply keeps_ret.
Qed.

Lemma keeps_rotate_z (z iters : Z) (self : Rubix2D) :
  fresh_rubix s0 self → keeps s0 (rotate_z z iters self) (fresh_rubix s0).
Proof.
  intros Hself. unfold rotate_z.
  eapply keeps_bind;
    [apply (keeps_for_each_m _ _ _ (fresh_rubix s0)); [done|];
     intros; by apply keeps_rotate_z_step|].
  intros self1 H1.
  eapply keeps_bind; [apply keeps_replace_face; [done|]|].
  { intros g Hg. unfold fresh_rubix in *. simpl. tauto. }
  intros self2 H2.
  eapply keeps_bind; [apply keeps_replace_face; [done|]|].
  { intros g Hg. unfold fresh_rubix in *. simpl. tauto. }
  intros self3 H3. by apply keeps_ret.
Qed.

Lemma keeps_rotate_side (index : Z) (rubix : Rubix2D) :
  fresh_rubix s0 rubix → keeps s0 (rotate_side index rubix) (fresh_rubix s0).
Proof.
  intros Hrubix. unfold rotate_side.
  repeat case_match;
    first [ by apply keeps_rotate_x | by apply keeps_rotate_y
          | by apply keeps_rotate_z | by apply keeps_ret ].
Qed.

Lemma keeps_view (self : Rubix2D) : keeps s0 (view self) (λ _, True).
Proof. unfold view. repeat (keeps_step; try done). Qed.

Lemma keeps_is_solved (self : Rubix2D) : keeps s0 (is_solved self) (λ _, True).
Proof.
  unfold is_solved. eapply keeps_bind; [apply keeps_view|].
  intros v _. by apply keeps_ret.
Qed.

(** *** Deep copies are made of new objects *)

Lemma keeps_deepcopy_row (r : ref) (mm : memo) :
  fresh_memo s0 mm →
  keeps s0 (deepcopy_row r mm) (λ p, fresh_row s0 p.1 ∧ fresh_memo s0 p.2).
Proof.
  intros [Hrows Hgrids]. unfold deepcopy_row.
  destruct (row_copies mm !! r) as [r'|] eqn:E.
  - apply keeps_ret. split; [|done]. by apply (Hrows r r').
  - eapply keeps_bind; [apply keeps_load_row|]. intros cells _.
    eapply keeps_bind; [apply keeps_new_row|]. intros r' Hr'.
    apply keeps_ret. split; [done|]. split; [|done]. simpl.
    by apply map_Forall_insert_2.
Qed.

Lemma keeps_deepcopy_rows (rs : list ref) (mm : memo) :
  fresh_memo s0 mm →
  keeps s0 (deepcopy_rows rs mm)
    (λ p, Forall (fresh_row s0) p.1 ∧ fresh_memo s0 p.2).
Proof.
  revert mm. induction rs as [|r rs IH]; intros mm Hmm; simpl.
  - by apply keeps_ret.
  - eapply keeps_bind; [by apply keeps_deepcopy_row|].
    intros [r' mm1] [Hr' Hmm1].
    eapply keeps_bind; [by apply IH|].
    intros [rs' mm2] [Hrs' Hmm2].
    apply keeps_ret. split; [by constructor|done].
Qed.

Lemma keeps_deepcopy_grid (g : ref) (mm : memo) :
  fresh_memo s0 mm →
  keeps s0 (deepcopy_grid g mm) (λ p, fresh_grid s0 p.1 ∧ fresh_memo s0 p.2).
Proof.
  intros Hmm. unfold deepcopy_grid.
  destruct (grid_copies mm !! g) as [g'|] eqn:E.
  - apply keeps_ret. split; [|done]. by apply (proj2 Hmm g g').
  - eapply keeps_bind; [apply keeps_load_grid|]. intros rs _.
    eapply keeps_bind; [by apply keeps_deepcopy_rows|].
    intros [rs' mm1] [Hrs' [Hrows1 Hgrids1]].
    eapply keeps_bind; [by apply keeps_new_grid|]. intros g' Hg'.
    apply keeps_ret. split; [done|]. split; [done|]. simpl.
    by apply map_Forall_insert_2.
Qed.

Lemma fresh_no_memo : fresh_memo s0 no_memo.
Proof. split; apply map_Forall_empty. Qed.

Lemma keeps_deepcopy (g : ref) : keeps s0 (deepcopy g) (fresh_grid s0).
Proof.
  unfold deepcopy.
  eapply keeps_bind; [apply keeps_deepcopy_grid, fresh_no_memo|].
  intros [g' mm] [Hg' _]. by apply keeps_ret.
Qed.

Lemma keeps_deepcopy_rubix (rubix : Rubix2D) :
  keeps s0 (deepcopy_rubix rubix) (fresh_rubix s0).
Proof.
  unfold deepcopy_rubix.
  eapply keeps_bind; [apply keeps_deepcopy_grid, fresh_no_memo|].
  intros [t mm1] [Ht Hmm1].
  eapply keeps_bind; [by apply keeps_deepcopy_grid|]. intros [b mm2] [Hb Hmm2].
  eapply keeps_bind; [by apply keeps_deepcopy_grid|]. intros [l mm3] [Hl Hmm3].
  eapply keeps_bind; [by apply keeps_deepcopy_grid|]. intros [r mm4] [Hr Hmm4].
  eapply keeps_bind; [by apply keeps_deepcopy_grid|]. intros [f mm5] [Hf Hmm5].
  eapply keeps_bind; [by apply keeps_deepcopy_grid|]. intros [k mm6] [Hk Hmm6].
  by apply keeps_ret.
Qed.

(** *** The search *)

Lemma keeps_expand (moves steps : list Z) (rubix : Rubix2D) (queue : list node) :
  fresh_queue s0 queue →
  keeps s0 (expand moves steps rubix queue)
    (λ r, match r with inl _ => True | inr queue' => fresh_queue s0 queue' end).
Proof.
  revert queue. induction moves as [|move moves IH]; intros queue Hq; simpl.
  - by apply keeps_ret.
  - eapply keeps_bind; [apply keeps_deepcopy_rubix|]. intros r1 Hr1.
    eapply keeps_bind; [by apply keeps_rotate_side|]. intros r2 Hr2.
    eapply keeps_bind; [apply keeps_is_solved|]. intros [] _.
    + by apply keeps_ret.
    + apply IH. apply Forall_app. split; [done|]. by constructor.
Qed.

Lemma keeps_search (fuel : nat) (queue : list node) :
  fresh_queue s0 queue → keeps s0 (search fuel queue) (λ _, True).
Proof.
  revert queue. induction fuel as [|fuel IH]; intros queue Hq; cbn [search].
  - by apply keeps_ret.
  - destruct queue as [|[steps rubix] queue]; [apply keeps_lift|].
    apply Forall_cons in Hq as [_ Hq].
    eapply keeps_bind; [by apply keeps_expand|].
    intros [new_steps | queue'] Hq'; [by apply keeps_ret | by apply IH].
Qed.

Lemma keeps_breath_first_search (fuel : nat)
    (top front left right back bottom : ref) :
  keeps s0 (breath_first_search fuel top front left right back bottom)
    (λ _, True).
Proof.
  unfold breath_first_search.
  eapply keeps_bind; [apply keeps_Rubix2D_new|]. intros rubix Hrubix.
  do 6 (eapply keeps_bind; [apply keeps_deepcopy|]; intros ? ?).
  eapply keeps_bind; [apply keeps_is_solved|]. intros [] _.
  - by apply keeps_ret.
  - apply keeps_search. constructor; [|done]. simpl.
    unfold fresh_rubix in *. simpl. tauto.
Qed.

End solver_frame.

Section solver.
Import rubix_store.

Lemma framed_refl (s : store) : framed s s.
Proof.
  split; [by split|]. intros g rs Hg Hrs.
  apply lookup_lt_Some in Hrs. unfold fresh_grid in Hg. lia.
Qed.

(** A snapshot reads the store and leaves it as it is. *)
Lemma comprehension_load_row_reads (s : store) (rs : list ref) :
  comprehension_m load_row rs s
  = (s, from_option Ok (Raise InvalidReference) (mapM (rows s !!.) rs)).
Proof.
  induction rs as [|r rs IH]; [done|].
  cbn [comprehension_m mapM]. unfold mbind at 1, M_bind at 1, load_row at 1.
  destruct (rows s !! r) as [cells|]; [|done]. cbn.
  unfold mbind at 1, M_bind at 1. rewrite IH.
  by destruct (mapM (rows s !!.) rs).
Qed.

Lemma snapshot_reads (s : store) (g : ref) :
  snapshot g s
  = (s, from_option Ok (Raise InvalidReference)
          (grids s !! g ≫= mapM (rows s !!.))).
Proof.
  unfold snapshot, mbind at 1, M_bind at 1, load_grid.
  destruct (grids s !! g) as [rs|]; [|done]. cbn.
  apply comprehension_load_row_reads.
Qed.

(** What a snapshot reads is still read the same once objects are added. *)
Lemma snapshot_prefix (s s' : store) (g : ref) (v : rubix_2d.grid) :
  untouched s s' →
  (snapshot g s).2 = Ok v →
  (snapshot g s').2 = Ok v.
Proof.
  intros [Hrows Hgrids]. rewrite !snapshot_reads. cbn [snd].
  destruct (grids s !! g) as [rs|] eqn:E; [|discriminate].
  assert (grids s' !! g = Some rs) as ->
    by (by eapply prefix_lookup_Some).
  cbn.
  destruct (mapM (rows s !!.) rs) as [w|] eqn:Hw; [|discriminate].
  intros [= <-].
  assert (mapM (rows s' !!.) rs = Some w) as ->; [|done].
  apply mapM_Some in Hw. apply mapM_Some.
  eapply Forall2_impl; [exact Hw|].
  intros r cells Hr. exact (prefix_lookup_Some _ _ _ _ Hr Hrows).
Qed.

End solver.

(** * The facelet values are what the store holds

    Run on a store that represents a facelet state, without shared rows,
    the methods of [rubix_store] do to the store what those of [rubix_2d]
    do to the state. *)
Section refinement.
Import rubix_store.

Lemma run_bind {A B} (m : M A) (f : A → M B) (s s' : store) (a : A) :
  m s = (s', Ok a) → (m ≫= f) s = f a s'.
Proof. intros H. unfold mbind, M_bind. by rewrite H. Qed.

Lemma value_of_with_value (F : face) (g : rubix_2d.grid) (v : rubix_2d.Rubix2D) :
  value_of F (with_value F g v) = g.
Proof. by destruct F. Qed.

Lemma value_of_with_value_ne (F F' : face) (g : rubix_2d.grid)
    (v : rubix_2d.Rubix2D) :
  F ≠ F' → value_of F' (with_value F g v) = value_of F' v.
Proof. by destruct F, F'. Qed.

Lemma grid_of_with_grid (F : face) (g : ref) (self : Rubix2D) :
  grid_of F (with_grid F g self) = g.
Proof. by destruct F. Qed.

Lemma grid_of_with_grid_ne (F F' : face) (g : ref) (self : Rubix2D) :
  F ≠ F' → grid_of F' (with_grid F g self) = grid_of F' self.
Proof. by destruct F, F'. Qed.

(** No row is met twice in a grid, nor in two grids. *)
Lemma separate_rows (G : face → list ref) :
  NoDup (faces ≫= G)
  ↔ (∀ F, NoDup (G F)) ∧ (∀ F F' r, F ≠ F' → r ∈ G F → r ∉ G F').
Proof.
  cbn. rewrite app_nil_r, !NoDup_app. split.
  - intros (Ht & Hdt & Hb & Hdb & Hl & Hdl & Hr & Hdr & Hf & Hdf & Hk).
    split; [by intros []|].
    intros F F' r Hne HF HF'.
    specialize (Hdt r). specialize (Hdb r). specialize (Hdl r).
    specialize (Hdr r). specialize (Hdf r).
    repeat setoid_rewrite elem_of_app in Hdt.
    repeat setoid_rewrite elem_of_app in Hdb.
    repeat setoid_rewrite elem_of_app in Hdl.
    repeat setoid_rewrite elem_of_app in Hdr.
    destruct F, F'; try done; tauto.
  - intros [Hn Hd].
    repeat split; try apply Hn; intros x Hx Hor;
      repeat (apply elem_of_app in Hor as [Hor|Hor]);
      by eapply Hd; [|exact Hx|exact Hor].
Qed.

Lemma separate_grids (self : Rubix2D) :
  NoDup ((λ F, grid_of F self) <$> faces)
  ↔ ∀ F F', F ≠ F' → grid_of F self ≠ grid_of F' self.
Proof.
  cbn. split.
  - rewrite !NoDup_cons, !not_elem_of_cons. intros H F F' Hne.
    destruct F, F'; try done; cbn; intuition congruence.
  - intros H.
    repeat (apply NoDup_cons; split); [..|apply NoDup_nil_2];
      rewrite ?not_elem_of_cons; repeat split;
      try apply not_elem_of_nil.
    all: change (top self) with (grid_of Top self);
      change (bottom self) with (grid_of Bottom self);
      change (left self) with (grid_of Left self);
      change (right self) with (grid_of Right self);
      change (front self) with (grid_of Front self);
      change (back self) with (grid_of Back self);
      by apply H.
Qed.

Lemma snapshot_holds (s : store) (g : ref) (rs : list ref) (v : rubix_2d.grid) :
  grids s !! g = Some rs → holds s rs v → snapshot g s = (s, Ok v).
Proof.
  intros Hg Hv. rewrite snapshot_reads, Hg. cbn.
  by rewrite (mapM_Some_2 _ _ _ Hv).
Qed.

Lemma snapshot_represents (s : store) (self : Rubix2D) (v : rubix_2d.Rubix2D)
    (F : face) :
  represents s self v → snapshot (grid_of F self) s = (s, Ok (value_of F v)).
Proof. intros (G & HG & Hv & _). by eapply snapshot_holds. Qed.

Lemma view_represents (s : store) (self : Rubix2D) (v : rubix_2d.Rubix2D) :
  represents s self v → view self s = (s, Ok v).
Proof.
  intros H. unfold view.
  rewrite (run_bind _ _ _ _ _ (snapshot_represents s self v Top H)).
  rewrite (run_bind _ _ _ _ _ (snapshot_represents s self v Bottom H)).
  rewrite (run_bind _ _ _ _ _ (snapshot_represents s self v Left H)).
  rewrite (run_bind _ _ _ _ _ (snapshot_represents s self v Right H)).
  rewrite (run_bind _ _ _ _ _ (snapshot_represents s self v Front H)).
  rewrite (run_bind _ _ _ _ _ (snapshot_represents s self v Back H)).
  by destruct v.
Qed.

Lemma py_get_Ok {A} (l : list A) (i : Z) (v : A) :
  py_get l i = Ok v → ∃ k, py_index (length l) i = Some k ∧ l !! k = Some v.
Proof.
  unfold py_get. destruct (py_index (length l) i) as [k|]; [|discriminate].
  cbn. destruct (l !! k) eqn:E; [|discriminate]. intros [= <-]. eauto.
Qed.

Lemma py_get_lookup {A} (l : list A) (i : Z) (k : nat) (v : A) :
  py_index (length l) i = Some k → l !! k = Some v → py_get l i = Ok v.
Proof. intros Hk Hv. unfold py_get. rewrite Hk. cbn. by rewrite Hv. Qed.

Lemma py_set_Ok {A} (l l' : list A) (i : Z) (v : A) :
  py_set l i v = Ok l' →
  ∃ k, py_index (length l) i = Some k ∧ l' = <[k:=v]> l.
Proof.
  unfold py_set. destruct (py_index (length l) i) as [k|]; [|discriminate].
  intros [= <-]. eauto.
Qed.

Lemma set2_Ok (g g' : rubix_2d.grid) (i j : Z) (c : string) :
  rubix_2d.set2 g i j c = Ok g' →
  ∃ k k' row,
    py_index (length g) i = Some k ∧ g !! k = Some row
    ∧ py_index (length row) j = Some k' ∧ g' = <[k:=<[k':=c]> row]> g.
Proof.
  unfold rubix_2d.set2.
  destruct (py_get g i) as [row|] eqn:Hrow; [|discriminate]. cbn.
  destruct (py_set row j c) as [row'|] eqn:Hrow'; [|discriminate]. cbn.
  intros Hg'.
  apply py_get_Ok in Hrow as (k & Hk & Hrow).
  apply py_set_Ok in Hrow' as (k' & Hk' & ->).
  apply py_set_Ok in Hg' as (k1 & Hk1 & ->).
  assert (k1 = k) as -> by congruence. eauto 10.
Qed.

Lemma grid_item_run (s : store) (g : ref) (rs : list ref) (i : Z) (k : nat)
    (r : ref) :
  grids s !! g = Some rs → py_index (length rs) i = Some k → rs !! k = Some r →
  grid_item g i s = (s, Ok r).
Proof.
  intros Hg Hk Hr. unfold grid_item.
  rewrite (run_bind _ _ s s rs); [|by unfold load_grid; rewrite Hg].
  unfold lift. by rewrite (py_get_lookup _ _ k r).
Qed.

(** [g[i][j] = c] on the grid of a face changes that cell of that face,
    and nothing else. *)
Lemma set_cell_represents (s : store) (self : Rubix2D) (v : rubix_2d.Rubix2D)
    (F : face) (i j : Z) (c : string) (g' : rubix_2d.grid) :
  represents s self v →
  rubix_2d.set2 (value_of F v) i j c = Ok g' →
  ∃ s', set_cell (grid_of F self) i j c s = (s', Ok ())
        ∧ represents s' self (with_value F g' v).
Proof.
  intros (G & HG & Hv & Hgrids & Hrows) Hset.
  destruct (proj1 (separate_rows G) Hrows) as [Hnodup Hdisj].
  apply set2_Ok in Hset as (k & k' & row & Hk & Hrow & Hk' & ->).
  destruct (Forall2_lookup_r _ _ _ _ _ (Hv F) Hrow) as (r & Hr & Hrrow).
  pose proof (Forall2_length _ _ _ (Hv F)) as Hlen.
  exists (mkStore (<[r:=<[k':=c]> row]> (rows s)) (grids s)). split.
  - unfold set_cell.
    rewrite (run_bind _ _ s s r);
      [|by apply (grid_item_run s _ (G F) i k); [|rewrite Hlen|]].
    rewrite (run_bind _ _ s s row); [|by unfold load_row; rewrite Hrrow].
    rewrite (run_bind _ _ s s (<[k':=c]> row));
      [|by unfold lift, py_set; rewrite Hk'].
    unfold store_row. apply lookup_lt_Some in Hrrow. by destruct (decide _).
  - exists G. split; [done|]. split; [|done]. intros F'.
    apply Forall2_same_length_lookup.
    destruct (decide (F = F')) as [<-|Hne].
    + rewrite value_of_with_value. split; [by rewrite length_insert|].
      intros i' x y Hx Hy. cbn [rows].
      destruct (decide (i' = k)) as [->|Hik].
      * assert (x = r) as -> by congruence.
        rewrite list_lookup_insert_eq in Hy by by eapply lookup_lt_Some.
        injection Hy as <-.
        apply list_lookup_insert_eq. by eapply lookup_lt_Some.
      * rewrite list_lookup_insert_ne in Hy by done.
        rewrite list_lookup_insert_ne.
        -- exact (Forall2_lookup_lr _ _ _ _ _ _ (Hv F) Hx Hy).
        -- intros <-. apply Hik. by eapply (NoDup_lookup (G F)).
    + rewrite value_of_with_value_ne by done.
      split; [exact (Forall2_length _ _ _ (Hv F'))|].
      intros i' x y Hx Hy. cbn [rows].
      rewrite list_lookup_insert_ne.
      * exact (Forall2_lookup_lr _ _ _ _ _ _ (Hv F') Hx Hy).
      * intros <-. apply (Hdisj F F' r Hne).
        -- by eapply list_elem_of_lookup_2.
        -- by eapply list_elem_of_lookup_2.
Qed.

Lemma new_rows_run (cellss : list (list string)) (s : store) :
  comprehension_m new_row cellss s
  = (mkStore (rows s ++ cellss) (grids s),
     Ok (seq (length (rows s)) (length cellss))).
Proof.
  revert s. induction cellss as [|cells cellss IH]; intros s.
  - cbn. rewrite app_nil_r. by destruct s.
  - cbn [comprehension_m].
    rewrite (run_bind _ _ s (mkStore (rows s ++ [cells]) (grids s))
               (length (rows s))) by done.
    rewrite (run_bind _ _ _ _ _ (IH _)). cbn.
    rewrite length_app, <- app_assoc. cbn.
    by replace (length (rows s) + 1)%nat with (S (length (rows s))) by lia.
Qed.

Lemma holds_lt (s : store) (rs : list ref) (g : rubix_2d.grid) (r : ref) :
  holds s rs g → r ∈ rs → (r < length (rows s))%nat.
Proof.
  intros Hg [i Hi]%list_elem_of_lookup_1.
  destruct (Forall2_lookup_l _ _ _ _ _ Hg Hi) as (cells & _ & Hcells).
  by eapply lookup_lt_Some.
Qed.

Lemma holds_app (s : store) (rs : list ref) (g : rubix_2d.grid)
    (new : list (list string)) (gs : list (list ref)) :
  holds s rs g → holds (mkStore (rows s ++ new) gs) rs g.
Proof.
  intros Hg. eapply Forall2_impl; [exact Hg|].
  intros r cells Hr. cbn. by apply lookup_app_l_Some.
Qed.

Lemma new_face_run (s : store) (new : rubix_2d.grid) :
  (rs ← comprehension_m new_row new; new_grid rs) s
  = (with_new_face s new, Ok (length (grids s))).
Proof. by rewrite (run_bind _ _ _ _ _ (new_rows_run new s)). Qed.

(** A new grid of new rows, put in place of the grid of a face, gives
    that face the colours of the new rows, and changes nothing else. *)
Lemma new_face_represents (s : store) (self : Rubix2D)
    (v : rubix_2d.Rubix2D) (F : face) (new : rubix_2d.grid) :
  represents s self v →
  represents (with_new_face s new) (with_grid F (length (grids s)) self)
    (with_value F new v).
Proof.
  intros (G & HG & Hv & Hgrids & Hrows).
  destruct (proj1 (separate_rows G) Hrows) as [Hnodup Hdisj].
  set (rs := seq (length (rows s)) (length new)).
  exists (λ F', if decide (F' = F) then rs else G F').
  split; [|split; [|split]].
  - intros F'. cbn [grids with_new_face].
    destruct (decide (F' = F)) as [->|Hne].
    + rewrite grid_of_with_grid. rewrite lookup_app_r by done.
      by rewrite Nat.sub_diag.
    + rewrite grid_of_with_grid_ne by done.
      by apply lookup_app_l_Some.
  - intros F'. destruct (decide (F' = F)) as [->|Hne].
    + rewrite value_of_with_value.
      apply Forall2_same_length_lookup. split; [by apply length_seq|].
      intros i r cells [-> Hi]%lookup_seq Hcells. cbn.
      rewrite lookup_app_r by lia.
      by replace (length (rows s) + i - length (rows s))%nat with i by lia.
    + rewrite value_of_with_value_ne by done. by apply holds_app.
  - assert (Hlt : ∀ F', (grid_of F' self < length (grids s))%nat)
      by (intros F'; by eapply lookup_lt_Some).
    apply separate_grids. intros F1 F2 Hne.
    destruct (decide (F1 = F)) as [->|H1], (decide (F2 = F)) as [->|H2];
      try done.
    + rewrite grid_of_with_grid, grid_of_with_grid_ne by done.
      specialize (Hlt F2). lia.
    + rewrite grid_of_with_grid, grid_of_with_grid_ne by done.
      specialize (Hlt F1). lia.
    + rewrite !grid_of_with_grid_ne by done.
      by apply (proj1 (separate_grids self) Hgrids).
  - apply separate_rows. split.
    + intros F'. destruct (decide (F' = F)); [apply NoDup_seq | apply Hnodup].
    + intros F1 F2 r Hne.
      destruct (decide (F1 = F)) as [->|H1], (decide (F2 = F)) as [->|H2];
        try done.
      * intros [Hr _]%elem_of_seq Hr2.
        pose proof (holds_lt _ _ _ _ (Hv F2) Hr2). lia.
      * intros Hr1 [Hr _]%elem_of_seq.
        pose proof (holds_lt _ _ _ _ (Hv F1) Hr1). lia.
      * by apply Hdisj.
Qed.

(** Replacing the grid of a face by its [rotate_arr] replaces the value
    of that face, and nothing else. *)
Lemma rotate_arr_represents (s : store) (self : Rubix2D)
    (v : rubix_2d.Rubix2D) (F : face) (iters : Z) :
  represents s self v →
  ∃ s' g, rotate_arr (grid_of F self) iters s = (s', Ok g)
    ∧ represents s' (with_grid F g self)
        (with_value F (rubix_2d.rotate_arr (value_of F v) iters) v).
Proof.
  intros Hrep. eexists _, _. split.
  - unfold rotate_arr.
    rewrite (run_bind _ _ _ _ _ (snapshot_represents s self v F Hrep)).
    apply new_face_run.
  - by apply new_face_represents.
Qed.

Ltac for_faces tac := tac Top; tac Bottom; tac Left; tac Right; tac Front; tac Back.

(** From [Hsep], which tells the grids of two faces apart, the thirty
    disequalities between the six grid references. *)
Ltac pose_grid_disequalities Hsep :=
  for_faces ltac:(fun F => for_faces ltac:(fun F' =>
    try (let H := fresh "Hne" in
         pose proof (Hsep F F' ltac:(discriminate)) as H;
         cbn [grid_of] in H))).

Lemma grid_set_item_run (s : store) (g : ref) (rs : list ref) (i : Z)
    (k : nat) (r : ref) :
  grids s !! g = Some rs → py_index (length rs) i = Some k →
  grid_set_item g i r s
  = (mkStore (rows s) (<[g:=<[k:=r]> rs]> (grids s)), Ok ()).
Proof.
  intros Hg Hk. unfold grid_set_item.
  rewrite (run_bind _ _ s s rs); [|by unfold load_grid; rewrite Hg].
  rewrite (run_bind _ _ s s (<[k:=r]> rs)); [|by unfold lift, py_set; rewrite Hk].
  unfold store_grid. apply lookup_lt_Some in Hg. by destruct (decide _).
Qed.

Lemma insert_Permutation {A} (l : list A) (k : nat) (x y : A) :
  l !! k = Some y → <[k:=x]> l ≡ₚ x :: delete k l.
Proof.
  intros Hk. rewrite insert_take_drop by by eapply lookup_lt_Some.
  rewrite delete_take_drop. by rewrite Permutation_middle.
Qed.

(** A pass of [rotate_x] moves four row objects from grid to grid; the
    values of the four faces change as the rows of the state do. *)
Lemma rotate_x_step_represents (s : store) (self : Rubix2D)
    (v v' : rubix_2d.Rubix2D) (y : Z) :
  represents s self v →
  rubix_2d.rotate_x_step y v = Ok v' →
  ∃ s', rotate_x_step y self s = (s', Ok self) ∧ represents s' self v'.
Proof.
  intros (G & HG & Hv & Hgrids & Hrows). unfold rubix_2d.rotate_x_step.
  destruct (py_get (rubix_2d.left v) y) as [l|] eqn:Hl; [|discriminate].
  destruct (py_get (rubix_2d.front v) y) as [f|] eqn:Hf; [|discriminate].
  destruct (py_get (rubix_2d.right v) y) as [r|] eqn:Hr; [|discriminate].
  destruct (py_get (rubix_2d.back v) y) as [b|] eqn:Hb; [|discriminate].
  cbn.
  apply py_get_Ok in Hl as (kl & Hkl & Hl), Hf as (kf & Hkf & Hf),
    Hr as (kr & Hkr & Hr), Hb as (kb & Hkb & Hb).
  unfold py_set. rewrite Hkf, Hkr, Hkb, Hkl. cbn. intros [= <-].
  destruct (Forall2_lookup_r _ _ _ _ _ (Hv Left) Hl) as (lr & Hlr & Hlrow).
  destruct (Forall2_lookup_r _ _ _ _ _ (Hv Front) Hf) as (fr & Hfr & Hfrow).
  destruct (Forall2_lookup_r _ _ _ _ _ (Hv Right) Hr) as (rr & Hrr & Hrrow).
  destruct (Forall2_lookup_r _ _ _ _ _ (Hv Back) Hb) as (br & Hbr & Hbrow).
  pose proof (Forall2_length _ _ _ (Hv Left)) as Hlenl.
  pose proof (Forall2_length _ _ _ (Hv Front)) as Hlenf.
  pose proof (Forall2_length _ _ _ (Hv Right)) as Hlenr.
  pose proof (Forall2_length _ _ _ (Hv Back)) as Hlenb.
  cbn in Hlenl, Hlenf, Hlenr, Hlenb.
  rewrite <- Hlenl in Hkl. rewrite <- Hlenf in Hkf.
  rewrite <- Hlenr in Hkr. rewrite <- Hlenb in Hkb.
  pose proof (proj1 (separate_grids self) Hgrids) as Hsep.
  eexists. split.
  - unfold rotate_x_step. pose_grid_disequalities Hsep.
    rewrite (run_bind _ _ _ _ _ (grid_item_run s _ _ y kl lr (HG Left) Hkl Hlr)).
    rewrite (run_bind _ _ _ _ _ (grid_item_run s _ _ y kf fr (HG Front) Hkf Hfr)).
    rewrite (run_bind _ _ _ _ _ (grid_item_run s _ _ y kr rr (HG Right) Hkr Hrr)).
    rewrite (run_bind _ _ _ _ _ (grid_item_run s _ _ y kb br (HG Back) Hkb Hbr)).
    rewrite (run_bind _ _ _ _ _
               (grid_set_item_run s _ _ y kf lr (HG Front) Hkf)).
    erewrite run_bind;
      [|apply (grid_set_item_run _ _ (G Right) y kr); [|done]; cbn [grids];
        rewrite list_lookup_insert_ne by assumption; apply (HG Right)].
    erewrite run_bind;
      [|apply (grid_set_item_run _ _ (G Back) y kb); [|done]; cbn [grids];
        rewrite !list_lookup_insert_ne by assumption; apply (HG Back)].
    erewrite run_bind;
      [|apply (grid_set_item_run _ _ (G Left) y kl); [|done]; cbn [grids];
        rewrite !list_lookup_insert_ne by assumption; apply (HG Left)].
    cbn [rows grids]. reflexivity.
  - exists (λ F, match F with
                 | Front => <[kf:=lr]> (G Front)
                 | Right => <[kr:=fr]> (G Right)
                 | Back => <[kb:=rr]> (G Back)
                 | Left => <[kl:=br]> (G Left)
                 | _ => G F
                 end).
    pose proof (λ F, lookup_lt_Some _ _ _ (HG F)) as Hlt.
    split; [|split; [|split]].
    + pose_grid_disequalities Hsep.
      intros []; cbn [grids grid_of];
        repeat first
          [ rewrite list_lookup_insert_ne by assumption
          | rewrite list_lookup_insert_eq
              by (rewrite ?length_insert; first
                    [ apply (Hlt Front) | apply (Hlt Right)
                    | apply (Hlt Back) | apply (Hlt Left) ]) ];
        first [ done | apply (HG Top) | apply (HG Bottom) ].
    + intros []; cbn -[holds]; try apply (Hv Top); try apply (Hv Bottom);
        by apply Forall2_insert;
          [first [ apply (Hv Left) | apply (Hv Right) | apply (Hv Front)
                 | apply (Hv Back) ]|].
    + done.
    + cbn. cbn in Hrows.
      rewrite (insert_Permutation _ _ _ _ Hlr), (insert_Permutation _ _ _ _ Hfr),
        (insert_Permutation _ _ _ _ Hrr), (insert_Permutation _ _ _ _ Hbr).
      rewrite (delete_Permutation _ _ _ Hlr) in Hrows at 1.
      rewrite (delete_Permutation _ _ _ Hfr) in Hrows at 1.
      rewrite (delete_Permutation _ _ _ Hrr) in Hrows at 1.
      rewrite (delete_Permutation _ _ _ Hbr) in Hrows at 1.
      lazymatch goal with
      | |- NoDup ?X =>
          lazymatch type of Hrows with
          | NoDup ?Y => assert (X ≡ₚ Y) as -> by solve_Permutation
          end
      end.
      exact Hrows.
Qed.

(** Loops whose bodies correspond, correspond. *)
Lemma for_each_represents {I} (xs : list I)
    (body_s : I → Rubix2D → M Rubix2D)
    (body_v : I → rubix_2d.Rubix2D → result rubix_2d.Rubix2D)
    (self : Rubix2D) :
  (∀ x s v v', represents s self v → body_v x v = Ok v' →
     ∃ s', body_s x self s = (s', Ok self) ∧ represents s' self v') →
  ∀ s v v', represents s self v → for_each xs body_v v = Ok v' →
    ∃ s', for_each_m xs body_s self s = (s', Ok self) ∧ represents s' self v'.
Proof.
  intros Hbody. induction xs as [|x xs IH]; intros s v v' Hrep; cbn.
  - intros [= <-]. by exists s.
  - destruct (body_v x v) as [v1|] eqn:Hv1; [|discriminate]. cbn. intros Hv'.
    destruct (Hbody x s v v1 Hrep Hv1) as (s1 & Hrun1 & Hrep1).
    destruct (IH s1 v1 v' Hrep1 Hv') as (s2 & Hrun2 & Hrep2).
    exists s2. by rewrite (run_bind _ _ _ _ _ Hrun1).
Qed.

(** The body of a loop of [rotate_y] or [rotate_z]: two cells are read
    from the copies and written to two faces. *)
Lemma two_cells_represent (s : store) (self : Rubix2D)
    (v v' : rubix_2d.Rubix2D) (F1 F2 : face)
    (src1 src2 : rubix_2d.grid) (a1 b1 i1 j1 a2 b2 i2 j2 : Z) :
  represents s self v →
  (c ← rubix_2d.get2 src1 a1 b1;
   g ← rubix_2d.set2 (value_of F1 v) i1 j1 c;
   let v := with_value F1 g v in
   c ← rubix_2d.get2 src2 a2 b2;
   g ← rubix_2d.set2 (value_of F2 v) i2 j2 c;
   mret (with_value F2 g v)) = Ok v' →
  ∃ s',
    (c ← lift (rubix_2d.get2 src1 a1 b1);
     _ ← set_cell (grid_of F1 self) i1 j1 c;
     c ← lift (rubix_2d.get2 src2 a2 b2);
     _ ← set_cell (grid_of F2 self) i2 j2 c;
     mret self) s = (s', Ok self)
    ∧ represents s' self v'.
Proof.
  intros Hrep.
  destruct (rubix_2d.get2 src1 a1 b1) as [c1|] eqn:Hc1; [|discriminate]. cbn.
  destruct (rubix_2d.set2 (value_of F1 v) i1 j1 c1) as [g1|] eqn:Hg1;
    [|discriminate]. cbn.
  destruct (rubix_2d.get2 src2 a2 b2) as [c2|] eqn:Hc2; [|discriminate]. cbn.
  destruct (rubix_2d.set2 (value_of F2 (with_value F1 g1 v)) i2 j2 c2)
    as [g2|] eqn:Hg2; [|discriminate]. cbn.
  intros [= <-].
  destruct (set_cell_represents s self v F1 i1 j1 c1 g1 Hrep Hg1)
    as (s1 & Hrun1 & Hrep1).
  destruct (set_cell_represents s1 self _ F2 i2 j2 c2 g2 Hrep1 Hg2)
    as (s2 & Hrun2 & Hrep2).
  exists s2. split; [|done].
  rewrite (run_bind _ _ s s c1) by done.
  rewrite (run_bind _ _ _ _ _ Hrun1).
  rewrite (run_bind _ _ s1 s1 c2) by done.
  by rewrite (run_bind _ _ _ _ _ Hrun2).
Qed.

Lemma rotate_y_step_represents (s : store) (self : Rubix2D)
    (v v' : rubix_2d.Rubix2D) (x : Z) :
  represents s self v →
  rubix_2d.rotate_y_step x v = Ok v' →
  ∃ s', rotate_y_step x self s = (s', Ok self) ∧ represents s' self v'.
Proof.
  intros Hrep. unfold rubix_2d.rotate_y_step, rotate_y_step.
  rewrite (run_bind _ _ _ _ _ (snapshot_represents s self v Front Hrep)).
  rewrite (run_bind _ _ _ _ _ (snapshot_represents s self v Top Hrep)).
  rewrite (run_bind _ _ _ _ _ (snapshot_represents s self v Back Hrep)).
  rewrite (run_bind _ _ _ _ _ (snapshot_represents s self v Bottom Hrep)).
  destruct (rubix_2d.INVERSE_get x) as [inv_x|]; [|discriminate]. cbn [mbind result_bind].
  rewrite (run_bind _ _ s s inv_x) by done.
  match goal with
  | |- (for_each ?xs ?body v ≫= _) = _ → _ =>
      destruct (for_each xs body v) as [v1|] eqn:Hloop; [|discriminate]
  end.
  cbn [mbind result_bind]. intros Hloop2.
  eapply for_each_represents in Hloop as (s1 & Hrun1 & Hrep1); [|idtac|exact Hrep].
  - eapply for_each_represents in Hloop2 as (s2 & Hrun2 & Hrep2);
      [|idtac|exact Hrep1].
    + exists s2. split; [|exact Hrep2].
      erewrite run_bind; [exact Hrun2|exact Hrun1].
    + intros [index_1 index_2] s' w w' Hw.
      apply (two_cells_represent s' self w w' Top Back).
      exact Hw.
  - intros index s' w w' Hw.
    apply (two_cells_represent s' self w w' Front Bottom). exact Hw.
Qed.

Lemma rotate_z_step_represents (s : store) (self : Rubix2D)
    (v v' : rubix_2d.Rubix2D) (z : Z) :
  represents s self v →
  rubix_2d.rotate_z_step z v = Ok v' →
  ∃ s', rotate_z_step z self s = (s', Ok self) ∧ represents s' self v'.
Proof.
  intros Hrep. unfold rubix_2d.rotate_z_step, rotate_z_step.
  rewrite (run_bind _ _ _ _ _ (snapshot_represents s self v Left Hrep)).
  rewrite (run_bind _ _ _ _ _ (snapshot_represents s self v Top Hrep)).
  rewrite (run_bind _ _ _ _ _ (snapshot_represents s self v Right Hrep)).
  rewrite (run_bind _ _ _ _ _ (snapshot_represents s self v Bottom Hrep)).
  destruct (rubix_2d.INVERSE_get z) as [inv_z|]; [|discriminate]. cbn [mbind result_bind].
  rewrite (run_bind _ _ s s inv_z) by done.
  match goal with
  | |- (for_each ?xs ?body v ≫= _) = _ → _ =>
      destruct (for_each xs body v) as [v1|] eqn:Hloop; [|discriminate]
  end.
  cbn [mbind result_bind]. intros Hloop2.
  eapply for_each_represents in Hloop as (s1 & Hrun1 & Hrep1); [|idtac|exact Hrep].
  - eapply for_each_represents in Hloop2 as (s2 & Hrun2 & Hrep2);
      [|idtac|exact Hrep1].
    + exists s2. split; [|exact Hrep2].
      erewrite run_bind; [exact Hrun2|exact Hrun1].
    + intros index s' w w' Hw.
      apply (two_cells_represent s' self w w' Right Left). exact Hw.
  - intros [index_1 index_2] s' w w' Hw.
    apply (two_cells_represent s' self w w' Top Bottom). exact Hw.
Qed.

(** The closing lines of a turn. *)
Lemma replace_face_represents (b : bool) (F : face) (iters : Z) (s : store)
    (self : Rubix2D) (v : rubix_2d.Rubix2D) :
  represents s self v →
  ∃ s' self',
    (if b
     then g ← rotate_arr (grid_of F self) iters; mret (with_grid F g self)
     else mret self) s = (s', Ok self')
    ∧ represents s' self'
        (if b then with_value F (rubix_2d.rotate_arr (value_of F v) iters) v
         else v).
Proof.
  intros Hrep. destruct b; [|by exists s, self].
  destruct (rotate_arr_represents s self v F iters Hrep) as (s' & g & Hrun & H').
  exists s', (with_grid F g self). split; [|done].
  by rewrite (run_bind _ _ _ _ _ Hrun).
Qed.

(** A turn, given the correspondence of its passes and the two faces its
    closing lines may replace. *)
Lemma turn_represents (step_s : Rubix2D → M Rubix2D)
    (step_v : rubix_2d.Rubix2D → result rubix_2d.Rubix2D)
    (F1 F2 : face) (b1 b2 : bool) (n1 n2 iters : Z)
    (s : store) (self : Rubix2D) (v v' : rubix_2d.Rubix2D) :
  (∀ s v v', represents s self v → step_v v = Ok v' →
     ∃ s', step_s self s = (s', Ok self) ∧ represents s' self v') →
  represents s self v →
  (w ← for_each (range iters) (λ _, step_v) v;
   let w :=
     if b1 then with_value F1 (rubix_2d.rotate_arr (value_of F1 w) n1) w
     else w in
   let w :=
     if b2 then with_value F2 (rubix_2d.rotate_arr (value_of F2 w) n2) w
     else w in
   mret w) = Ok v' →
  ∃ s' self',
    (self ← for_each_m (range iters) (λ _, step_s) self;
     self ←
       (if b1
        then g ← rotate_arr (grid_of F1 self) n1; mret (with_grid F1 g self)
        else mret self);
     self ←
       (if b2
        then g ← rotate_arr (grid_of F2 self) n2; mret (with_grid F2 g self)
        else mret self);
     mret self) s = (s', Ok self')
    ∧ represents s' self' v'.
Proof.
  intros Hstep Hrep.
  destruct (for_each (range iters) (λ _, step_v) v) as [w|] eqn:Hloop;
    [|discriminate].
  cbn. intros [= <-].
  eapply for_each_represents in Hloop as (s1 & Hrun1 & Hrep1);
    [|intros ?; apply Hstep|exact Hrep].
  destruct (replace_face_represents b1 F1 n1 s1 self w Hrep1)
    as (s2 & self2 & Hrun2 & Hrep2).
  destruct (replace_face_represents b2 F2 n2 s2 self2 _ Hrep2)
    as (s3 & self3 & Hrun3 & Hrep3).
  exists s3, self3. split; [|done].
  rewrite (run_bind _ _ _ _ _ Hrun1), (run_bind _ _ _ _ _ Hrun2).
  by rewrite (run_bind _ _ _ _ _ Hrun3).
Qed.

Lemma rotate_x_represents (s : store) (self : Rubix2D)
    (v v' : rubix_2d.Rubix2D) (y iters : Z) :
  represents s self v →
  rubix_2d.rotate_x y iters v = Ok v' →
  ∃ s' self', rotate_x y iters self s = (s', Ok self') ∧ represents s' self' v'.
Proof.
  intros Hrep.
  apply (turn_represents (rotate_x_step y) (rubix_2d.rotate_x_step y)
           Top Bottom (y =? 0) (y =? 2) (3 * iters) (1 * iters)); [|done].
  intros. by eapply rotate_x_step_represents.
Qed.

Lemma rotate_y_represents (s : store) (self : Rubix2D)
    (v v' : rubix_2d.Rubix2D) (x iters : Z) :
  represents s self v →
  rubix_2d.rotate_y x iters v = Ok v' →
  ∃ s' self', rotate_y x iters self s = (s', Ok self') ∧ represents s' self' v'.
Proof.
  intros Hrep.
  apply (turn_represents (rotate_y_step x) (rubix_2d.rotate_y_step x)
           Left Right (x =? 0) (x =? 2) (1 * iters) (3 * iters)); [|done].
  intros. by eapply rotate_y_step_represents.
Qed.

Lemma rotate_z_represents (s : store) (self : Rubix2D)
    (v v' : rubix_2d.Rubix2D) (z iters : Z) :
  represents s self v →
  rubix_2d.rotate_z z iters v = Ok v' →
  ∃ s' self', rotate_z z iters self s = (s', Ok self') ∧ represents s' self' v'.
Proof.
  intros Hrep.
  apply (turn_represents (rotate_z_step z) (rubix_2d.rotate_z_step z)
           Back Front (z =? 0) (z =? 2) (3 * iters) (1 * iters)); [|done].
  intros. by eapply rotate_z_step_represents.
Qed.

(** Whatever the move identifier and the shape of the grids: when
    [rotate_side] returns on a state, it returns on a store that
    represents the state, and leaves a store that represents the new
    state. *)
Theorem rotate_side_represents (index : Z) (s : store) (rubix : Rubix2D)
    (v v' : rubix_2d.Rubix2D) :
  represents s rubix v →
  rubix_2d.rotate_side index v = Ok v' →
  ∃ s' rubix',
    rotate_side index rubix s = (s', Ok rubix') ∧ represents s' rubix' v'.
Proof.
  intros Hrep. unfold rubix_2d.rotate_side, rotate_side.
  destruct index as [|p|p];
    [intros [= <-]; by exists s, rubix| |intros [= <-]; by exists s, rubix].
  do 5 (try destruct p as [p|p|]);
    first [ by apply rotate_x_represents | by apply rotate_y_represents
          | by apply rotate_z_represents
          | intros [= <-]; by exists s, rubix ].
Qed.

Lemma is_solved_represents (s : store) (self : Rubix2D) (v : rubix_2d.Rubix2D) :
  represents s self v → is_solved self s = (s, Ok (rubix_2d.is_solved v)).
Proof.
  intros Hrep. unfold is_solved.
  by rewrite (run_bind _ _ _ _ _ (view_represents s self v Hrep)).
Qed.

(** A new instance represents the initial state. *)
Lemma Rubix2D_new_represents :
  ∃ s self, Rubix2D_new empty = (s, Ok self) ∧ represents s self rubix_2d.init.
Proof.
  eexists _, _. split; [vm_compute; reflexivity|].
  exists (λ F, match F with
               | Top => [0; 1; 2] | Bottom => [3; 4; 5] | Left => [6; 7; 8]
               | Right => [9; 10; 11] | Front => [12; 13; 14]
               | Back => [15; 16; 17]
               end%nat).
  split; [by intros []|]. split; [intros []; by repeat constructor|].
  split; apply (bool_decide_unpack _); by vm_compute.
Qed.

(** Every facelet state, whatever the shape of its grids, is represented
    by some store. *)
Lemma every_state_is_represented (v : rubix_2d.Rubix2D) :
  ∃ s self, represents s self v.
Proof.
  destruct Rubix2D_new_represents as (s0 & self0 & _ & H0).
  pose proof (new_face_represents _ _ _ Top (rubix_2d.top v) H0) as H1.
  pose proof (new_face_represents _ _ _ Bottom (rubix_2d.bottom v) H1) as H2.
  pose proof (new_face_represents _ _ _ Left (rubix_2d.left v) H2) as H3.
  pose proof (new_face_represents _ _ _ Right (rubix_2d.right v) H3) as H4.
  pose proof (new_face_represents _ _ _ Front (rubix_2d.front v) H4) as H5.
  pose proof (new_face_represents _ _ _ Back (rubix_2d.back v) H5) as H6.
  eexists _, _. destruct v. exact H6.
Qed.

(** ** Deep copies *)

Lemma untouched_with_new_face (s : store) (new : rubix_2d.grid) :
  untouched s (with_new_face s new).
Proof. split; by apply prefix_app_r. Qed.

Lemma laid_out_untouched (s s' : store) (self : Rubix2D)
    (v : rubix_2d.Rubix2D) (G : face → list ref) :
  untouched s s' → laid_out s self v G → laid_out s' self v G.
Proof.
  intros [Hrows Hgrids] (HG & Hv & Hsep & Hnodup).
  split; [|split; [|done]].
  - intros F. exact (prefix_lookup_Some _ _ _ _ (HG F) Hgrids).
  - intros F. eapply Forall2_impl; [apply Hv|].
    intros r cells Hr. exact (prefix_lookup_Some _ _ _ _ Hr Hrows).
Qed.

(** What a store represents, it still represents once objects are added. *)
Lemma represents_untouched (s s' : store) (self : Rubix2D)
    (v : rubix_2d.Rubix2D) :
  untouched s s' → represents s self v → represents s' self v.
Proof. intros Hs' [G HG]. exists G. by eapply laid_out_untouched. Qed.

(** Rows that are distinct and not yet in the memo are copied one by one
    to new rows. *)
Lemma deepcopy_rows_run (rs : list ref) (cellss : rubix_2d.grid) (mm : memo)
    (s : store) :
  holds s rs cellss →
  NoDup rs →
  (∀ r, r ∈ rs → row_copies mm !! r = None) →
  ∃ mm',
    deepcopy_rows rs mm s
    = (mkStore (rows s ++ cellss) (grids s),
       Ok (seq (length (rows s)) (length cellss), mm'))
    ∧ grid_copies mm' = grid_copies mm
    ∧ ∀ r, is_Some (row_copies mm' !! r) →
           r ∈ rs ∨ is_Some (row_copies mm !! r).
Proof.
  revert cellss mm s.
  induction rs as [|r rs IH]; intros cellss mm s Hholds Hnodup Hmiss.
  - apply Forall2_nil_inv_l in Hholds as ->. exists mm. cbn.
    rewrite app_nil_r. destruct s. split; [done|]. split; [done|]. by right.
  - apply Forall2_cons_inv_l in Hholds as (cells & cellss' & Hr & Hrest & ->).
    apply NoDup_cons in Hnodup as [Hr_fresh Hnodup].
    set (s1 := mkStore (rows s ++ [cells]) (grids s)).
    set (mm1 := mkMemo (<[r:=length (rows s)]> (row_copies mm)) (grid_copies mm)).
    assert (Hrow : deepcopy_row r mm s = (s1, Ok (length (rows s), mm1))).
    { unfold deepcopy_row. rewrite (Hmiss r) by by left.
      rewrite (run_bind _ _ s s cells); [|by unfold load_row; rewrite Hr].
      by rewrite (run_bind _ _ s s1 (length (rows s))). }
    destruct (IH cellss' mm1 s1) as (mm' & Hrun & Hgrids & Hdom).
    + by apply holds_app.
    + done.
    + intros r' Hr'. cbn. rewrite lookup_insert_ne; [apply Hmiss; by right|].
      intros ->. done.
    + exists mm'. split; [|split; [done|]].
      * cbn [deepcopy_rows]. rewrite (run_bind _ _ _ _ _ Hrow).
        rewrite (run_bind _ _ _ _ _ Hrun). cbn.
        rewrite length_app, <- app_assoc. cbn.
        by replace (length (rows s) + 1)%nat with (S (length (rows s))) by lia.
      * intros r' Hr'. destruct (Hdom r' Hr') as [H|H]; [left; by right|].
        cbn in H. destruct (decide (r = r')) as [->|Hne]; [left; by left|].
        rewrite lookup_insert_ne in H by done. by right.
Qed.

Lemma deepcopy_grid_run (g : ref) (rs : list ref) (cellss : rubix_2d.grid)
    (mm : memo) (s : store) :
  grids s !! g = Some rs →
  holds s rs cellss →
  NoDup rs →
  (∀ r, r ∈ rs → row_copies mm !! r = None) →
  grid_copies mm !! g = None →
  ∃ mm',
    deepcopy_grid g mm s = (with_new_face s cellss, Ok (length (grids s), mm'))
    ∧ (∀ r, is_Some (row_copies mm' !! r) →
            r ∈ rs ∨ is_Some (row_copies mm !! r))
    ∧ (∀ g', is_Some (grid_copies mm' !! g') →
             g' = g ∨ is_Some (grid_copies mm !! g')).
Proof.
  intros Hg Hholds Hnodup Hmiss Hgmiss.
  destruct (deepcopy_rows_run rs cellss mm s Hholds Hnodup Hmiss)
    as (mm1 & Hrun & Hgrids & Hdom).
  exists (mkMemo (row_copies mm1) (<[g:=length (grids s)]> (grid_copies mm1))).
  split; [|split; [done|]].
  - unfold deepcopy_grid. rewrite Hgmiss.
    rewrite (run_bind _ _ s s rs); [|by unfold load_grid; rewrite Hg].
    by rewrite (run_bind _ _ _ _ _ Hrun).
  - intros g' Hg'. cbn in Hg'. destruct (decide (g = g')) as [->|Hne]; [by left|].
    rewrite lookup_insert_ne, Hgrids in Hg' by done. by right.
Qed.

(** Copying the grid of face [F] of [self], not copied yet in this call,
    into the instance [cur]. *)
Lemma deepcopy_face (s : store) (self cur : Rubix2D)
    (v w : rubix_2d.Rubix2D) (G : face → list ref) (mm : memo)
    (copied : list face) (F : face) :
  laid_out s self v G →
  represents s cur w →
  (∀ r, is_Some (row_copies mm !! r) → ∃ F', F' ∈ copied ∧ r ∈ G F') →
  (∀ g, is_Some (grid_copies mm !! g) →
        ∃ F', F' ∈ copied ∧ g = grid_of F' self) →
  F ∉ copied →
  let s' := with_new_face s (value_of F v) in
  ∃ mm',
    deepcopy_grid (grid_of F self) mm s = (s', Ok (length (grids s), mm'))
    ∧ laid_out s' self v G
    ∧ represents s' (with_grid F (length (grids s)) cur)
        (with_value F (value_of F v) w)
    ∧ (∀ r, is_Some (row_copies mm' !! r) → ∃ F', F' ∈ F :: copied ∧ r ∈ G F')
    ∧ (∀ g, is_Some (grid_copies mm' !! g) →
            ∃ F', F' ∈ F :: copied ∧ g = grid_of F' self).
Proof.
  intros Hself Hcur Hrows Hgrids HF s'.
  pose proof Hself as (HG & Hv & Hsep & Hnodup).
  destruct (proj1 (separate_rows G) Hnodup) as [Hnd Hdisj].
  destruct (deepcopy_grid_run (grid_of F self) (G F) (value_of F v) mm s)
    as (mm' & Hrun & Hrows' & Hgrids'); [done..| | |].
  - intros r Hr. apply eq_None_not_Some. intros (F' & HF' & Hr')%Hrows.
    apply (Hdisj F' F r); [|done..]. intros ->. done.
  - apply eq_None_not_Some. intros (F' & HF' & Heq)%Hgrids.
    apply (proj1 (separate_grids self) Hsep F F'); [|done]. intros ->. done.
  - exists mm'. split; [done|]. split; [|split; [|split]].
    + eapply laid_out_untouched; [apply untouched_with_new_face|done].
    + by apply new_face_represents.
    + intros r [Hr|Hr]%Hrows'.
      * exists F. split; [by left|done].
      * destruct (Hrows r Hr) as (F' & HF' & Hr'). exists F'.
        split; [by right|done].
    + intros g [->|Hg]%Hgrids'.
      * exists F. split; [by left|done].
      * destruct (Hgrids g Hg) as (F' & HF' & Hg'). exists F'.
        split; [by right|done].
Qed.

Lemma with_value_same (F : face) (v : rubix_2d.Rubix2D) :
  with_value F (value_of F v) v = v.
Proof. by destruct F, v. Qed.

Ltac face_not_copied :=
  rewrite ?not_elem_of_cons; repeat split; first [done | apply not_elem_of_nil].

(** [copy.deepcopy] of an instance without shared rows: the copy
    represents the same state, and so does the original. *)
Lemma deepcopy_rubix_represents (s : store) (self : Rubix2D)
    (v : rubix_2d.Rubix2D) :
  represents s self v →
  ∃ s' copy,
    deepcopy_rubix self s = (s', Ok copy)
    ∧ represents s' copy v ∧ represents s' self v.
Proof.
  intros Hrep. pose proof Hrep as [G HG]. unfold deepcopy_rubix.
  destruct (deepcopy_face s self self v v G no_memo [] Top HG Hrep)
    as (mm1 & Hrun1 & HG1 & Hrep1 & Hrows1 & Hgrids1);
    [by intros ? [? ?] | by intros ? [? ?] | by apply not_elem_of_nil |].
  rewrite (run_bind _ _ _ _ _ Hrun1). rewrite with_value_same in Hrep1.
  destruct (deepcopy_face _ self _ v v G mm1 [Top] Bottom HG1 Hrep1 Hrows1 Hgrids1)
    as (mm2 & Hrun2 & HG2 & Hrep2 & Hrows2 & Hgrids2); [face_not_copied|].
  rewrite (run_bind _ _ _ _ _ Hrun2). rewrite with_value_same in Hrep2.
  destruct (deepcopy_face _ self _ v v G mm2 _ Left HG2 Hrep2 Hrows2 Hgrids2)
    as (mm3 & Hrun3 & HG3 & Hrep3 & Hrows3 & Hgrids3); [face_not_copied|].
  rewrite (run_bind _ _ _ _ _ Hrun3). rewrite with_value_same in Hrep3.
  destruct (deepcopy_face _ self _ v v G mm3 _ Right HG3 Hrep3 Hrows3 Hgrids3)
    as (mm4 & Hrun4 & HG4 & Hrep4 & Hrows4 & Hgrids4); [face_not_copied|].
  rewrite (run_bind _ _ _ _ _ Hrun4). rewrite with_value_same in Hrep4.
  destruct (deepcopy_face _ self _ v v G mm4 _ Front HG4 Hrep4 Hrows4 Hgrids4)
    as (mm5 & Hrun5 & HG5 & Hrep5 & Hrows5 & Hgrids5); [face_not_copied|].
  rewrite (run_bind _ _ _ _ _ Hrun5). rewrite with_value_same in Hrep5.
  destruct (deepcopy_face _ self _ v v G mm5 _ Back HG5 Hrep5 Hrows5 Hgrids5)
    as (mm6 & Hrun6 & HG6 & Hrep6 & Hrows6 & Hgrids6); [face_not_copied|].
  rewrite (run_bind _ _ _ _ _ Hrun6). rewrite with_value_same in Hrep6.
  eexists _, _. split; [reflexivity|]. split; [exact Hrep6|by exists G].
Qed.

(** [copy.deepcopy] of the grid of a face, in a call of its own. *)
Lemma deepcopy_represents (s : store) (self cur : Rubix2D)
    (v w : rubix_2d.Rubix2D) (F F' : face) :
  represents s self v →
  represents s cur w →
  let s' := with_new_face s (value_of F v) in
  deepcopy (grid_of F self) s = (s', Ok (length (grids s)))
  ∧ represents s' self v
  ∧ represents s' (with_grid F' (length (grids s)) cur)
      (with_value F' (value_of F v) w).
Proof.
  intros [G HG] Hcur s'.
  destruct (deepcopy_face s self cur v w G no_memo [] F HG Hcur)
    as (mm1 & Hrun1 & HG1 & _ & _ & _);
    [by intros ? [? ?] | by intros ? [? ?] | by apply not_elem_of_nil |].
  split; [|split].
  - unfold deepcopy. by rewrite (run_bind _ _ _ _ _ Hrun1).
  - by exists G.
  - by apply new_face_represents.
Qed.

(** ** The search *)

Lemma untouched_trans (s1 s2 s3 : store) :
  untouched s1 s2 → untouched s2 s3 → untouched s1 s3.
Proof. intros [? ?] [? ?]. split; by etrans. Qed.

Lemma uniform_grid_run (colour : string) (s : store) :
  uniform_grid colour s
  = (with_new_face s (replicate 3 (replicate 3 colour)), Ok (length (grids s))).
Proof. exact (new_face_run s (replicate 3 (replicate 3 colour))). Qed.

(** [Rubix2D()] in a store that already holds an instance: the new
    instance represents the initial state, and the store is added to. *)
Lemma Rubix2D_new_beside (s : store) (seed : Rubix2D) (w : rubix_2d.Rubix2D) :
  represents s seed w →
  ∃ s' self,
    Rubix2D_new s = (s', Ok self)
    ∧ represents s' self rubix_2d.init ∧ untouched s s'.
Proof.
  intros H0. unfold Rubix2D_new.
  pose proof (new_face_represents _ _ _ Top
                (replicate 3 (replicate 3 "yellow")) H0) as H1.
  pose proof (new_face_represents _ _ _ Bottom
                (replicate 3 (replicate 3 "white")) H1) as H2.
  pose proof (new_face_represents _ _ _ Left
                (replicate 3 (replicate 3 "green")) H2) as H3.
  pose proof (new_face_represents _ _ _ Right
                (replicate 3 (replicate 3 "blue")) H3) as H4.
  pose proof (new_face_represents _ _ _ Front
                (replicate 3 (replicate 3 "red")) H4) as H5.
  pose proof (new_face_represents _ _ _ Back
                (replicate 3 (replicate 3 "orange")) H5) as H6.
  rewrite (run_bind _ _ _ _ _ (uniform_grid_run "yellow" _)).
  rewrite (run_bind _ _ _ _ _ (uniform_grid_run "white" _)).
  rewrite (run_bind _ _ _ _ _ (uniform_grid_run "green" _)).
  rewrite (run_bind _ _ _ _ _ (uniform_grid_run "blue" _)).
  rewrite (run_bind _ _ _ _ _ (uniform_grid_run "red" _)).
  rewrite (run_bind _ _ _ _ _ (uniform_grid_run "orange" _)).
  eexists _, _. split; [reflexivity|]. split; [exact H6|].
  do 5 (eapply untouched_trans; [|apply untouched_with_new_face]).
  apply untouched_with_new_face.
Qed.

(** The loop over the moves returns the first move that solves the state
    of the dequeued node. *)
Lemma expand_first_solving (moves steps : list Z) (rubix : Rubix2D)
    (queue : list node) (s : store) (v : rubix_2d.Rubix2D) (m : Z) :
  represents s rubix v →
  Forall (λ move, ∃ w, rubix_2d.rotate_side move v = Ok w) moves →
  first_solving moves v = Some m →
  (expand moves steps rubix queue s).2 = Ok (inl (steps ++ [m])).
Proof.
  revert queue s. induction moves as [|move moves IH]; intros queue s Hrep Htotal;
    [discriminate|].
  apply Forall_cons in Htotal as [[w Hw] Htotal].
  unfold first_solving. cbn [find]. rewrite Hw. intros Hfirst.
  destruct (deepcopy_rubix_represents s rubix v Hrep)
    as (s1 & copy & Hrun1 & Hcopy & _).
  destruct (keeps_deepcopy_rubix s rubix s (framed_refl s)) as [Hframed1 Hfresh].
  rewrite Hrun1 in Hframed1, Hfresh. cbn [fst snd] in Hframed1, Hfresh.
  specialize (Hfresh copy eq_refl).
  destruct (rotate_side_represents move s1 copy v w Hcopy Hw)
    as (s2 & turned & Hrun2 & Hturned).
  destruct (keeps_rotate_side s move copy Hfresh s1 Hframed1) as [Hframed2 _].
  rewrite Hrun2 in Hframed2. cbn [fst] in Hframed2.
  pose proof (is_solved_represents s2 turned w Hturned) as Hrun3.
  cbn [expand].
  rewrite (run_bind _ _ _ _ _ Hrun1), (run_bind _ _ _ _ _ Hrun2).
  rewrite (run_bind _ _ _ _ _ Hrun3).
  destruct (rubix_2d.is_solved w).
  - by injection Hfirst as <-.
  - apply IH; [|done..].
    eapply represents_untouched; [apply Hframed2|done].
Qed.

Lemma with_value_all (v w : rubix_2d.Rubix2D) :
  with_value Bottom (rubix_2d.bottom v)
    (with_value Back (rubix_2d.back v)
       (with_value Right (rubix_2d.right v)
          (with_value Left (rubix_2d.left v)
             (with_value Front (rubix_2d.front v)
                (with_value Top (rubix_2d.top v) w))))) = v.
Proof. by destruct v. Qed.

(** On a store that represents an unsolved state which one move solves,
    the search returns the first such move, in its first pass. *)
Lemma breath_first_search_first_move (fuel : nat) (s : store)
    (rubix : Rubix2D) (v : rubix_2d.Rubix2D) (m : Z) :
  represents s rubix v →
  rubix_2d.is_solved v = false →
  Forall (λ move, ∃ w, rubix_2d.rotate_side move v = Ok w) (range_from 1 19) →
  first_solving (range_from 1 19) v = Some m →
  (breath_first_search (S fuel) (top rubix) (front rubix) (left rubix)
     (right rubix) (back rubix) (bottom rubix) s).2
  = Ok (Returned [m]).
Proof.
  intros Hrep Hunsolved Htotal Hfirst. unfold breath_first_search.
  destruct (Rubix2D_new_beside s rubix v Hrep) as (s0 & r0 & Hnew & Hr0 & Hun0).
  rewrite (run_bind _ _ _ _ _ Hnew).
  pose proof (represents_untouched _ _ _ _ Hun0 Hrep) as Hrep0.
  destruct (deepcopy_represents _ rubix _ v _ Top Top Hrep0 Hr0)
    as (Hrun1 & Hrep1 & Hcur1).
  rewrite (run_bind _ _ _ _ _ Hrun1).
  destruct (deepcopy_represents _ rubix _ v _ Front Front Hrep1 Hcur1)
    as (Hrun2 & Hrep2 & Hcur2).
  rewrite (run_bind _ _ _ _ _ Hrun2).
  destruct (deepcopy_represents _ rubix _ v _ Left Left Hrep2 Hcur2)
    as (Hrun3 & Hrep3 & Hcur3).
  rewrite (run_bind _ _ _ _ _ Hrun3).
  destruct (deepcopy_represents _ rubix _ v _ Right Right Hrep3 Hcur3)
    as (Hrun4 & Hrep4 & Hcur4).
  rewrite (run_bind _ _ _ _ _ Hrun4).
  destruct (deepcopy_represents _ rubix _ v _ Back Back Hrep4 Hcur4)
    as (Hrun5 & Hrep5 & Hcur5).
  rewrite (run_bind _ _ _ _ _ Hrun5).
  destruct (deepcopy_represents _ rubix _ v _ Bottom Bottom Hrep5 Hcur5)
    as (Hrun6 & Hrep6 & Hcur6).
  rewrite (run_bind _ _ _ _ _ Hrun6).
  cbn [value_of] in Hcur6. rewrite with_value_all in Hcur6.
  rewrite (run_bind _ _ _ _ _ (is_solved_represents _ _ _ Hcur6)).
  rewrite Hunsolved. cbn [search].
  match goal with
  | |- ((expand ?ms ?steps ?r ?q ≫= _) ?s1).2 = _ =>
      pose proof (expand_first_solving ms steps r q s1 v m Hcur6 Htotal Hfirst)
        as Hexpand;
      destruct (expand ms steps r q s1) as [s2 res] eqn:Hrun
  end.
  cbn [snd] in Hexpand. subst res.
  by rewrite (run_bind _ _ _ _ _ Hrun).
Qed.

End refinement.

(** * Supporting lemmas: the search on facelet values

    The search on the store computes what the search on values computes;
    the search on values empties the queue level by level. *)
Section solver_on_values.
Import rubix_store.

Lemma untouched_refl (s : store) : untouched s s.
Proof. by split. Qed.

Lemma node_represents_untouched (s s' : store) n nv :
  untouched s s' → node_represents s n nv → node_represents s' n nv.
Proof. intros Hun [? ?]. split; [done|]. by eapply represents_untouched. Qed.

Lemma expand_on_values (moves steps : list Z) (rubix : Rubix2D)
    (queue : list node) (qv : list rubix_solver.node) (s : store)
    (v : rubix_2d.Rubix2D) :
  represents s rubix v →
  Forall (λ move, ∃ w, rubix_2d.rotate_side move v = Ok w) moves →
  Forall2 (node_represents s) queue qv →
  ∃ s' r,
    expand moves steps rubix queue s = (s', Ok r)
    ∧ untouched s s'
    ∧ match r with
      | inl new_steps =>
          rubix_solver.expand moves steps v qv = Ok (inl new_steps)
      | inr queue' =>
          ∃ qv', rubix_solver.expand moves steps v qv = Ok (inr qv')
                 ∧ Forall2 (node_represents s') queue' qv'
      end.
Proof.
  revert queue qv s.
  induction moves as [|move moves IH]; intros queue qv s Hrep Htotal Hqueue.
  { exists s, (inr queue). split; [done|]. split; [apply untouched_refl|].
    by exists qv. }
  apply Forall_cons in Htotal as [[w Hw] Htotal].
  destruct (deepcopy_rubix_represents s rubix v Hrep)
    as (s1 & copy & Hrun1 & Hcopy & _).
  destruct (keeps_deepcopy_rubix s rubix s (framed_refl s)) as [Hframed1 Hfresh].
  rewrite Hrun1 in Hframed1, Hfresh. cbn [fst snd] in Hframed1, Hfresh.
  specialize (Hfresh copy eq_refl).
  destruct (rotate_side_represents move s1 copy v w Hcopy Hw)
    as (s2 & turned & Hrun2 & Hturned).
  destruct (keeps_rotate_side s move copy Hfresh s1 Hframed1) as [Hframed2 _].
  rewrite Hrun2 in Hframed2. cbn [fst] in Hframed2.
  pose proof (is_solved_represents s2 turned w Hturned) as Hrun3.
  cbn [expand rubix_solver.expand].
  rewrite (run_bind _ _ _ _ _ Hrun1), (run_bind _ _ _ _ _ Hrun2).
  rewrite (run_bind _ _ _ _ _ Hrun3). rewrite Hw. cbn [mbind result_bind].
  destruct (rubix_2d.is_solved w).
  - exists s2, (inl (steps ++ [move])). split; [done|]. split; [apply Hframed2|done].
  - destruct (IH (queue ++ [(steps ++ [move], turned)])
                (qv ++ [(steps ++ [move], w)]) s2) as (s' & r & Hrun & Hun & Hr).
    + eapply represents_untouched; [apply Hframed2|done].
    + done.
    + apply Forall2_app.
      * eapply Forall2_impl; [exact Hqueue|].
        intros n nv. apply node_represents_untouched, Hframed2.
      * by repeat constructor.
    + exists s', r. split; [done|]. split; [|done].
      eapply untouched_trans; [apply Hframed2|done].
Qed.

Lemma rotate_side_well_formed (index : Z) (v : rubix_2d.Rubix2D) :
  rubix_2d.well_formed v = true →
  ∃ w, rubix_2d.rotate_side index v = Ok w ∧ rubix_2d.well_formed w = true.
Proof.
  intros Hwf.
  destruct (decide (1 ≤ index ≤ 18)) as [Hm|Hm].
  - explode_state v Hwf. apply Z_cases_1_18 in Hm.
    destruct Hm as [Hm|Hm]; repeat (destruct Hm as [->|Hm]); try subst index;
      (eexists; split; [vm_compute; reflexivity|reflexivity]).
  - exists v. split; [|done].
    destruct index as [|p|p]; [done| |done].
    do 5 (try destruct p as [p|p|]); try done; lia.
Qed.

Lemma expand_well_formed (moves steps : list Z) (v : rubix_2d.Rubix2D)
    (qv qv' : list rubix_solver.node) :
  rubix_2d.well_formed v = true →
  Forall (λ nv, rubix_2d.well_formed nv.2 = true) qv →
  rubix_solver.expand moves steps v qv = Ok (inr qv') →
  Forall (λ nv, rubix_2d.well_formed nv.2 = true) qv'.
Proof.
  intros Hwf. revert qv.
  induction moves as [|move moves IH]; intros qv Hqv; cbn [rubix_solver.expand].
  { by intros [= <-]. }
  destruct (rotate_side_well_formed move v Hwf) as (w & -> & Hw).
  cbn [mbind result_bind]. destruct (rubix_2d.is_solved w); [done|].
  apply IH. apply Forall_app. split; [done|]. by repeat constructor.
Qed.

Lemma search_on_values (fuel : nat) (queue : list node)
    (qv : list rubix_solver.node) (s : store) :
  Forall2 (node_represents s) queue qv →
  Forall (λ nv, rubix_2d.well_formed nv.2 = true) qv →
  (search fuel queue s).2 = rubix_solver.search fuel qv.
Proof.
  revert queue qv s. induction fuel as [|fuel IH]; intros queue qv s Hq Hwf; [done|].
  destruct Hq as [|[steps rubix] [steps' v] queue qv [Hsteps Hrep] Hq]; [done|].
  cbn [fst snd] in Hsteps, Hrep. subst steps'.
  apply Forall_cons in Hwf as [Hv Hwf]. cbn [snd] in Hv.
  cbn [search rubix_solver.search].
  destruct (expand_on_values (range_from 1 19) steps rubix queue qv s v Hrep)
    as (s' & r & Hrun & Hun & Hr); [|done|].
  { apply Forall_forall. intros move _.
    destruct (rotate_side_well_formed move v Hv) as (w & Hw & _). by exists w. }
  rewrite (run_bind _ _ _ _ _ Hrun).
  destruct r as [new_steps|queue'].
  - by rewrite Hr.
  - destruct Hr as (qv' & Hexp & Hq'). rewrite Hexp. cbn [mbind result_bind].
    apply IH; [done|]. by eapply expand_well_formed.
Qed.

Lemma breath_first_search_setup (fuel : nat) (s : store) (rubix : Rubix2D)
    (v : rubix_2d.Rubix2D) :
  represents s rubix v →
  ∃ s' rubix',
    breath_first_search fuel (top rubix) (front rubix) (left rubix)
      (right rubix) (back rubix) (bottom rubix) s
    = (if rubix_2d.is_solved v then mret (Returned [])
       else search fuel [([], rubix')]) s'
    ∧ represents s' rubix' v.
Proof.
  intros Hrep. unfold breath_first_search.
  destruct (Rubix2D_new_beside s rubix v Hrep) as (s0 & r0 & Hnew & Hr0 & Hun0).
  rewrite (run_bind _ _ _ _ _ Hnew).
  pose proof (represents_untouched _ _ _ _ Hun0 Hrep) as Hrep0.
  destruct (deepcopy_represents _ rubix _ v _ Top Top Hrep0 Hr0)
    as (Hrun1 & Hrep1 & Hcur1).
  rewrite (run_bind _ _ _ _ _ Hrun1).
  destruct (deepcopy_represents _ rubix _ v _ Front Front Hrep1 Hcur1)
    as (Hrun2 & Hrep2 & Hcur2).
  rewrite (run_bind _ _ _ _ _ Hrun2).
  destruct (deepcopy_represents _ rubix _ v _ Left Left Hrep2 Hcur2)
    as (Hrun3 & Hrep3 & Hcur3).
  rewrite (run_bind _ _ _ _ _ Hrun3).
  destruct (deepcopy_represents _ rubix _ v _ Right Right Hrep3 Hcur3)
    as (Hrun4 & Hrep4 & Hcur4).
  rewrite (run_bind _ _ _ _ _ Hrun4).
  destruct (deepcopy_represents _ rubix _ v _ Back Back Hrep4 Hcur4)
    as (Hrun5 & Hrep5 & Hcur5).
  rewrite (run_bind _ _ _ _ _ Hrun5).
  destruct (deepcopy_represents _ rubix _ v _ Bottom Bottom Hrep5 Hcur5)
    as (Hrun6 & Hrep6 & Hcur6).
  rewrite (run_bind _ _ _ _ _ Hrun6).
  cbn [value_of] in Hcur6. rewrite with_value_all in Hcur6.
  rewrite (run_bind _ _ _ _ _ (is_solved_represents _ _ _ Hcur6)).
  eexists _, _. split; [reflexivity|exact Hcur6].
Qed.

Lemma breath_first_search_on_values (fuel : nat) (s : store) (rubix : Rubix2D)
    (v : rubix_2d.Rubix2D) :
  represents s rubix v →
  rubix_2d.well_formed v = true →
  (breath_first_search fuel (top rubix) (front rubix) (left rubix)
     (right rubix) (back rubix) (bottom rubix) s).2
  = rubix_solver.breath_first_search fuel (rubix_2d.top v) (rubix_2d.front v)
      (rubix_2d.left v) (rubix_2d.right v) (rubix_2d.back v) (rubix_2d.bottom v).
Proof.
  intros Hrep Hwf.
  destruct (breath_first_search_setup fuel s rubix v Hrep) as (s' & rubix' & -> & Hrep').
  unfold rubix_solver.breath_first_search.
  replace (rubix_2d.mkRubix2D _ _ _ _ _ _) with v by by destruct v.
  destruct (rubix_2d.is_solved v); [done|].
  apply search_on_values; by repeat constructor.
Qed.

End solver_on_values.

Section breadth_first.
Import rubix_2d rubix_solver.

Lemma elem_of_moves (m : Z) : m ∈ range_from 1 19 ↔ 1 ≤ m ≤ 18.
Proof.
  change (range_from 1 19)
    with [1; 2; 3; 4; 5; 6; 7; 8; 9; 10; 11; 12; 13; 14; 15; 16; 17; 18].
  rewrite !elem_of_cons, elem_of_nil. lia.
Qed.

Lemma replay_snoc (steps : list Z) (m : Z) (v : Rubix2D) :
  replay (steps ++ [m]) v = replay steps v ≫= rotate_side m.
Proof.
  unfold replay. revert v. induction steps as [|x steps IH]; intros v; simpl.
  - by destruct (rotate_side m v).
  - destruct (rotate_side x v); [apply IH|done].
Qed.

Lemma replay_app (xs ys : list Z) (v : Rubix2D) :
  replay (xs ++ ys) v = replay xs v ≫= replay ys.
Proof.
  unfold replay. revert v. induction xs as [|x xs IH]; intros v; simpl.
  - by destruct (for_each ys rotate_side v).
  - destruct (rotate_side x v); [apply IH|done].
Qed.

Lemma turn_Ok (m : Z) (v : Rubix2D) :
  well_formed v = true →
  rotate_side m v = Ok (turn m v) ∧ well_formed (turn m v) = true.
Proof.
  intros Hwf. unfold turn.
  by destruct (rotate_side_well_formed m v Hwf) as (w & -> & Hw).
Qed.

Lemma expand_run (ms steps : list Z) (v : Rubix2D) (qv : list node) :
  well_formed v = true →
  expand ms steps v qv
  = match first_solving ms v with
    | Some m => Ok (inl (steps ++ [m]))
    | None => Ok (inr (qv ++ ((λ m, (steps ++ [m], turn m v)) <$> ms)))
    end.
Proof.
  intros Hwf. revert qv. induction ms as [|m ms IH]; intros qv.
  { by rewrite app_nil_r. }
  unfold first_solving. cbn [expand find].
  destruct (turn_Ok m v Hwf) as [-> _]. cbn [mbind result_bind].
  destruct (is_solved (turn m v)); [done|].
  rewrite IH. unfold first_solving.
  destruct (find _ ms); [done|]. by rewrite fmap_cons, <- app_assoc.
Qed.

Lemma sound_kids (v0 : Rubix2D) (n : node) :
  sound_node v0 n → Forall (sound_node v0) (kids n).
Proof.
  intros (Hrun & Hwf & Hrange). apply Forall_fmap, Forall_forall.
  intros m Hm. destruct (turn_Ok m n.2 Hwf) as [Hturn Hwf'].
  split; [|split]; cbn [fst snd].
  - by rewrite replay_snoc, Hrun.
  - done.
  - apply Forall_app. split; [done|]. constructor; [|done].
    by apply elem_of_moves.
Qed.

Lemma first_solving_solves (v0 : Rubix2D) (n : node) (m : Z) :
  sound_node v0 n →
  first_solving (range_from 1 19) n.2 = Some m →
  solves (n.1 ++ [m]) v0 = true ∧ 1 ≤ m ≤ 18.
Proof.
  intros (Hrun & Hwf & _) Hfirst. unfold first_solving in Hfirst.
  apply find_some in Hfirst as [Hin Hsolved].
  split; [|by apply elem_of_moves, list_elem_of_In].
  unfold solves. rewrite replay_snoc, Hrun. cbn [mbind result_bind].
  by destruct (rotate_side m n.2).
Qed.

(** ** What the search returns solves the state *)
Lemma search_sound (v0 : Rubix2D) (fuel : nat) (qv : list node)
    (steps : list Z) :
  Forall (sound_node v0) qv →
  search fuel qv = Ok (rubix_store.Returned steps) →
  solves steps v0 = true ∧ Forall (λ m, 1 ≤ m ≤ 18) steps ∧ steps ≠ [].
Proof.
  revert qv. induction fuel as [|fuel IH]; intros qv Hqv; [done|].
  destruct qv as [|[w v] qv]; [done|]. cbn [search].
  apply Forall_cons in Hqv as [Hn Hqv]. pose proof Hn as (Hrun & Hwf & Hrange).
  cbn [fst snd] in Hrun, Hwf, Hrange.
  rewrite expand_run by done.
  destruct (first_solving _ v) as [m|] eqn:Hfirst; cbn [mbind result_bind].
  - intros [= <-].
    destruct (first_solving_solves v0 (w, v) m Hn Hfirst) as [Hs Hm].
    split; [done|]. split; [|by destruct w].
    apply Forall_app. split; [done|]. by constructor.
  - apply IH. apply Forall_app. split; [done|]. exact (sound_kids v0 (w, v) Hn).
Qed.

(** ** The search never raises *)
Lemma search_never_raises (v0 : Rubix2D) (fuel : nat) (qv : list node) :
  Forall (sound_node v0) qv → qv ≠ [] →
  ∃ o, search fuel qv = Ok o.
Proof.
  revert qv. induction fuel as [|fuel IH]; intros qv Hqv Hne; [by eexists|].
  destruct qv as [|[w v] qv]; [done|]. cbn [search].
  apply Forall_cons in Hqv as [Hn Hqv]. pose proof Hn as (Hrun & Hwf & Hrange).
  cbn [fst snd] in Hrun, Hwf, Hrange.
  rewrite expand_run by done.
  destruct (first_solving _ v) as [m|] eqn:Hfirst; cbn [mbind result_bind].
  - by eexists.
  - apply IH.
    + apply Forall_app. split; [done|]. exact (sound_kids v0 (w, v) Hn).
    + intros Hnil. apply app_eq_nil in Hnil as [_ Hnil]. discriminate Hnil.
Qed.

(** ** More fuel changes no result *)
Lemma search_more_fuel (fuel extra : nat) (qv : list node) (steps : list Z) :
  search fuel qv = Ok (rubix_store.Returned steps) →
  search (fuel + extra) qv = Ok (rubix_store.Returned steps).
Proof.
  revert qv. induction fuel as [|fuel IH]; intros qv; [done|].
  destruct qv as [|[w v] qv]; [done|]. cbn [search Nat.add].
  destruct (expand _ w v qv) as [[new_steps|queue]|]; cbn [mbind result_bind];
    [done| |done].
  apply IH.
Qed.

(** ** The search works level by level *)
Lemma search_sweep (ws rest : list node) (fuel : nat) :
  Forall clear_node ws →
  search (length ws + fuel) (ws ++ rest) = search fuel (rest ++ (ws ≫= kids)).
Proof.
  revert rest. induction ws as [|[w v] ws IH]; intros rest Hws.
  { by rewrite app_nil_r. }
  apply Forall_cons in Hws as [[Hwf Hnone] Hws]. cbn [fst snd] in Hwf, Hnone.
  cbn [length Nat.add app search].
  rewrite expand_run, Hnone by done. cbn [mbind result_bind].
  rewrite <- app_assoc, IH by done. by rewrite <- app_assoc.
Qed.

Lemma search_hit (ws rest : list node) (n : node) (m : Z) (fuel : nat) :
  Forall clear_node ws →
  well_formed n.2 = true →
  first_solving (range_from 1 19) n.2 = Some m →
  search (length ws + S fuel) (ws ++ n :: rest)
  = Ok (rubix_store.Returned (n.1 ++ [m])).
Proof.
  intros Hws Hwf Hfirst. rewrite search_sweep by done.
  destruct n as [w v]. cbn [app search fst snd] in *.
  by rewrite expand_run, Hfirst by done.
Qed.

Lemma length_kids (n : node) : length (kids n) = 18%nat.
Proof. unfold kids. by rewrite length_fmap. Qed.

Lemma length_level (v0 : Rubix2D) (k : nat) : length (level v0 k) = (18 ^ k)%nat.
Proof.
  induction k as [|k IH]; [done|]. cbn [level].
  rewrite Nat.pow_succ_r', <- IH. generalize (level v0 k). intros l.
  induction l as [|n l IHl]; [done|].
  cbn [mbind list_bind]. rewrite length_app, length_kids, IHl. cbn [length]. lia.
Qed.

Lemma passes_mono (k n : nat) : (k ≤ n)%nat → (passes k ≤ passes n)%nat.
Proof. induction 1; cbn [passes]; lia. Qed.

Lemma sound_level (v0 : Rubix2D) (k : nat) :
  well_formed v0 = true → Forall (sound_node v0) (level v0 k).
Proof.
  intros Hwf. induction k as [|k IH]; cbn [level].
  - by repeat constructor.
  - apply Forall_bind. eapply Forall_impl; [exact IH|]. apply sound_kids.
Qed.

Lemma level_length (v0 : Rubix2D) (k : nat) :
  Forall (λ n : node, length n.1 = k) (level v0 k).
Proof.
  induction k as [|k IH]; cbn [level].
  - by repeat constructor.
  - apply Forall_bind. eapply Forall_impl; [exact IH|].
    intros n Hn. cbn beta in Hn. apply Forall_fmap, Forall_forall. intros m _.
    unfold compose. cbn [fst]. rewrite length_app. cbn [length]. lia.
Qed.

(** Every sequence of [k] moves is met at level [k]. *)
Lemma level_complete (v0 : Rubix2D) (x : list Z) :
  Forall (λ m, 1 ≤ m ≤ 18) x →
  ∃ n, n ∈ level v0 (length x) ∧ n.1 = x.
Proof.
  induction x as [|m x IH] using rev_ind; intros Hx.
  { exists ([], v0). split; [apply list_elem_of_singleton|]; done. }
  apply Forall_app in Hx as [Hx Hm]. rewrite Forall_singleton in Hm.
  destruct (IH Hx) as (n & Hn & <-).
  exists (n.1 ++ [m], turn m n.2). split; [|done].
  rewrite length_app. cbn [length]. rewrite Nat.add_1_r. cbn [level].
  apply list_elem_of_bind. exists n. split; [|done].
  apply (list_elem_of_fmap_2 (λ m, (n.1 ++ [m], turn m n.2))).
  by apply elem_of_moves.
Qed.

Lemma search_levels (v0 : Rubix2D) (n fuel : nat) :
  well_formed v0 = true →
  (∀ k, (k < n)%nat → unsolvable_next (level v0 k) = true) →
  search (passes n + fuel) [([], v0)] = search fuel (level v0 n).
Proof.
  intros Hwf. revert fuel. induction n as [|n IH]; intros fuel Hclear; [done|].
  cbn [passes]. rewrite <- Nat.add_assoc, IH by (intros; apply Hclear; lia).
  rewrite <- (length_level v0 n).
  rewrite <- (app_nil_r (level v0 n)) at 2. rewrite search_sweep; [done|].
  specialize (Hclear n (Nat.lt_succ_diag_r n)).
  unfold unsolvable_next in Hclear. rewrite forallb_forall in Hclear.
  pose proof (sound_level v0 n Hwf) as Hsound.
  rewrite Forall_forall in Hsound. apply Forall_forall. intros x Hx.
  split; [apply (Hsound x Hx)|].
  apply list_elem_of_In, Hclear in Hx. by apply bool_decide_eq_true in Hx.
Qed.

Lemma least_nat (P : nat → bool) (n : nat) :
  P n = false →
  ∃ k, (k ≤ n)%nat ∧ P k = false ∧ ∀ j, (j < k)%nat → P j = true.
Proof.
  revert P. induction n as [|n IH]; intros P HP.
  { exists 0%nat. split; [done|]. split; [done|]. lia. }
  destruct (P 0%nat) eqn:H0.
  - destruct (IH (λ k, P (S k)) HP) as (k & Hk & HPk & Hleast).
    exists (S k). split; [lia|]. split; [done|].
    intros [|j] Hj; [done|]. apply Hleast. lia.
  - exists 0%nat. split; [lia|]. split; [done|]. lia.
Qed.

Lemma first_solvable (ws : list node) :
  unsolvable_next ws = false →
  ∃ ws1 n ws2 m,
    ws = ws1 ++ n :: ws2 ∧ unsolvable_next ws1 = true
    ∧ first_solving (range_from 1 19) n.2 = Some m.
Proof.
  induction ws as [|n ws IH]; [done|]. cbn [unsolvable_next forallb].
  destruct (first_solving (range_from 1 19) n.2) as [m|] eqn:Hn.
  - intros _. by exists [], n, ws, m.
  - rewrite bool_decide_eq_true_2 by done. cbn [andb]. intros Hws.
    destruct (IH Hws) as (ws1 & n' & ws2 & m & -> & Hws1 & Hn').
    exists (n :: ws1), n', ws2, m. split; [done|]. split; [|done].
    cbn [unsolvable_next forallb]. by rewrite bool_decide_eq_true_2.
Qed.

Lemma rotate_side_elsewhere (m : Z) (v : Rubix2D) :
  ¬ (1 ≤ m ≤ 18) → rotate_side m v = Ok v.
Proof.
  intros Hm. destruct m as [|p|p]; [done| |done].
  do 5 (try destruct p as [p|p|]); try done; lia.
Qed.

(** Moves outside 1..18 may be left out of a sequence. *)
Lemma replay_filter (x : list Z) (v : Rubix2D) :
  replay (filter (λ m, 1 ≤ m ≤ 18) x) v = replay x v.
Proof.
  revert v. induction x as [|m x IH]; intros v; [done|].
  destruct (decide (1 ≤ m ≤ 18)) as [Hm|Hm].
  - rewrite filter_cons_True by done. unfold replay. cbn [for_each].
    destruct (rotate_side m v); [apply IH|done].
  - rewrite filter_cons_False by done. unfold replay at 2. cbn [for_each].
    rewrite rotate_side_elsewhere by done. apply IH.
Qed.

(** ** The search returns when a solution exists *)
Lemma search_complete (v0 : Rubix2D) (x : list Z) :
  well_formed v0 = true →
  is_solved v0 = false →
  solves x v0 = true →
  ∃ steps,
    (length steps ≤ length x)%nat
    ∧ ∀ fuel, (passes (length x) ≤ fuel)%nat →
        search fuel [([], v0)] = Ok (rubix_store.Returned steps).
Proof.
  intros Hwf Hunsolved Hx.
  cut (∃ steps,
    (length steps ≤ length (filter (λ m : Z, (1 ≤ m ≤ 18)%Z) x))%nat
    ∧ ∀ fuel, (passes (length (filter (λ m : Z, (1 ≤ m ≤ 18)%Z) x)) ≤ fuel)%nat →
        search fuel [([], v0)] = Ok (rubix_store.Returned steps)).
  { intros (steps & Hlen & Hrun). exists steps.
    pose proof (length_filter (λ m : Z, (1 ≤ m ≤ 18)%Z) x) as Hle.
    split; [lia|]. intros fuel Hfuel. apply Hrun.
    etrans; [|exact Hfuel]. by apply passes_mono. }
  assert (solves (filter (λ m : Z, (1 ≤ m ≤ 18)%Z) x) v0 = true) as Hy
    by (unfold solves; by rewrite replay_filter).
  assert (Forall (λ m : Z, (1 ≤ m ≤ 18)%Z) (filter (λ m : Z, (1 ≤ m ≤ 18)%Z) x)) as Hrange
    by (apply Forall_forall; intros m Hm; by apply list_elem_of_filter in Hm as [? _]).
  clear Hx. revert Hy Hrange. generalize (filter (λ m : Z, (1 ≤ m ≤ 18)%Z) x).
  clear x. intros x Hx Hrange.
  destruct x as [|m x _] using rev_ind.
  { unfold solves, replay in Hx. cbn [for_each] in Hx. congruence. }
  apply Forall_app in Hrange as [Hrange Hm]. rewrite Forall_singleton in Hm.
  destruct (level_complete v0 x Hrange) as (n & Hn & <-).
  pose proof (sound_level v0 (length n.1) Hwf) as Hsound.
  rewrite Forall_forall in Hsound. pose proof (Hsound n Hn) as (Hrun & Hwfn & _).
  assert (unsolvable_next (level v0 (length n.1)) = false) as Hlevel.
  { apply not_true_is_false. unfold unsolvable_next. rewrite forallb_forall.
    intros Hall. apply list_elem_of_In, Hall, bool_decide_eq_true in Hn.
    unfold first_solving in Hn.
    assert (In m (range_from 1 19)) as Hin
      by by apply list_elem_of_In, elem_of_moves.
    pose proof (find_none _ _ Hn m Hin) as Hfalse. cbn beta in Hfalse.
    unfold solves in Hx. rewrite replay_snoc, Hrun in Hx.
    cbn [mbind result_bind] in Hx.
    destruct (rotate_side m n.2); congruence. }
  destruct (least_nat (λ k, unsolvable_next (level v0 k)) _ Hlevel)
    as (k & Hk & Hlevelk & Hleast).
  destruct (first_solvable _ Hlevelk) as (ws1 & n' & ws2 & m' & Hsplit & Hws1 & Hn').
  pose proof (sound_level v0 k Hwf) as Hsoundk. rewrite Hsplit in Hsoundk.
  apply Forall_app in Hsoundk as [Hsound1 Hsoundk].
  apply Forall_cons in Hsoundk as [Hsoundn' _].
  pose proof (level_length v0 k) as Hlen. rewrite Hsplit in Hlen.
  apply Forall_app in Hlen as [_ Hlen]. apply Forall_cons in Hlen as [Hlen _].
  pose proof (length_level v0 k) as Hsize. rewrite Hsplit in Hsize.
  rewrite length_app in Hsize. cbn [length] in Hsize.
  exists (n'.1 ++ [m']). split.
  { rewrite !length_app. cbn [length]. lia. }
  intros fuel Hfuel. rewrite length_app in Hfuel. cbn [length] in Hfuel.
  rewrite Nat.add_1_r in Hfuel.
  pose proof (passes_mono (S k) (S (length n.1)) ltac:(lia)) as Hmono.
  cbn [passes] in Hmono, Hfuel.
  replace fuel
    with (passes k + (length ws1 + S (fuel - passes k - length ws1 - 1)))%nat
    by lia.
  rewrite search_levels by done. rewrite Hsplit.
  apply search_hit; [|apply Hsoundn'|done].
  unfold unsolvable_next in Hws1. rewrite forallb_forall in Hws1.
  rewrite Forall_forall in Hsound1. apply Forall_forall. intros y Hy.
  split; [apply (Hsound1 y Hy)|].
  apply list_elem_of_In, Hws1 in Hy. by apply bool_decide_eq_true in Hy.
Qed.

(** ** What the search returns is a shortest solution *)
Lemma search_minimal (v0 : Rubix2D) (fuel : nat) (steps x : list Z) :
  well_formed v0 = true →
  is_solved v0 = false →
  search fuel [([], v0)] = Ok (rubix_store.Returned steps) →
  solves x v0 = true →
  (length steps ≤ length x)%nat.
Proof.
  intros Hwf Hunsolved Hrun Hx.
  destruct (search_complete v0 x Hwf Hunsolved Hx) as (steps' & Hlen & Hrun').
  specialize (Hrun' (fuel + passes (length x))%nat ltac:(lia)).
  apply (search_more_fuel _ (passes (length x))) in Hrun.
  congruence.
Qed.

End breadth_first.

Section solver_replay.
Import rubix_store.

Lemma rotate_side_inverse (m : Z) (v w : rubix_2d.Rubix2D) :
  rubix_2d.well_formed v = true →
  rubix_2d.rotate_side m v = Ok w →
  rubix_2d.rotate_side (inverse_move m) w = Ok v.
Proof.
  intros Hwf. destruct (decide (1 ≤ m ≤ 18)) as [Hm|Hm].
  - explode_state v Hwf. apply Z_cases_1_18 in Hm.
    destruct Hm as [Hm|Hm]; repeat (destruct Hm as [->|Hm]); try subst m;
      intros Hw; vm_compute in Hw; injection Hw as <-; vm_compute; reflexivity.
  - rewrite rotate_side_elsewhere by done. intros [= <-].
    unfold inverse_move. rewrite !bool_decide_eq_false_2 by lia.
    by apply rotate_side_elsewhere.
Qed.

Lemma replay_well_formed (x : list Z) (v : rubix_2d.Rubix2D) :
  rubix_2d.well_formed v = true →
  ∃ w, replay x v = Ok w ∧ rubix_2d.well_formed w = true.
Proof.
  revert v. induction x as [|m x IH]; intros v Hwf; [by exists v|].
  destruct (rotate_side_well_formed m v Hwf) as (w & Hw & Hwfw).
  unfold replay. cbn [for_each]. rewrite Hw. by apply IH.
Qed.

Lemma replay_undo (x : list Z) (v w : rubix_2d.Rubix2D) :
  rubix_2d.well_formed v = true →
  replay x v = Ok w → replay (undo x) w = Ok v.
Proof.
  revert v. induction x as [|m x IH]; intros v Hwf.
  { by intros [= <-]. }
  destruct (rotate_side_well_formed m v Hwf) as (u & Hu & Hwfu).
  unfold replay at 1. cbn [for_each]. rewrite Hu. cbn [mbind result_bind].
  intros Hrun. unfold undo. rewrite fmap_cons, reverse_cons, replay_app.
  fold (undo x). rewrite (IH u Hwfu Hrun). cbn [mbind result_bind].
  unfold replay. cbn [for_each].
  by rewrite (rotate_side_inverse m v u Hwf Hu).
Qed.

Lemma replay_represents (x : list Z) (s : store) (rubix : Rubix2D)
    (v w : rubix_2d.Rubix2D) :
  represents s rubix v →
  replay x v = Ok w →
  ∃ s' rubix',
    for_each_m x rotate_side rubix s = (s', Ok rubix') ∧ represents s' rubix' w.
Proof.
  revert s rubix v. induction x as [|m x IH]; intros s rubix v Hrep.
  { intros [= <-]. by exists s, rubix. }
  unfold replay. cbn [for_each for_each_m].
  destruct (rubix_2d.rotate_side m v) as [u|] eqn:Hu; [|done].
  cbn [mbind result_bind]. intros Hrun.
  destruct (rotate_side_represents m s rubix v u Hrep Hu)
    as (s1 & rubix1 & Hrun1 & Hrep1).
  rewrite (run_bind _ _ _ _ _ Hrun1). by eapply IH.
Qed.

Lemma breath_first_search_value (fuel : nat) (v : rubix_2d.Rubix2D) :
  rubix_solver.breath_first_search fuel (rubix_2d.top v) (rubix_2d.front v)
    (rubix_2d.left v) (rubix_2d.right v) (rubix_2d.back v) (rubix_2d.bottom v)
  = if rubix_2d.is_solved v then Ok (Returned [])
    else rubix_solver.search fuel [([], v)].
Proof. by destruct v. Qed.

Lemma sound_root (v : rubix_2d.Rubix2D) :
  rubix_2d.well_formed v = true → Forall (sound_node v) [([], v)].
Proof.
  intros Hwf. constructor; [|constructor].
  split; [reflexivity|]. split; [exact Hwf|constructor].
Qed.

Lemma scrambled_represents :
  ∃ s rubix,
    scrambled = (s, Ok rubix) ∧ represents s rubix (turn 1 rubix_2d.init).
Proof.
  destruct Rubix2D_new_represents as (s0 & rubix0 & Hnew & Hrep0).
  destruct (rotate_side_represents 1 s0 rubix0 rubix_2d.init
              (turn 1 rubix_2d.init) Hrep0)
    as (s1 & rubix1 & Hrun & Hrep1); [by vm_compute|].
  exists s1, rubix1. split; [|exact Hrep1].
  unfold scrambled. by rewrite (run_bind _ _ _ _ _ Hnew).
Qed.

(** The search on the store that [Rubix2D()] and [rotate_side(1, rubix)]
    leave. *)
Lemma scrambled_search :
  ∃ s rubix,
    scrambled = (s, Ok rubix)
    ∧ represents s rubix (turn 1 rubix_2d.init)
    ∧ (breath_first_search 1 (top rubix) (front rubix) (left rubix)
         (right rubix) (back rubix) (bottom rubix) s).2 = Ok (Returned [10]).
Proof.
  destruct scrambled_represents as (s & rubix & Hscr & Hrep).
  exists s, rubix. split; [exact Hscr|]. split; [exact Hrep|].
  vm_compute in Hscr. injection Hscr as <- <-. by vm_compute.
Qed.

(** When some sequence of moves solves the state, the search on the
    store returns. *)
Lemma breath_first_search_complete (s : store) (rubix : Rubix2D)
    (v : rubix_2d.Rubix2D) (x : list Z) :
  represents s rubix v →
  rubix_2d.well_formed v = true →
  solves x v = true →
  ∃ steps,
    (length steps ≤ length x)%nat
    ∧ solves steps v = true
    ∧ ∀ fuel, (passes (length x) ≤ fuel)%nat →
        (breath_first_search fuel (top rubix) (front rubix) (left rubix)
           (right rubix) (back rubix) (bottom rubix) s).2
        = Ok (Returned steps).
Proof.
  intros Hrep Hwf Hx.
  destruct (rubix_2d.is_solved v) eqn:Hsolved.
  - exists []. split; [cbn [length]; lia|]. split.
    + unfold solves, replay. cbn [for_each]. exact Hsolved.
    + intros fuel _.
      rewrite (breath_first_search_on_values fuel s rubix v Hrep Hwf),
        breath_first_search_value.
      by rewrite Hsolved.
  - destruct (search_complete v x Hwf Hsolved Hx) as (steps & Hlen & Hrun).
    exists steps. split; [exact Hlen|].
    assert (∀ fuel, (passes (length x) ≤ fuel)%nat →
              (breath_first_search fuel (top rubix) (front rubix) (left rubix)
                 (right rubix) (back rubix) (bottom rubix) s).2
              = Ok (Returned steps)) as Hstore.
    { intros fuel Hfuel.
      rewrite (breath_first_search_on_values fuel s rubix v Hrep Hwf),
        breath_first_search_value.
      rewrite Hsolved. by apply Hrun. }
    split; [|exact Hstore].
    exact (proj1 (search_sound v _ _ steps (sound_root v Hwf)
                    (Hrun _ (Nat.le_refl _)))).
Qed.

End solver_replay.

(** * Supporting lemmas: sequences of moves, uniform grids, bad layers *)
Section facelet_support.
Import rubix_2d.

Lemma replay_store (x : list Z) (v w : Rubix2D) :
  replay x v = Ok w →
  ∀ s rubix, represents s rubix v →
    ∃ s' rubix',
      rubix_store.for_each_m x rubix_store.rotate_side rubix s = (s', Ok rubix')
      ∧ represents s' rubix' w.
Proof. intros Hw s rubix Hrep. by eapply replay_represents. Qed.

Lemma uniform_one_colour (side : grid) :
  uniform side = true ↔ ∃ c, one_colour c side.
Proof.
  unfold uniform, one_colour. rewrite bool_decide_eq_true.
  generalize (concat side). intros l. split.
  - intros Hsize. apply size_1_elem_of in Hsize as [c Hc].
    exists c. split.
    + intros ->. cbn in Hc. set_solver.
    + apply Forall_forall. intros x Hx.
      assert (x ∈ (list_to_set l : gset string)) as Hin
        by by apply elem_of_list_to_set.
      rewrite Hc in Hin. by apply elem_of_singleton in Hin.
  - intros (c & Hne & Hall). destruct l as [|x l]; [done|].
    assert ((list_to_set (x :: l) : gset string) = {[c]}) as ->; [|apply size_singleton].
    apply set_eq. intros y. rewrite elem_of_list_to_set, elem_of_singleton.
    rewrite Forall_forall in Hall. split.
    + intros Hy. by apply Hall.
    + intros ->. rewrite <- (Hall x) by apply list_elem_of_here.
      apply list_elem_of_here.
Qed.

Lemma range_cons (n : Z) : 1 ≤ n → ∃ rest, range n = 0 :: rest.
Proof.
  intros Hn. unfold range. destruct (Z.to_nat n) as [|k] eqn:Hk; [lia|].
  cbn [seq fmap list_fmap]. by eexists.
Qed.

Lemma range_nil (n : Z) : n ≤ 0 → range n = [].
Proof.
  intros Hn. unfold range. by replace (Z.to_nat n) with 0%nat by lia.
Qed.

Lemma rotate_arr_no_turn (arr : grid) (n : Z) : n ≤ 0 → rotate_arr arr n = arr.
Proof.
  intros Hn. unfold rotate_arr. by replace (Z.to_nat n) with 0%nat by lia.
Qed.

Lemma INVERSE_get_outside (k : Z) : ¬ (0 ≤ k ≤ 2) → INVERSE_get k = Raise KeyError.
Proof.
  intros Hk. unfold INVERSE_get, INVERSE. cbn [list_to_map foldr uncurry fst snd].
  by rewrite !lookup_insert_ne, lookup_empty by lia.
Qed.

Lemma py_get_outside {A} (l : list A) (i : Z) :
  ¬ (- Z.of_nat (length l) ≤ i < Z.of_nat (length l)) → py_get l i = Raise IndexError.
Proof.
  intros Hi. unfold py_get, py_index.
  destruct (0 <=? i) eqn:H0; destruct (i <? Z.of_nat (length l)) eqn:H1;
    destruct (- Z.of_nat (length l) <=? i) eqn:H2; destruct (i <? 0) eqn:H3;
    cbn; try done; lia.
Qed.

Lemma represents_load_grid (s : rubix_store.store) (self : rubix_store.Rubix2D)
    (v : Rubix2D) (F : face) :
  represents s self v →
  ∃ rs, rubix_store.grids s !! grid_of F self = Some rs
        ∧ length rs = length (value_of F v).
Proof.
  intros (G & HG & Hv & _). exists (G F). split; [apply HG|].
  exact (Forall2_length _ _ _ (Hv F)).
Qed.

Lemma run_bind_raise {A B} (m : rubix_store.M A) (f : A → rubix_store.M B)
    (s s' : rubix_store.store) (e : exn) :
  m s = (s', Raise e) → (m ≫= f) s = (s', Raise e).
Proof. intros H. unfold mbind, rubix_store.M_bind. by rewrite H. Qed.

Lemma rotate_y_step_outside (k : Z) (s : rubix_store.store)
    (rubix : rubix_store.Rubix2D) (v : Rubix2D) :
  ¬ (0 ≤ k ≤ 2) → represents s rubix v →
  rubix_store.rotate_y_step k rubix s = (s, Raise KeyError).
Proof.
  intros Hk Hrep. unfold rubix_store.rotate_y_step.
  rewrite (run_bind _ _ _ _ _ (snapshot_represents s rubix v Front Hrep)).
  rewrite (run_bind _ _ _ _ _ (snapshot_represents s rubix v Top Hrep)).
  rewrite (run_bind _ _ _ _ _ (snapshot_represents s rubix v Back Hrep)).
  rewrite (run_bind _ _ _ _ _ (snapshot_represents s rubix v Bottom Hrep)).
  apply run_bind_raise. unfold rubix_store.lift.
  by rewrite INVERSE_get_outside.
Qed.

Lemma rotate_z_step_outside (k : Z) (s : rubix_store.store)
    (rubix : rubix_store.Rubix2D) (v : Rubix2D) :
  ¬ (0 ≤ k ≤ 2) → represents s rubix v →
  rubix_store.rotate_z_step k rubix s = (s, Raise KeyError).
Proof.
  intros Hk Hrep. unfold rubix_store.rotate_z_step.
  rewrite (run_bind _ _ _ _ _ (snapshot_represents s rubix v Left Hrep)).
  rewrite (run_bind _ _ _ _ _ (snapshot_represents s rubix v Top Hrep)).
  rewrite (run_bind _ _ _ _ _ (snapshot_represents s rubix v Right Hrep)).
  rewrite (run_bind _ _ _ _ _ (snapshot_represents s rubix v Bottom Hrep)).
  apply run_bind_raise. unfold rubix_store.lift.
  by rewrite INVERSE_get_outside.
Qed.

Lemma rotate_x_step_outside (k : Z) (s : rubix_store.store)
    (rubix : rubix_store.Rubix2D) (v : Rubix2D) :
  ¬ (-3 ≤ k ≤ 2) → well_formed v = true → represents s rubix v →
  rotate_x_step k v = Raise IndexError
  ∧ rubix_store.rotate_x_step k rubix s = (s, Raise IndexError).
Proof.
  intros Hk Hwf Hrep.
  assert (length (left v) = 3%nat) as Hlen.
  { apply well_formed_inv in Hwf as (_ & _ & Hl & _).
    by apply is_3x3_inv in Hl as (? & ? & ? & ? & ? & ? & ? & ? & ? & ->). }
  split.
  - unfold rotate_x_step. rewrite (py_get_outside (left v) k); [reflexivity|].
    rewrite Hlen. lia.
  - destruct (represents_load_grid s rubix v Left Hrep) as (rs & Hrs & Hlenrs).
    cbn [grid_of value_of] in Hrs, Hlenrs.
    unfold rubix_store.rotate_x_step. apply run_bind_raise.
    unfold rubix_store.grid_item.
    rewrite (run_bind _ _ s s rs);
      [|by unfold rubix_store.load_grid; rewrite Hrs].
    unfold rubix_store.lift.
    rewrite (py_get_outside rs k); [reflexivity|]. rewrite Hlenrs, Hlen. lia.
Qed.

End facelet_support.

(** * Supporting lemmas: cubes and the turn of a layer *)
Section solid_support.
Import cube main.
#[local] Open Scope float_scope.

Lemma Z_cases_unit (t : Z) : (-1 ≤ t ≤ 1)%Z → t = (-1)%Z ∨ t = 0%Z ∨ t = 1%Z.
Proof. lia. Qed.

Lemma Z_cases_axis (t : Z) : (0 ≤ t ≤ 2)%Z → t = 0%Z ∨ t = 1%Z ∨ t = 2%Z.
Proof. lia. Qed.


End solid_support.


Section turning_support.
Import cube rubix_cube.
#[local] Open Scope float_scope.

Lemma rotations_hold (m : engine.libm) :
  holds_coordinate (engine.rotate_x m) 1
  ∧ holds_coordinate (engine.rotate_y m) 0
  ∧ holds_coordinate (engine.rotate_z m) 2.
Proof.
  unfold holds_coordinate, engine.rotate_x, engine.rotate_y, engine.rotate_z,
    engine.rotation, engine.rotate_x_func, engine.rotate_y_func,
    engine.rotate_z_func.
  repeat split; intros vert center angle out;
    destruct (engine.sin m (engine.radians m angle)) as [s|]; try discriminate;
    destruct (engine.cos m (engine.radians m angle)) as [c|]; try discriminate;
    destruct (py_get vert 0) as [v0|]; try discriminate;
    destruct (py_get vert 1) as [v1|]; try discriminate;
    destruct (py_get vert 2) as [v2|]; try discriminate;
    destruct (py_get center 0) as [c0|]; try discriminate;
    destruct (py_get center 1) as [c1|]; try discriminate;
    destruct (py_get center 2) as [c2|]; try discriminate;
    cbn; by intros [= <-].
Qed.

Lemma comprehension_app {A B} (f : A → result B) (xs ys : list A) :
  comprehension f (xs ++ ys)
  = (l1 ← comprehension f xs; l2 ← comprehension f ys; mret (l1 ++ l2)).
Proof.
  induction xs as [|x xs IH]; cbn.
  - by destruct (comprehension f ys).
  - destruct (f x); [|done]. cbn. rewrite IH.
    destruct (comprehension f xs); [|done]. cbn.
    by destruct (comprehension f ys).
Qed.

Lemma turned_poly_coords (rotate : rotation_function) (axis : Z)
    (angle : float) (verts verts' : list (list float)) :
  holds_coordinate rotate axis →
  comprehension (λ vert, rotate vert [0; 0; 0] angle) verts = Ok verts' →
  comprehension (λ vert, py_get vert axis) verts'
  = comprehension (λ vert, py_get vert axis) verts.
Proof.
  intros Hholds. revert verts'.
  induction verts as [|v verts IH]; intros verts'; cbn.
  { by intros [= <-]. }
  destruct (rotate v [0; 0; 0] angle) as [out|] eqn:Hout; [|done]. cbn.
  destruct (comprehension _ verts) as [outs|]; [|done]. cbn.
  intros [= <-]. cbn. rewrite (Hholds _ _ _ _ Hout). by rewrite (IH outs).
Qed.

Lemma turned_shapes_coords (rotate : rotation_function) (axis : Z)
    (angle : float) (shs shs' : list Shape) :
  holds_coordinate rotate axis →
  comprehension (turn_shape rotate angle) shs = Ok shs' →
  comprehension (λ vert, py_get vert axis) (concat (poly <$> shs'))
  = comprehension (λ vert, py_get vert axis) (concat (poly <$> shs))
  ∧ colour <$> shs' = colour <$> shs.
Proof.
  intros Hholds. revert shs'.
  induction shs as [|sh shs IH]; intros shs'; cbn [comprehension].
  { by intros [= <-]. }
  destruct (turn_shape rotate angle sh) as [sh'|] eqn:Hsh;
    cbn [mbind result_bind mret result_ret]; [|by intros ?].
  destruct (comprehension (turn_shape rotate angle) shs)
    as [shs1|] eqn:Hshs; cbn [mbind result_bind mret result_ret];
    [|by intros ?].
  intros [= <-]. unfold turn_shape in Hsh.
  destruct (comprehension (λ vert, rotate vert [0; 0; 0] angle) (poly sh))
    as [poly'|] eqn:Hpoly; cbn [mbind result_bind mret result_ret] in Hsh;
    [|discriminate Hsh].
  injection Hsh as <-.
  destruct (IH shs1 eq_refl) as [IHcoords IHcolours].
  rewrite !fmap_cons. cbn [concat poly colour]. split.
  - rewrite (comprehension_app _ poly'), (comprehension_app _ (poly sh)).
    rewrite (turned_poly_coords rotate axis angle _ _ Hholds Hpoly).
    by rewrite IHcoords.
  - by rewrite IHcolours.
Qed.

Lemma turned_cube_coords (rotate : rotation_function) (axis : Z)
    (angle : float) (c c' : Cube) :
  holds_coordinate rotate axis →
  turn_cube rotate angle c = Ok c' →
  axis_coords c' axis = axis_coords c axis
  ∧ x c' = x c ∧ y c' = y c ∧ z c' = z c ∧ colours c' = colours c
  ∧ colour <$> cube c' = colour <$> cube c.
Proof.
  intros Hholds. unfold turn_cube, axis_coords.
  destruct (comprehension (turn_shape rotate angle) (cube c))
    as [shapes|] eqn:Hshapes; cbn [mbind result_bind mret result_ret];
    [|by intros ?].
  intros [= <-]. cbn [cube x y z colours].
  destruct (turned_shapes_coords rotate axis angle _ _ Hholds Hshapes)
    as [Hcoords Hcolours].
  by repeat split.
Qed.

Lemma for_each_preserves {I S} (P : S → Prop) (xs : list I)
    (body : I → S → result S) (s s' : S) :
  P s →
  (∀ x s s', P s → body x s = Ok s' → P s') →
  for_each xs body s = Ok s' → P s'.
Proof.
  intros Hs Hbody. revert s Hs.
  induction xs as [|x xs IH]; intros s Hs; cbn [for_each].
  - by intros [= <-].
  - destruct (body x s) as [s1|] eqn:Hs1; cbn [mbind result_bind]; [|done].
    apply IH. by eapply Hbody.
Qed.

Lemma turn_chosen_turned (rotate : rotation_function) (axis : Z)
    (angle : float) (chosen : list bool) (before cubes after : list Cube) :
  holds_coordinate rotate axis →
  Forall2 (turned axis) (zip chosen before) cubes →
  length chosen = length before →
  turn_chosen rotate angle chosen cubes = Ok after →
  Forall2 (turned axis) (zip chosen before) after.
Proof.
  intros Hholds. revert before cubes after.
  induction chosen as [|keep chosen IH]; intros before cubes after Hrel Hlen.
  { destruct before; [|done]. cbn in Hrel. apply Forall2_nil_inv_l in Hrel as ->.
    cbn. by intros [= <-]. }
  destruct before as [|b before]; [done|]. cbn [zip zip_with] in Hrel |- *.
  apply Forall2_cons_inv_l in Hrel as (c & cubes1 & Hc & Hrel & ->).
  cbn [turn_chosen].
  destruct (if keep then turn_cube rotate angle c else Ok c) as [c'|] eqn:Hc';
    cbn [mbind result_bind mret result_ret]; [|by intros ?].
  destruct (turn_chosen rotate angle chosen cubes1) as [cubes'|] eqn:Hcubes';
    cbn [mbind result_bind mret result_ret]; [|by intros ?].
  intros [= <-]. constructor.
  - destruct Hc as (H1 & H2 & H3 & H4 & H5 & H6 & H7). destruct keep.
    + destruct (turned_cube_coords rotate axis angle c c' Hholds Hc')
        as (G1 & G2 & G3 & G4 & G5 & G6).
      repeat split; [congruence..|done].
    + injection Hc' as <-. by repeat split.
  - eapply IH; [exact Hrel|by injection Hlen|exact Hcubes'].
Qed.

Lemma turned_refl (axis : Z) (chosen : list bool) (cubes : list Cube) :
  length chosen = length cubes →
  Forall2 (turned axis) (zip chosen cubes) cubes.
Proof.
  revert cubes. induction chosen as [|k chosen IH]; intros [|c cubes] Hlen;
    try done; cbn; constructor.
  - by repeat split.
  - apply IH. by injection Hlen.
Qed.

Lemma length_comprehension {A B} (f : A → result B) (xs : list A) (ys : list B) :
  comprehension f xs = Ok ys → length ys = length xs.
Proof.
  revert ys. induction xs as [|x xs IH]; intros ys; cbn [comprehension].
  { by intros [= <-]. }
  destruct (f x); cbn [mbind result_bind mret result_ret]; [|done].
  destruct (comprehension f xs) as [l|];
    cbn [mbind result_bind mret result_ret]; [|done].
  intros [= <-]. cbn. f_equal. by apply IH.
Qed.

Lemma filter_cubes_coords (c c' : Cube) (axis : Z) (target : float) :
  axis_coords c' axis = axis_coords c axis →
  filter_cubes c' axis target = filter_cubes c axis target.
Proof. intros H. unfold filter_cubes. by rewrite H. Qed.

Lemma rotate_cubes_turned (rotate : rotation_function) (axis : Z)
    (filter_ angle : float) (cubes cubes' : list Cube) :
  holds_coordinate rotate axis →
  rotate_cubes cubes axis filter_ rotate angle = Ok cubes' →
  Forall2 (λ c c',
             (∀ target, filter_cubes c' axis target = filter_cubes c axis target)
             ∧ x c' = x c ∧ y c' = y c ∧ z c' = z c
             ∧ colours c' = colours c
             ∧ colour <$> cube c' = colour <$> cube c
             ∧ (filter_cubes c axis filter_ = Ok false → c' = c))
    cubes cubes'.
Proof.
  intros Hholds. unfold rotate_cubes.
  destruct (comprehension (λ c, filter_cubes c axis filter_) cubes)
    as [chosen|] eqn:Hchosen; cbn [mbind result_bind]; [|done].
  intros Hrun. pose proof (length_comprehension _ _ _ Hchosen) as Hlen.
  pose proof (for_each_preserves
                (λ after, Forall2 (turned axis) (zip chosen cubes) after)
                (range 90) (λ _, turn_chosen rotate angle chosen) cubes cubes'
                (turned_refl axis chosen cubes Hlen)) as Hinv.
  specialize (Hinv ltac:(intros ? s s1 Hs; by apply turn_chosen_turned) Hrun).
  clear Hrun. revert chosen cubes' Hchosen Hlen Hinv.
  induction cubes as [|c cubes IH]; intros chosen cubes' Hchosen Hlen Hinv.
  { destruct chosen; [|done]. cbn in Hinv.
    apply Forall2_nil_inv_l in Hinv as ->. constructor. }
  destruct chosen as [|keep chosen]; [done|]. cbn [zip zip_with] in Hinv.
  apply Forall2_cons_inv_l in Hinv as (c' & cubes1 & Hc & Hinv & ->).
  cbn [comprehension] in Hchosen.
  destruct (filter_cubes c axis filter_) as [k|] eqn:Hk;
    cbn [mbind result_bind mret result_ret] in Hchosen; [|done].
  destruct (comprehension (λ c, filter_cubes c axis filter_) cubes)
    as [ks|] eqn:Hks; cbn [mbind result_bind mret result_ret] in Hchosen;
    [|done].
  injection Hchosen as <- <-. constructor.
  - destruct Hc as (H1 & H2 & H3 & H4 & H5 & H6 & H7).
    split; [intros target; by apply filter_cubes_coords|].
    repeat split; [done..|]. intros Hfalse. rewrite Hk in Hfalse.
    injection Hfalse as ->. by apply H7.
  - eapply IH; [done|by injection Hlen|exact Hinv].
Qed.

Lemma comprehension_total {A B} (P : A → Prop) (Q : B → Prop)
    (f : A → result B) (xs : list A) :
  (∀ x, P x → ∃ y, f x = Ok y ∧ Q y) →
  Forall P xs →
  ∃ ys, comprehension f xs = Ok ys ∧ Forall Q ys ∧ length ys = length xs.
Proof.
  intros Hf. induction 1 as [|x xs Hx Hxs (ys & Hys & HQ & Hlen)];
    cbn [comprehension].
  { by exists []. }
  destruct (Hf x Hx) as (y & -> & Hy). cbn [mbind result_bind]. rewrite Hys.
  cbn [mbind result_bind mret result_ret]. exists (y :: ys).
  split; [done|]. split; [by constructor|]. cbn. by rewrite Hlen.
Qed.

Lemma comprehension_concat {A B} (f : A → result B) (xss : list (list A))
    (yss : list (list B)) :
  comprehension (comprehension f) xss = Ok yss →
  comprehension f (concat xss) = Ok (concat yss).
Proof.
  revert yss. induction xss as [|xs xss IH]; intros yss; cbn [comprehension].
  { by intros [= <-]. }
  destruct (comprehension f xs) as [ys|] eqn:Hys;
    cbn [mbind result_bind mret result_ret]; [|by intros ?].
  destruct (comprehension (comprehension f) xss) as [yss1|] eqn:Hyss;
    cbn [mbind result_bind mret result_ret]; [|by intros ?].
  intros [= <-]. cbn [concat]. rewrite comprehension_app, Hys.
  cbn [mbind result_bind]. by rewrite (IH yss1 eq_refl).
Qed.

Lemma py_get_inside (vert : list float) (k : Z) :
  length vert = 3%nat → (0 ≤ k ≤ 2)%Z → ∃ v, py_get vert k = Ok v.
Proof.
  intros Hlen Hk. destruct vert as [|a [|b [|c [|? ?]]]]; try discriminate Hlen.
  assert (k = 0 ∨ k = 1 ∨ k = 2)%Z as [-> | [-> | ->]] by lia; by eexists.
Qed.

Lemma rotations_return (m : engine.libm) (angle s c : float)
    (vert : list float) :
  engine.sin m (engine.radians m angle) = Ok s →
  engine.cos m (engine.radians m angle) = Ok c →
  length vert = 3%nat →
  (∃ out, engine.rotate_x m vert [0; 0; 0] angle = Ok out ∧ length out = 3%nat)
  ∧ (∃ out, engine.rotate_y m vert [0; 0; 0] angle = Ok out
            ∧ length out = 3%nat)
  ∧ (∃ out, engine.rotate_z m vert [0; 0; 0] angle = Ok out
            ∧ length out = 3%nat).
Proof.
  intros Hs Hc Hlen.
  destruct vert as [|v0 [|v1 [|v2 [|? ?]]]]; try discriminate Hlen.
  unfold engine.rotate_x, engine.rotate_y, engine.rotate_z, engine.rotation.
  rewrite Hs, Hc. repeat split; by eexists.
Qed.

Lemma comprehension_Forall {A B} (Q : B → Prop) (f : A → result B)
    (xs : list A) (ys : list B) :
  (∀ x y, f x = Ok y → Q y) →
  comprehension f xs = Ok ys → Forall Q ys.
Proof.
  intros Hf. revert ys. induction xs as [|x xs IH]; intros ys;
    cbn [comprehension].
  { by intros [= <-]. }
  destruct (f x) as [y|] eqn:Hy; cbn [mbind result_bind mret result_ret];
    [|by intros ?].
  destruct (comprehension f xs) as [l|];
    cbn [mbind result_bind mret result_ret]; [|by intros ?].
  intros [= <-]. constructor; [by eapply Hf|by apply IH].
Qed.

Lemma turn_shapes_polys (rotate : rotation_function) (angle : float)
    (shs shs' : list Shape) :
  comprehension (turn_shape rotate angle) shs = Ok shs' →
  comprehension (comprehension (λ vert, rotate vert [0; 0; 0] angle))
    (poly <$> shs) = Ok (poly <$> shs').
Proof.
  revert shs'. induction shs as [|sh shs IH]; intros shs'; cbn [comprehension].
  { by intros [= <-]. }
  destruct (turn_shape rotate angle sh) as [sh'|] eqn:Hsh;
    cbn [mbind result_bind mret result_ret]; [|by intros ?].
  destruct (comprehension (turn_shape rotate angle) shs)
    as [shs1|] eqn:Hshs; cbn [mbind result_bind mret result_ret];
    [|by intros ?].
  intros [= <-]. unfold turn_shape in Hsh. rewrite !fmap_cons.
  cbn [comprehension].
  destruct (comprehension (λ vert, rotate vert [0; 0; 0] angle) (poly sh))
    as [poly'|] eqn:Hpoly; cbn [mbind result_bind mret result_ret] in Hsh |- *;
    [|discriminate Hsh].
  injection Hsh as <-. rewrite (IH shs1 eq_refl).
  by cbn [mbind result_bind mret result_ret poly].
Qed.

(** A rotation that returns three coordinates on three coordinates turns
    a solid cube into a solid cube. *)
Lemma turn_cube_solid (rotate : rotation_function) (angle : float) (c : Cube) :
  (∀ vert, length vert = 3%nat →
     ∃ out, rotate vert [0; 0; 0] angle = Ok out ∧ length out = 3%nat) →
  solid c →
  ∃ c', turn_cube rotate angle c = Ok c' ∧ solid c'.
Proof.
  intros Hrot [Hne Hverts]. unfold turn_cube.
  pose proof Hverts as Hshs. apply Forall_concat in Hshs.
  rewrite Forall_fmap in Hshs.
  destruct (comprehension_total
              (λ sh, Forall (λ vert : list float, length vert = 3%nat) (poly sh))
              (λ _, True) (turn_shape rotate angle) (cube c))
    as (shapes & Hshapes & _ & _); [|exact Hshs|].
  { intros sh Hsh. unfold turn_shape.
    destruct (comprehension_total (λ vert : list float, length vert = 3%nat)
                (λ _, True) (λ vert, rotate vert [0; 0; 0] angle) (poly sh))
      as (poly' & -> & _); [|exact Hsh|by eexists].
    intros vert Hvert. destruct (Hrot vert Hvert) as (out & -> & _).
    by eexists. }
  rewrite Hshapes. cbn [mbind result_bind mret result_ret]. eexists.
  split; [reflexivity|]. unfold solid. cbn [cube].
  pose proof (comprehension_concat _ _ _
                (turn_shapes_polys rotate angle _ _ Hshapes)) as Hconcat.
  destruct (comprehension_total (λ vert : list float, length vert = 3%nat)
              (λ out : list float, length out = 3%nat)
              (λ vert, rotate vert [0; 0; 0] angle)
              (concat (poly <$> cube c)) Hrot Hverts)
    as (outs & Houts & Hthree & Hlen).
  rewrite Houts in Hconcat. injection Hconcat as <-. split; [|exact Hthree].
  intros Hnil. rewrite Hnil in Hlen. by destruct (concat (poly <$> cube c)).
Qed.

Lemma turn_chosen_solid (rotate : rotation_function) (angle : float)
    (chosen : list bool) (cubes : list Cube) :
  (∀ vert, length vert = 3%nat →
     ∃ out, rotate vert [0; 0; 0] angle = Ok out ∧ length out = 3%nat) →
  Forall solid cubes →
  ∃ cubes', turn_chosen rotate angle chosen cubes = Ok cubes'
            ∧ Forall solid cubes' ∧ length cubes' = length cubes.
Proof.
  intros Hrot Hsolid. revert chosen.
  induction Hsolid as [|c cubes Hc Hcubes IH]; intros chosen.
  { exists []. by destruct chosen. }
  destruct chosen as [|keep chosen].
  { exists (c :: cubes). split; [done|]. split; [by constructor|done]. }
  cbn [turn_chosen].
  destruct (IH chosen) as (cubes' & Hrun & Hsolid' & Hlen).
  destruct keep.
  - destruct (turn_cube_solid rotate angle c Hrot Hc) as (c' & -> & Hc').
    cbn [mbind result_bind]. rewrite Hrun.
    cbn [mbind result_bind mret result_ret]. exists (c' :: cubes').
    split; [done|]. split; [by constructor|]. cbn. by rewrite Hlen.
  - cbn [mbind result_bind]. rewrite Hrun.
    cbn [mbind result_bind mret result_ret]. exists (c :: cubes').
    split; [done|]. split; [by constructor|]. cbn. by rewrite Hlen.
Qed.

Lemma filter_cubes_solid (c : Cube) (axis : Z) (target : float) :
  (0 ≤ axis ≤ 2)%Z → solid c → ∃ keep, filter_cubes c axis target = Ok keep.
Proof.
  intros Haxis [Hne Hverts]. unfold filter_cubes, axis_coords.
  destruct (comprehension_total (λ vert : list float, length vert = 3%nat)
              (λ _, True) (λ vert, py_get vert axis)
              (concat (poly <$> cube c))) as (coords & -> & _ & Hlen);
    [|exact Hverts|].
  { intros vert Hvert. destruct (py_get_inside vert axis Hvert Haxis) as [v ->].
    by eexists. }
  cbn [mbind result_bind].
  destruct coords as [|first rest];
    [by destruct (concat (poly <$> cube c))|].
  cbn [py_max py_min mbind result_bind mret result_ret].
  destruct (target <? _); by eexists.
Qed.

Lemma model_is_solid : Forall solid main.ALL_CUBES.
Proof.
  apply Forall_forall. intros cb Hcb.
  apply list_elem_of_In in Hcb. vm_compute in Hcb.
  repeat (destruct Hcb as [<- | Hcb];
          [split; [discriminate|by repeat constructor]|]).
  destruct Hcb.
Qed.

End turning_support.

(** * Supporting lemmas: the merge sort of the shapes *)
Section sorting_support.
Import shape.
Context {A K : Type}.
Variable func : A → result K.
Variable gt : K → K → bool.
Variable key : A → K.
Hypothesis gt_asym : ∀ x y, gt x y = true → gt y x = false.

Lemma merge_loop_cons (a b : A) (one two three : list A) :
  merge_loop func gt (a :: one) (b :: two) three
  = (key_one ← func a;
     key_two ← func b;
     if gt key_one key_two
     then merge_loop func gt (a :: one) two (three ++ [b])
     else merge_loop func gt one (b :: two) (three ++ [a])).
Proof. reflexivity. Qed.

Lemma merge_loop_run (array_one array_two array_three : list A) :
  Forall (λ a, func a = Ok (key a)) array_one →
  Forall (λ a, func a = Ok (key a)) array_two →
  ∃ l,
    merge_loop func gt array_one array_two array_three = Ok (array_three ++ l)
    ∧ l ≡ₚ array_one ++ array_two
    ∧ (Sorted (not_after key gt) array_one →
       Sorted (not_after key gt) array_two →
       Sorted (not_after key gt) l
       ∧ ∀ x, HdRel (not_after key gt) x array_one →
              HdRel (not_after key gt) x array_two →
              HdRel (not_after key gt) x l).
Proof.
  revert array_two array_three.
  induction array_one as [|a one IH]; intros two three Hone Htwo.
  { exists two. split; [done|]. split; [done|]. intros _ Hs.
    split; [done|]. by intros x _ ?. }
  apply Forall_cons in Hone as [Ha Hone].
  revert three. induction Htwo as [|b two Hb Htwo IHtwo]; intros three.
  { exists (a :: one). split; [cbn [merge_loop]; by rewrite app_nil_r|].
    split; [by rewrite app_nil_r|]. intros Hs _. split; [done|].
    by intros x ? _. }
  rewrite merge_loop_cons, Ha, Hb. cbn [mbind result_bind].
  destruct (gt (key a) (key b)) eqn:Hgt.
  - destruct (IHtwo (three ++ [b])) as (l & Hrun & Hperm & Hsorted).
    exists (b :: l). split; [|split].
    + rewrite <- app_assoc in Hrun. exact Hrun.
    + rewrite Hperm. by rewrite Permutation_middle.
    + intros Hs1 Hs2. apply Sorted_inv in Hs2 as [Hs2 Hhd2].
      destruct (Hsorted Hs1 Hs2) as [Hl Hhd]. split.
      * constructor; [done|]. apply Hhd; [|done].
        constructor. by apply gt_asym.
      * intros x _ Hx. apply HdRel_inv in Hx. by constructor.
  - destruct (IH (b :: two) (three ++ [a]) Hone) as (l & Hrun & Hperm & Hsorted).
    { by constructor. }
    exists (a :: l). split; [|split].
    + rewrite <- app_assoc in Hrun. exact Hrun.
    + by rewrite Hperm.
    + intros Hs1 Hs2. apply Sorted_inv in Hs1 as [Hs1 Hhd1].
      destruct (Hsorted Hs1 Hs2) as [Hl Hhd]. split.
      * constructor; [done|]. apply Hhd; [done|]. by constructor.
      * intros x Hx _. apply HdRel_inv in Hx. by constructor.
Qed.

Lemma merge_sort_run (limit : nat) (arr : list A) :
  arr ≠ [] →
  (length arr ≤ limit)%nat →
  Forall (λ a, func a = Ok (key a)) arr →
  ∃ l,
    merge_sort func gt limit arr = Within (Ok l)
    ∧ l ≡ₚ arr ∧ Sorted (not_after key gt) l.
Proof.
  revert arr. induction limit as [|limit IH]; intros arr Hne Hlen Hfunc.
  { destruct arr; [done|cbn in Hlen; lia]. }
  cbn [merge_sort]. destruct (length arr =? 1)%nat eqn:Hone.
  { apply Nat.eqb_eq in Hone. destruct arr as [|x [|? ?]]; try done.
    exists [x]. split; [done|]. split; [done|]. by repeat constructor. }
  apply Nat.eqb_neq in Hone.
  assert (2 ≤ length arr)%nat as Hlong.
  { destruct arr as [|? [|? ?]]; [done|cbn in Hone; lia|cbn; lia]. }
  pose proof (Nat.div_mod_eq (length arr) 2) as Hdiv.
  pose proof (Nat.mod_upper_bound (length arr) 2 ltac:(lia)) as Hmod.
  rewrite <- (take_drop (length arr `div` 2) arr) in Hfunc.
  apply Forall_app in Hfunc as [Hf1 Hf2].
  destruct (IH (take (length arr `div` 2) arr)) as (l1 & -> & Hp1 & Hs1);
    [| |done|].
  { intros Hnil. apply (f_equal length) in Hnil.
    rewrite length_take in Hnil. cbn [length] in Hnil. lia. }
  { rewrite length_take. lia. }
  destruct (IH (drop (length arr `div` 2) arr)) as (l2 & -> & Hp2 & Hs2);
    [| |done|].
  { intros Hnil. apply (f_equal length) in Hnil.
    rewrite length_drop in Hnil. cbn [length] in Hnil. lia. }
  { rewrite length_drop. lia. }
  destruct (merge_loop_run l1 l2 []) as (l & Hrun & Hperm & Hsorted).
  { by rewrite Hp1. }
  { by rewrite Hp2. }
  exists l. unfold merge. rewrite Hrun. split; [done|]. split.
  - rewrite Hperm, Hp1, Hp2. by rewrite take_drop.
  - by apply Hsorted.
Qed.

Lemma merge_sort_nil (limit : nat) :
  merge_sort func gt limit [] = RecursionError.
Proof. induction limit as [|limit IH]; [done|]. cbn. by rewrite IH. Qed.

End sorting_support.

Section sorted_shapes.
Import shape.
#[local] Open Scope float_scope.

Lemma float_gt_asym (x y : float) : (y <? x) = true → (x <? y) = false.
Proof.
  intros Hyx. destruct (x <? y) eqn:Hxy; [|done].
  apply ltb_rank in Hyx as (ry & rx & Hy & Hx & Hlt).
  apply ltb_rank in Hxy as (rx' & ry' & Hx' & Hy' & Hlt').
  simplify_eq. unfold lt3 in *. lia.
Qed.

Lemma Sorted_snoc {A} (R : A → A → Prop) (l : list A) (x : A) :
  Sorted R l → (∀ y, last l = Some y → R y x) → Sorted R (l ++ [x]).
Proof.
  induction 1 as [|a l Hl IH Hhd]; intros Hlast; cbn [app].
  { by repeat constructor. }
  constructor.
  - apply IH. intros y Hy. apply Hlast. destruct l; [done|exact Hy].
  - destruct Hhd as [|b l Hab]; cbn [app]; constructor; [|done].
    by apply Hlast.
Qed.

Lemma Sorted_reverse {A} (R : A → A → Prop) (l : list A) :
  Sorted R l → Sorted (flip R) (reverse l).
Proof.
  induction 1 as [|a l Hl IH Hhd]; [constructor|].
  rewrite reverse_cons. apply Sorted_snoc; [done|].
  intros y Hy. rewrite last_reverse in Hy.
  destruct Hhd as [|b l Hab]; [done|]. cbn in Hy. by injection Hy as <-.
Qed.

Lemma get_sorted_shapes_run (m : engine.libm) (n : numerics) (limit : nat)
    (shapes : list cube.Shape) (camera_pos : list float)
    (rotated_shapes : list (list (list float)))
    (key : cube.Shape * list (list float) → float) :
  shapes ≠ [] →
  (length shapes ≤ limit)%nat →
  cube.comprehension
    (λ shape, rotate_shape m shape (cube.orientation_x shape)
                (cube.orientation_y shape)) shapes = Ok rotated_shapes →
  Forall (λ item, distance n camera_pos item = Ok (key item))
    (zip shapes rotated_shapes) →
  ∃ sorted_shapes,
    get_sorted_shapes m n limit shapes camera_pos
    = Within (Ok sorted_shapes.*1)
    ∧ sorted_shapes ≡ₚ zip shapes rotated_shapes
    ∧ sorted_shapes.*1 ≡ₚ shapes
    ∧ Sorted (λ item next, (key item <? key next) = false) sorted_shapes.
Proof.
  intros Hne Hlimit Hrot Hkeys. unfold get_sorted_shapes. rewrite Hrot.
  pose proof (length_comprehension _ _ _ Hrot) as Hlen.
  destruct (merge_sort_run (distance n camera_pos) (λ a b, b <? a) key
              float_gt_asym limit (zip shapes rotated_shapes))
    as (l & -> & Hperm & Hsorted); [| |done|].
  { destruct shapes, rotated_shapes; done. }
  { rewrite length_zip. lia. }
  exists (reverse l). split; [done|]. split; [by rewrite reverse_Permutation|].
  split.
  - rewrite reverse_Permutation, Hperm. by rewrite fst_zip by lia.
  - apply Sorted_reverse in Hsorted. exact Hsorted.
Qed.

End sorted_shapes.

(** * The properties of the specification *)

(** ** The facelet state machine *)
Section facelet_moves.
Import rubix_2d.

(** C2: for every clockwise move [m] in 1..9 and every facelet state,
    [rotate_side m] followed by [rotate_side (m + 9)] succeeds and yields
    exactly the original state; and on every store that represents the
    state, the two calls succeed and leave a store that represents it. *)
Theorem counter_clockwise_undoes_clockwise (m : Z) (self : Rubix2D) :
  1 ≤ m ≤ 9 →
  well_formed self = true →
  rotate_side m self ≫= rotate_side (m + 9) = Ok self
  ∧ ∀ s rubix, represents s rubix self →
      ∃ s' rubix',
        (rubix_store.rotate_side m rubix ≫= rubix_store.rotate_side (m + 9)) s
        = (s', Ok rubix')
        ∧ represents s' rubix' self.
Proof.
  intros Hm Hwf.
  assert (Hback : rotate_side m self ≫= rotate_side (m + 9) = Ok self).
  { explode_state self Hwf. apply Z_cases_1_9 in Hm.
    repeat (destruct Hm as [-> | Hm]); try subst m; vm_compute; reflexivity. }
  split; [done|]. intros s rubix Hrep.
  destruct (rotate_side m self) as [turned|] eqn:Hturn; [|discriminate].
  cbn in Hback.
  destruct (rotate_side_represents m s rubix self turned Hrep Hturn)
    as (s1 & rubix1 & Hrun1 & Hrep1).
  destruct (rotate_side_represents (m + 9) s1 rubix1 turned self Hrep1 Hback)
    as (s2 & rubix2 & Hrun2 & Hrep2).
  exists s2, rubix2. split; [|done]. by rewrite (run_bind _ _ _ _ _ Hrun1).
Qed.

Lemma counter_clockwise_undoes_clockwise_witness :
  rotate_side 6 init ≫= rotate_side (6 + 9) = Ok init
  ∧ ∃ s rubix,
      rubix_store.Rubix2D_new rubix_store.empty = (s, Ok rubix)
      ∧ ∃ s' rubix',
          (rubix_store.rotate_side 6 rubix ≫= rubix_store.rotate_side (6 + 9)) s
          = (s', Ok rubix')
          ∧ represents s' rubix' init.
Proof.
  destruct (counter_clockwise_undoes_clockwise 6 init) as [Hvalue Hstore];
    [lia | reflexivity |].
  split; [exact Hvalue|].
  destruct Rubix2D_new_represents as (s & rubix & Hnew & Hrep).
  exists s, rubix. split; [exact Hnew|]. by apply Hstore.
Defined.

(** C3: a fresh [Rubix2D] is solved, and each of the eighteen moves,
    applied once to it, succeeds and leaves a state that is not solved;
    so it is on the store that [Rubix2D()] builds. *)
Theorem solved_initially_and_after_no_single_move :
  is_solved init = true
  ∧ ((rubix ← rubix_store.Rubix2D_new; rubix_store.is_solved rubix)
       rubix_store.empty).2 = Ok true
  ∧ ∀ m : Z, 1 ≤ m ≤ 18 →
      (∃ self', rotate_side m init = Ok self' ∧ is_solved self' = false)
      ∧ ((rubix ← rubix_store.Rubix2D_new;
          rubix ← rubix_store.rotate_side m rubix;
          rubix_store.is_solved rubix) rubix_store.empty).2 = Ok false.
Proof.
  split; [by vm_compute|]. split; [by vm_compute|].
  intros m Hm.
  assert (Hcases : (1 ≤ m ≤ 9) ∨ (1 ≤ m - 9 ≤ 9)) by lia.
  destruct Hcases as [H | H]; apply Z_cases_1_9 in H;
    repeat (destruct H as [H | H]);
    (replace m with (m - 9 + 9) by lia); try rewrite H;
    (split;
     [ eexists; split; [vm_compute; reflexivity | by vm_compute]
     | by vm_compute ]).
Qed.

Lemma solved_initially_and_after_no_single_move_witness :
  1 ≤ 1 ≤ 18
  ∧ (∃ self', rotate_side 1 init = Ok self' ∧ is_solved self' = false)
  ∧ ((rubix ← rubix_store.Rubix2D_new;
      rubix ← rubix_store.rotate_side 1 rubix;
      rubix_store.is_solved rubix) rubix_store.empty).2 = Ok false.
Proof.
  split; [lia|].
  apply (proj2 (proj2 solved_initially_and_after_no_single_move) 1); lia.
Defined.

(** C4: every move in 1..18 succeeds on every facelet state and permutes
    its 54 cells, so the number of cells of each colour, over the six
    grids together, is unchanged; and on every store that represents the
    state, the move succeeds and leaves a store that represents the
    permuted state. *)
Theorem moves_conserve_colour_counts (m : Z) (self : Rubix2D) :
  1 ≤ m ≤ 18 →
  well_formed self = true →
  ∃ self', rotate_side m self = Ok self'
    ∧ cells self' ≡ₚ cells self
    ∧ (∀ c, count_colour c self' = count_colour c self)
    ∧ ∀ s rubix, represents s rubix self →
        ∃ s' rubix', rubix_store.rotate_side m rubix s = (s', Ok rubix')
                     ∧ represents s' rubix' self'.
Proof.
  intros Hm Hwf.
  cut (∃ self', rotate_side m self = Ok self' ∧ cells self' ≡ₚ cells self).
  { intros (self' & Hrun & Hperm). exists self'. repeat split; [done..| |].
    - intros c. unfold count_colour. by rewrite Hperm.
    - intros s rubix Hrep. by eapply rotate_side_represents. }
  explode_state self Hwf.
  apply Z_cases_1_18 in Hm.
  destruct Hm as [Hm | Hm]; repeat (destruct Hm as [-> | Hm]); try subst m;
    (eexists; split; [vm_compute; reflexivity | vm_compute; solve_perm]).
Qed.

Lemma moves_conserve_colour_counts_witness :
  ∃ self', rotate_side 4 init = Ok self'
    ∧ cells self' ≡ₚ cells init
    ∧ (∀ c, count_colour c self' = count_colour c init)
    ∧ ∃ s rubix,
        rubix_store.Rubix2D_new rubix_store.empty = (s, Ok rubix)
        ∧ ∃ s' rubix', rubix_store.rotate_side 4 rubix s = (s', Ok rubix')
                       ∧ represents s' rubix' self'.
Proof.
  destruct (moves_conserve_colour_counts 4 init)
    as (self' & Hrun & Hperm & Hcount & Hstore); [lia | reflexivity |].
  exists self'. repeat split; [exact Hrun | exact Hperm | exact Hcount |].
  destruct Rubix2D_new_represents as (s & rubix & Hnew & Hrep).
  exists s, rubix. split; [exact Hnew|]. by apply Hstore.
Defined.

(** C7, as the specification states it, fails: 19 is outside 1..18, yet
    [rotate_side 19] raises nothing and returns, on facelet values and on
    the store. *)
Lemma rotate_side_19_returns_normally :
  ¬ (1 ≤ 19 ≤ 18)
  ∧ rotate_side 19 init = Ok init
  ∧ (¬ ∃ e, rotate_side 19 init = Raise e)
  ∧ ∃ s rubix,
      rubix_store.Rubix2D_new rubix_store.empty = (s, Ok rubix)
      ∧ rubix_store.rotate_side 19 rubix s = (s, Ok rubix).
Proof.
  split; [lia|]. split; [reflexivity|]. split.
  - intros [e He]. discriminate He.
  - eexists _, _. split; [vm_compute; reflexivity | reflexivity].
Qed.

(** C7, amended: for every move identifier outside 1..18, [rotate_side]
    raises no error; it returns normally and leaves the state, and the
    store, as they were. *)
Theorem rotate_side_ignores_unknown_moves (m : Z) :
  ¬ (1 ≤ m ≤ 18) →
  (∀ self, rotate_side m self = Ok self)
  ∧ (∀ s rubix, rubix_store.rotate_side m rubix s = (s, Ok rubix)).
Proof.
  intros Hm. destruct m as [|p|p]; [by split| |by split].
  do 5 (try destruct p as [p|p|]); try (by split); lia.
Qed.

Lemma rotate_side_ignores_unknown_moves_witness :
  (∀ self, rotate_side 0 self = Ok self)
  ∧ (∀ s rubix, rubix_store.rotate_side 0 rubix s = (s, Ok rubix)).
Proof.
  apply (rotate_side_ignores_unknown_moves 0); lia.
Defined.

(** C8: on every facelet state and for every number of iterations, a turn
    of a middle layer succeeds and rotates no grid: [rotate_x 1] returns
    the top and bottom grids as they were, [rotate_y 1] the left and right
    grids, [rotate_z 1] the front and back grids.  Of the four other
    grids only the middle strip changes: what is left of them without
    that row, or that column, is as it was.  And on every store that
    represents the state, the turn succeeds and leaves a store that
    represents the state so turned. *)
Theorem middle_layer_turn_rotates_no_grid (iters : Z) (self : Rubix2D) :
  well_formed self = true →
  (∃ self', rotate_x 1 iters self = Ok self'
     ∧ top self' = top self ∧ bottom self' = bottom self
     ∧ Forall (λ side, without_row 1 (side self') = without_row 1 (side self))
         [front; right; back; left]
     ∧ ∀ s rubix, represents s rubix self →
         ∃ s' rubix', rubix_store.rotate_x 1 iters rubix s = (s', Ok rubix')
                      ∧ represents s' rubix' self')
  ∧ (∃ self', rotate_y 1 iters self = Ok self'
     ∧ left self' = left self ∧ right self' = right self
     ∧ Forall (λ side,
                 without_column 1 (side self') = without_column 1 (side self))
         [front; bottom; top; back]
     ∧ ∀ s rubix, represents s rubix self →
         ∃ s' rubix', rubix_store.rotate_y 1 iters rubix s = (s', Ok rubix')
                      ∧ represents s' rubix' self')
  ∧ (∃ self', rotate_z 1 iters self = Ok self'
     ∧ front self' = front self ∧ back self' = back self
     ∧ Forall (λ side, without_row 1 (side self') = without_row 1 (side self))
         [top; bottom]
     ∧ Forall (λ side,
                 without_column 1 (side self') = without_column 1 (side self))
         [right; left]
     ∧ ∀ s rubix, represents s rubix self →
         ∃ s' rubix', rubix_store.rotate_z 1 iters rubix s = (s', Ok rubix')
                      ∧ represents s' rubix' self').
Proof.
  intros Hwf.
  assert (Hx : ∃ self', rotate_x 1 iters self = Ok self'
    ∧ top self' = top self ∧ bottom self' = bottom self
    ∧ Forall (λ side, without_row 1 (side self') = without_row 1 (side self))
        [front; right; back; left]).
  { unfold rotate_x.
    destruct (for_each_invariant
      (λ s, well_formed s = true ∧ top s = top self ∧ bottom s = bottom self
            ∧ Forall (λ side, without_row 1 (side s) = without_row 1 (side self))
                [front; right; back; left])
      (range iters) (λ _, rotate_x_step 1) self) as (s' & -> & _ & H);
      [by repeat constructor| |by exists s'].
    intros _ s (Hs & Ht & Hb & H).
    rewrite !Forall_cons in H. destruct H as (Hf & Hr & Hk & Hl & _).
    explode_state s Hs.
    eexists. split; [vm_compute; reflexivity|].
    split; [done|]. split; [done|]. split; [done|]. by repeat constructor. }
  assert (Hy : ∃ self', rotate_y 1 iters self = Ok self'
    ∧ left self' = left self ∧ right self' = right self
    ∧ Forall (λ side,
                without_column 1 (side self') = without_column 1 (side self))
        [front; bottom; top; back]).
  { unfold rotate_y.
    destruct (for_each_invariant
      (λ s, well_formed s = true ∧ left s = left self ∧ right s = right self
            ∧ Forall (λ side,
                        without_column 1 (side s) = without_column 1 (side self))
                [front; bottom; top; back])
      (range iters) (λ _, rotate_y_step 1) self) as (s' & -> & _ & H);
      [by repeat constructor| |by exists s'].
    intros _ s (Hs & Hl & Hr & H).
    rewrite !Forall_cons in H. destruct H as (Hf & Hb & Ht & Hk & _).
    explode_state s Hs.
    eexists. split; [vm_compute; reflexivity|].
    split; [done|]. split; [done|]. split; [done|]. by repeat constructor. }
  assert (Hz : ∃ self', rotate_z 1 iters self = Ok self'
    ∧ front self' = front self ∧ back self' = back self
    ∧ Forall (λ side, without_row 1 (side self') = without_row 1 (side self))
        [top; bottom]
    ∧ Forall (λ side,
                without_column 1 (side self') = without_column 1 (side self))
        [right; left]).
  { unfold rotate_z.
    destruct (for_each_invariant
      (λ s, well_formed s = true ∧ front s = front self ∧ back s = back self
            ∧ Forall (λ side, without_row 1 (side s) = without_row 1 (side self))
                [top; bottom]
            ∧ Forall (λ side,
                        without_column 1 (side s) = without_column 1 (side self))
                [right; left])
      (range iters) (λ _, rotate_z_step 1) self) as (s' & -> & _ & H);
      [by repeat constructor| |by exists s'].
    intros _ s (Hs & Hf & Hk & H1 & H2).
    rewrite !Forall_cons in H1, H2.
    destruct H1 as (Ht & Hb & _), H2 as (Hr & Hl & _).
    explode_state s Hs.
    eexists. split; [vm_compute; reflexivity|].
    split; [done|]. split; [done|]. split; [done|].
    split; by repeat constructor. }
  destruct Hx as (sx & Hrunx & Hx1 & Hx2 & Hx3),
    Hy as (sy & Hruny & Hy1 & Hy2 & Hy3),
    Hz as (sz & Hrunz & Hz1 & Hz2 & Hz3 & Hz4).
  split; [|split].
  - exists sx. repeat split; [done..|].
    intros s rubix Hrep. by eapply rotate_x_represents.
  - exists sy. repeat split; [done..|].
    intros s rubix Hrep. by eapply rotate_y_represents.
  - exists sz. repeat split; [done..|].
    intros s rubix Hrep. by eapply rotate_z_represents.
Qed.

Lemma middle_layer_turn_rotates_no_grid_witness :
  ∃ self', rotate_x 1 5 init = Ok self'
    ∧ top self' = top init ∧ bottom self' = bottom init
    ∧ Forall (λ side, without_row 1 (side self') = without_row 1 (side init))
        [front; right; back; left]
    ∧ ∃ s rubix,
        rubix_store.Rubix2D_new rubix_store.empty = (s, Ok rubix)
        ∧ ∃ s' rubix', rubix_store.rotate_x 1 5 rubix s = (s', Ok rubix')
                       ∧ represents s' rubix' self'.
Proof.
  destruct (middle_layer_turn_rotates_no_grid 5 init)
    as [(self' & Hrun & Htop & Hbottom & Hrows & Hstore) _]; [reflexivity|].
  exists self'. split; [exact Hrun|]. split; [exact Htop|].
  split; [exact Hbottom|]. split; [exact Hrows|].
  destruct Rubix2D_new_represents as (s & rubix & Hnew & Hrep).
  exists s, rubix. split; [exact Hnew|]. by apply Hstore.
Defined.

End facelet_moves.

(** ** The solver *)
Section solver_properties.
Import rubix_store.

(** C10: whatever the store and the six grids passed, and however long
    the search runs, every list object that existed before the call is
    still in the store, unchanged, when the search returns, raises or is
    still running: the rows and grids of the store at the call are a
    prefix of the rows and grids after it.  So a grid that read as [v]
    before the call reads as [v] after it. *)
Theorem search_leaves_its_arguments (fuel : nat) (s : store)
    (top front left right back bottom : ref) :
  let s' := (breath_first_search fuel top front left right back bottom s).1 in
  rows s `prefix_of` rows s'
  ∧ grids s `prefix_of` grids s'
  ∧ ∀ g v, (snapshot g s).2 = Ok v → (snapshot g s').2 = Ok v.
Proof.
  intros s'.
  destruct (keeps_breath_first_search s fuel top front left right back bottom
              s (framed_refl s)) as [[Hun _] _].
  fold s' in Hun. split; [apply Hun|]. split; [apply Hun|].
  intros g v. by apply snapshot_prefix.
Qed.

Lemma search_leaves_its_arguments_witness :
  (snapshot 4%nat scrambled.1).2
    = Ok [["red"; "red"; "red"]; ["red"; "red"; "red"];
          ["green"; "green"; "green"]]
  ∧ (snapshot 4%nat
       (breath_first_search 1 0%nat 4%nat 2%nat 3%nat 5%nat 6%nat
          scrambled.1).1).2
    = Ok [["red"; "red"; "red"]; ["red"; "red"; "red"];
          ["green"; "green"; "green"]].
Proof.
  split; [reflexivity|].
  apply (search_leaves_its_arguments 1 scrambled.1 0%nat 4%nat 2%nat 3%nat
           5%nat 6%nat).
  reflexivity.
Defined.

(** C1: let [v] be the state that move 1 makes of the initial state.  It
    is not solved, and move 10 solves it.  On every store that represents
    [v], the search, given fuel for one pass of its loop or more, returns
    the one-move sequence [[10]].  The store that [Rubix2D()] followed by
    [rotate_side(1, rubix)] builds is such a store. *)
Theorem solver_undoes_move_1 :
  ∃ v : rubix_2d.Rubix2D,
    rubix_2d.rotate_side 1 rubix_2d.init = Ok v
    ∧ rubix_2d.is_solved v = false
    ∧ rubix_2d.is_solved <$> rubix_2d.rotate_side 10 v = Ok true
    ∧ length [10] = 1%nat
    ∧ (∀ (s : store) (rubix : Rubix2D) (fuel : nat),
         represents s rubix v →
         (breath_first_search (S fuel) (top rubix) (front rubix) (left rubix)
            (right rubix) (back rubix) (bottom rubix) s).2
         = Ok (Returned [10]))
    ∧ ∃ (s : store) (rubix : Rubix2D),
        scrambled = (s, Ok rubix) ∧ represents s rubix v.
Proof.
  eexists. split; [vm_compute; reflexivity|].
  split; [by vm_compute|]. split; [by vm_compute|]. split; [done|]. split.
  - intros s rubix fuel Hrep.
    eapply breath_first_search_first_move;
      [exact Hrep|by vm_compute| |by vm_compute].
    change (range_from 1 19)
      with [1; 2; 3; 4; 5; 6; 7; 8; 9; 10; 11; 12; 13; 14; 15; 16; 17; 18].
    repeat (constructor; [eexists; vm_compute; reflexivity|]). constructor.
  - destruct Rubix2D_new_represents as (s0 & rubix0 & Hnew & Hrep0).
    edestruct (rotate_side_represents 1 s0 rubix0) as (s1 & rubix1 & Hrun & Hrep1);
      [exact Hrep0|vm_compute; reflexivity|].
    exists s1, rubix1. split; [|exact Hrep1].
    unfold scrambled. by rewrite (run_bind _ _ _ _ _ Hnew).
Qed.

Lemma solver_undoes_move_1_witness :
  ∃ (s : store) (rubix : Rubix2D),
    scrambled = (s, Ok rubix)
    ∧ (breath_first_search 1 (top rubix) (front rubix) (left rubix)
         (right rubix) (back rubix) (bottom rubix) s).2
      = Ok (Returned [10]).
Proof.
  destruct solver_undoes_move_1
    as (v & _ & _ & _ & _ & Hsearch & s & rubix & Hscrambled & Hrep).
  exists s, rubix. split; [exact Hscrambled|]. by apply Hsearch.
Defined.

End solver_properties.

(** ** The transform engine *)
Section transform_engine.
Import engine.
#[local] Open Scope float_scope.

Lemma float_pos_not_le_zero (z : float) : (0 <? z) = true → (z <=? 0) = false.
Proof.
  intros Hpos. destruct (z <=? 0) eqn:Hle; [|done].
  apply ltb_rank in Hpos as (r0 & rz & H0 & Hz & Hlt).
  apply leb_rank in Hle as (rz' & r0' & Hz' & H0' & Hle).
  simplify_eq. unfold lt3, le3 in *. lia.
Qed.

(** C5: [transform_coord] raises [TransformationError] exactly when the z
    component of the point is [<= 0]; when it is [> 0] the function returns
    the point [(x / z * 15 * scale_factor, y / z * 15 * scale_factor)]. *)
Theorem transform_coord_raises_iff_not_in_front
    (x y z scale_factor : float) :
  (transform_coord [x; y; z] scale_factor = Raise TransformationError
     ↔ (z <=? 0) = true)
  ∧ ((∃ e, transform_coord [x; y; z] scale_factor = Raise e)
     ↔ (z <=? 0) = true)
  ∧ ((0 <? z) = true →
     transform_coord [x; y; z] scale_factor
     = Ok [x / z * 15 * scale_factor; y / z * 15 * scale_factor]).
Proof.
  unfold transform_coord. repeat split.
  - by destruct (z <=? 0).
  - by intros ->.
  - intros [e He]. by destruct (z <=? 0).
  - intros ->. by eexists.
  - intros Hpos. by rewrite (float_pos_not_le_zero z Hpos).
Qed.

Lemma transform_coord_raises_iff_not_in_front_witness :
  (0 <? 4) = true
  ∧ transform_coord [1; 2; 4] 25 = Ok [93.75; 187.5].
Proof.
  split; [reflexivity|].
  apply (proj2 (proj2 (transform_coord_raises_iff_not_in_front 1 2 4 25))).
  reflexivity.
Defined.

(** C6, as the specification states it, fails: at 180 degrees about the
    origin [rotate_x] sends the point (1, 0, 0) to a point whose x
    coordinate is -1, and [rotate_y] sends (0, 1, 0) to a point whose y
    coordinate is -1. *)
Lemma rotate_x_and_rotate_y_move_their_named_coordinate :
  (∃ out, rotate_x libm_at_180 [1; 0; 0] [0; 0; 0] 180 = Ok out
     ∧ out !! 0%nat = Some (-1) ∧ [1; 0; 0] !! 0%nat = Some 1
     ∧ (-1 =? 1) = false)
  ∧ (∃ out, rotate_y libm_at_180 [0; 1; 0] [0; 0; 0] 180 = Ok out
     ∧ out !! 1%nat = Some (-1) ∧ [0; 1; 0] !! 1%nat = Some 1
     ∧ (-1 =? 1) = false).
Proof.
  split; eexists; (split; [vm_compute; reflexivity|]); by repeat split.
Qed.

(** C6, amended: at every angle whose sine and cosine [math.sin] and
    [math.cos] return, and for every point and centre, [rotate_x] returns
    the y coordinate of the point as it is, [rotate_y] the x coordinate and
    [rotate_z] the z coordinate; the other two coordinates, taken relative
    to the centre, are turned by the cosine and sine of the angle.  At an
    angle where [math.sin] raises, or returns and [math.cos] raises, the
    three rotations raise the same exception, whatever the point and the
    centre.  On sequences of any length, whenever a rotation returns, the
    coordinate it holds is the one it was given. *)
Theorem rotations_hold_one_coordinate (m : libm) (angle : float) :
  (∀ s c,
     sin m (radians m angle) = Ok s →
     cos m (radians m angle) = Ok c →
     ∀ x y z cx cy cz,
       rotate_x m [x; y; z] [cx; cy; cz] angle
         = Ok [(x - cx) * c - (z - cz) * s + cx; y;
               (z - cz) * c + (x - cx) * s + cz]
       ∧ rotate_y m [x; y; z] [cx; cy; cz] angle
         = Ok [x; (y - cy) * c - (z - cz) * s + cy;
               (z - cz) * c + (y - cy) * s + cz]
       ∧ rotate_z m [x; y; z] [cx; cy; cz] angle
         = Ok [(x - cx) * c - (y - cy) * s + cx;
               (y - cy) * c + (x - cx) * s + cy; z])
  ∧ (∀ e,
       sin m (radians m angle) = Raise e
       ∨ (∃ s, sin m (radians m angle) = Ok s)
         ∧ cos m (radians m angle) = Raise e →
       ∀ vert center,
         rotate_x m vert center angle = Raise e
         ∧ rotate_y m vert center angle = Raise e
         ∧ rotate_z m vert center angle = Raise e)
  ∧ (∀ vert center out,
       rotate_x m vert center angle = Ok out →
       ∃ y, py_get vert 1 = Ok y ∧ out !! 1%nat = Some y)
  ∧ (∀ vert center out,
       rotate_y m vert center angle = Ok out →
       ∃ x, py_get vert 0 = Ok x ∧ out !! 0%nat = Some x)
  ∧ (∀ vert center out,
       rotate_z m vert center angle = Ok out →
       ∃ z, py_get vert 2 = Ok z ∧ out !! 2%nat = Some z).
Proof.
  unfold rotate_x, rotate_y, rotate_z, rotation. split; [|split].
  - intros s c -> ->. by repeat split.
  - intros e [-> | [[s ->] ->]]; by repeat split.
  - unfold rotate_x_func, rotate_y_func, rotate_z_func.
    repeat split; intros vert center out;
      destruct (sin m (radians m angle)) as [s|]; try discriminate;
      destruct (cos m (radians m angle)) as [c|]; try discriminate;
      destruct (py_get vert 0) as [v0|]; try discriminate;
      destruct (py_get vert 1) as [v1|]; try discriminate;
      destruct (py_get vert 2) as [v2|]; try discriminate;
      destruct (py_get center 0) as [c0|]; try discriminate;
      destruct (py_get center 1) as [c1|]; try discriminate;
      destruct (py_get center 2) as [c2|]; try discriminate;
      cbn; intros [= <-]; by eexists.
Qed.

Lemma rotations_hold_one_coordinate_witness :
  (sin libm_at_180 (radians libm_at_180 180) = Ok 0x1.1a62633145c07p-53
   ∧ cos libm_at_180 (radians libm_at_180 180) = Ok (-1)
   ∧ rotate_x libm_at_180 [1; 2; 3] [0; 0; 0] 180
     = Ok [(1 - 0) * -1 - (3 - 0) * 0x1.1a62633145c07p-53 + 0; 2;
           (3 - 0) * -1 + (1 - 0) * 0x1.1a62633145c07p-53 + 0])
  ∧ (sin libm_at_infinity (radians libm_at_infinity infinity)
     = Raise ValueError
     ∧ rotate_x libm_at_infinity [1; 2; 3] [0; 0; 0] infinity
       = Raise ValueError)
  ∧ ∃ out,
      rotate_x libm_at_180 [1; 2; 3] [0; 0; 0] 180 = Ok out
      ∧ ∃ y, py_get [1; 2; 3] 1 = Ok y ∧ out !! 1%nat = Some y.
Proof.
  split; [|split].
  - split; [reflexivity|]. split; [reflexivity|].
    apply (proj1 (rotations_hold_one_coordinate libm_at_180 180)
             0x1.1a62633145c07p-53 (-1) eq_refl eq_refl 1 2 3 0 0 0).
  - split; [reflexivity|].
    apply (proj1 (proj2 (rotations_hold_one_coordinate libm_at_infinity
                           infinity)) ValueError (or_introl eq_refl)
             [1; 2; 3] [0; 0; 0]).
  - eexists. split; [vm_compute; reflexivity|].
    apply (proj1 (proj2 (proj2 (rotations_hold_one_coordinate libm_at_180
                                  180))) [1; 2; 3] [0; 0; 0]).
    vm_compute; reflexivity.
Defined.

End transform_engine.

(** ** The solid model *)
Section solid_model.
Import cube main.
#[local] Open Scope float_scope.

Lemma filter_cubes_straddles (c : Cube) (index : Z) (target : float)
    (coords : list float) :
  axis_coords c index = Ok coords →
  no_nan coords →
  filter_cubes c index target = Ok true
  ↔ ∃ hi lo, greatest hi coords ∧ least lo coords
      ∧ (target <? hi) = true ∧ (lo <? target) = true.
Proof.
  intros Hcoords Hnan. unfold filter_cubes. rewrite Hcoords. simpl.
  destruct (py_max coords) as [hi|e] eqn:Hmax; simpl.
  - pose proof (py_max_greatest _ _ Hnan Hmax) as Hhi.
    destruct (py_min coords) as [lo|e] eqn:Hmin;
      [|by destruct coords].
    pose proof (py_min_least _ _ Hnan Hmin) as Hlo.
    destruct (target <? hi) eqn:Hcmp; simpl; split.
    + intros [= H]. by exists hi, lo.
    + intros (hi' & lo' & _ & Hlo' & _ & Hlt). f_equal.
      apply float_le_lt_trans with lo'; [|done].
      apply Hlo, Hlo'.
    + discriminate.
    + intros (hi' & lo' & Hhi' & _ & Hlt & _).
      assert ((target <? hi) = true); [|congruence].
      apply float_lt_le_trans with hi'; [done|]. apply Hhi, Hhi'.
  - split; [discriminate|]. intros (hi & _ & [Hin _] & _).
    destruct coords; [by apply elem_of_nil in Hin | discriminate].
Qed.

(** C9: the scene assembled at startup has 27 cubes; selecting on it the
    layer of axis 1 (y) at target 1 accepts exactly the cubes whose
    lattice coordinate [y] is 1, and there are 9 of them; and whenever the
    coordinates of a cube on an axis hold no NaN, [filter_cubes] accepts
    the cube exactly when a greatest of them is above the target and a
    least of them is below it. *)
Theorem y_layer_of_the_unrotated_model :
  assemble = Ok ALL_CUBES
  ∧ length ALL_CUBES = 27%nat
  ∧ select_layer ALL_CUBES 1 1 = Ok (filter (λ c, y c = 1%Z) ALL_CUBES)
  ∧ length (filter (λ c, y c = 1%Z) ALL_CUBES) = 9%nat
  ∧ ∀ (c : Cube) (index : Z) (target : float) (coords : list float),
      axis_coords c index = Ok coords →
      no_nan coords →
      filter_cubes c index target = Ok true
      ↔ ∃ hi lo, greatest hi coords ∧ least lo coords
          ∧ (target <? hi) = true ∧ (lo <? target) = true.
Proof.
  split; [by vm_compute|]. split; [by vm_compute|].
  split; [by vm_compute|]. split; [by vm_compute|].
  apply filter_cubes_straddles.
Qed.

Lemma y_layer_of_the_unrotated_model_witness :
  ∃ c coords,
    ALL_CUBES !! 9%nat = Some c
    ∧ axis_coords c 1 = Ok coords
    ∧ no_nan coords
    ∧ (filter_cubes c 1 1 = Ok true
       ↔ ∃ hi lo, greatest hi coords ∧ least lo coords
           ∧ (1 <? hi) = true ∧ (lo <? 1) = true).
Proof.
  eexists _, _. split; [reflexivity|].
  split; [vm_compute; reflexivity|].
  split; [by repeat constructor|].
  apply (proj2 (proj2 (proj2 (proj2 y_layer_of_the_unrotated_model)))).
  - vm_compute; reflexivity.
  - by repeat constructor.
Defined.

End solid_model.

(** * Further properties of the code *)

(** ** The solver returns a shortest solution *)
Section solver_guarantees.
Import rubix_store.

(** X1: whatever sequence the search returns, replaying it solves the
    state. *)
Theorem returned_steps_solve (fuel : nat) (s : store) (rubix : Rubix2D)
    (v : rubix_2d.Rubix2D) (steps : list Z) :
  represents s rubix v →
  rubix_2d.well_formed v = true →
  (breath_first_search fuel (top rubix) (front rubix) (left rubix)
     (right rubix) (back rubix) (bottom rubix) s).2 = Ok (Returned steps) →
  solves steps v = true
  ∧ Forall (λ m, 1 ≤ m ≤ 18) steps
  ∧ (steps = [] ↔ rubix_2d.is_solved v = true)
  ∧ ∃ s' rubix',
      for_each_m steps rotate_side rubix
        (breath_first_search fuel (top rubix) (front rubix) (left rubix)
           (right rubix) (back rubix) (bottom rubix) s).1
      = (s', Ok rubix')
      ∧ (is_solved rubix' s').2 = Ok true.
Proof.
  intros Hrep Hwf Hrun.
  assert (solves steps v = true ∧ Forall (λ m, 1 ≤ m ≤ 18) steps
          ∧ (steps = [] ↔ rubix_2d.is_solved v = true)) as (Hs & Hrange & Hnil).
  { rewrite (breath_first_search_on_values fuel s rubix v Hrep Hwf),
      breath_first_search_value in Hrun.
    destruct (rubix_2d.is_solved v) eqn:Hsolved.
    - injection Hrun as <-. split; [|split].
      + unfold solves, replay. cbn [for_each]. exact Hsolved.
      + constructor.
      + split; reflexivity.
    - destruct (search_sound v fuel _ steps (sound_root v Hwf) Hrun)
        as (Hs & Hrange & Hne).
      split; [exact Hs|]. split; [exact Hrange|].
      split; [intros ?; contradiction|discriminate]. }
  split; [exact Hs|]. split; [exact Hrange|]. split; [exact Hnil|].
  destruct (keeps_breath_first_search s fuel (top rubix) (front rubix)
              (left rubix) (right rubix) (back rubix) (bottom rubix)
              s (framed_refl s)) as [[Hun _] _].
  pose proof (represents_untouched _ _ _ _ Hun Hrep) as Hrep'.
  unfold solves in Hs. destruct (replay steps v) as [w|] eqn:Hw;
    [|discriminate Hs].
  destruct (replay_represents steps _ rubix v w Hrep' Hw)
    as (s' & rubix' & Hrun' & Hw').
  exists s', rubix'. split; [exact Hrun'|].
  rewrite (is_solved_represents _ _ _ Hw'). cbn [snd]. by rewrite Hs.
Qed.

Lemma returned_steps_solve_witness :
  ∃ s rubix,
    scrambled = (s, Ok rubix)
    ∧ solves [10] (turn 1 rubix_2d.init) = true
    ∧ ∃ s' rubix',
        for_each_m [10] rotate_side rubix
          (breath_first_search 1 (top rubix) (front rubix) (left rubix)
             (right rubix) (back rubix) (bottom rubix) s).1
        = (s', Ok rubix')
        ∧ (is_solved rubix' s').2 = Ok true.
Proof.
  destruct scrambled_search as (s & rubix & Hscr & Hrep & Hrun).
  exists s, rubix. split; [exact Hscr|].
  destruct (returned_steps_solve 1 s rubix (turn 1 rubix_2d.init) [10] Hrep
              eq_refl Hrun) as (Hs & _ & _ & Hreplay).
  split; [exact Hs|exact Hreplay].
Defined.

(** X2: the sequence the search returns is a shortest one: no sequence of
    moves that solves the state is shorter, whatever identifiers it is
    made of. *)
Theorem returned_steps_are_fewest (fuel : nat) (s : store) (rubix : Rubix2D)
    (v : rubix_2d.Rubix2D) (steps x : list Z) :
  represents s rubix v →
  rubix_2d.well_formed v = true →
  (breath_first_search fuel (top rubix) (front rubix) (left rubix)
     (right rubix) (back rubix) (bottom rubix) s).2 = Ok (Returned steps) →
  solves x v = true →
  (length steps ≤ length x)%nat.
Proof.
  intros Hrep Hwf Hrun Hx.
  rewrite (breath_first_search_on_values fuel s rubix v Hrep Hwf),
    breath_first_search_value in Hrun.
  destruct (rubix_2d.is_solved v) eqn:Hsolved.
  - injection Hrun as <-. cbn [length]. lia.
  - exact (search_minimal v fuel steps x Hwf Hsolved Hrun Hx).
Qed.

Lemma returned_steps_are_fewest_witness :
  solves [3; 10; 12] (turn 1 rubix_2d.init) = true
  ∧ ∃ s rubix,
      scrambled = (s, Ok rubix)
      ∧ (breath_first_search 1 (top rubix) (front rubix) (left rubix)
           (right rubix) (back rubix) (bottom rubix) s).2 = Ok (Returned [10])
      ∧ (length [10] ≤ length [3; 10; 12])%nat.
Proof.
  split; [by vm_compute|].
  destruct scrambled_search as (s & rubix & Hscr & Hrep & Hrun).
  exists s, rubix. split; [exact Hscr|]. split; [exact Hrun|].
  apply (returned_steps_are_fewest 1 s rubix (turn 1 rubix_2d.init) [10]
           [3; 10; 12] Hrep eq_refl Hrun).
  by vm_compute.
Defined.

(** X3: when some sequence [x] of moves solves the state, the search
    returns: a sequence no longer than [x], within the passes of its loop
    that empty the levels below [length x]. *)
Theorem search_returns_when_solvable (s : store) (rubix : Rubix2D)
    (v : rubix_2d.Rubix2D) (x : list Z) :
  represents s rubix v →
  rubix_2d.well_formed v = true →
  solves x v = true →
  ∃ steps,
    (length steps ≤ length x)%nat
    ∧ solves steps v = true
    ∧ ∀ fuel, (passes (length x) ≤ fuel)%nat →
        (breath_first_search fuel (top rubix) (front rubix) (left rubix)
           (right rubix) (back rubix) (bottom rubix) s).2
        = Ok (Returned steps).
Proof. apply breath_first_search_complete. Qed.

Lemma search_returns_when_solvable_witness :
  solves [10] (turn 1 rubix_2d.init) = true
  ∧ passes (length [10]) = 1%nat
  ∧ ∃ s rubix,
      scrambled = (s, Ok rubix)
      ∧ ∃ steps,
          (length steps ≤ length [10])%nat
          ∧ solves steps (turn 1 rubix_2d.init) = true
          ∧ ∀ fuel, (passes (length [10]) ≤ fuel)%nat →
              (breath_first_search fuel (top rubix) (front rubix) (left rubix)
                 (right rubix) (back rubix) (bottom rubix) s).2
              = Ok (Returned steps).
Proof.
  split; [by vm_compute|]. split; [reflexivity|].
  destruct scrambled_search as (s & rubix & Hscr & Hrep & _).
  exists s, rubix. split; [exact Hscr|].
  apply (search_returns_when_solvable s rubix (turn 1 rubix_2d.init) [10] Hrep
           eq_refl).
  by vm_compute.
Defined.

(** X5: on a facelet state of six 3x3 grids the search raises nothing,
    however long it runs: the queue is never empty when an item is taken
    from it, and no move fails on a copy. *)
Theorem search_never_raises_on_a_cube (fuel : nat) (s : store)
    (rubix : Rubix2D) (v : rubix_2d.Rubix2D) :
  represents s rubix v →
  rubix_2d.well_formed v = true →
  ∃ o, (breath_first_search fuel (top rubix) (front rubix) (left rubix)
          (right rubix) (back rubix) (bottom rubix) s).2 = Ok o.
Proof.
  intros Hrep Hwf.
  rewrite (breath_first_search_on_values fuel s rubix v Hrep Hwf),
    breath_first_search_value.
  destruct (rubix_2d.is_solved v); [by eexists|].
  apply (search_never_raises v); [by apply sound_root|discriminate].
Qed.

Lemma search_never_raises_on_a_cube_witness :
  ∃ s rubix,
    scrambled = (s, Ok rubix)
    ∧ ∃ o, (breath_first_search 0 (top rubix) (front rubix) (left rubix)
              (right rubix) (back rubix) (bottom rubix) s).2 = Ok o.
Proof.
  destruct scrambled_search as (s & rubix & Hscr & Hrep & _).
  exists s, rubix. split; [exact Hscr|].
  exact (search_never_raises_on_a_cube 0 s rubix (turn 1 rubix_2d.init) Hrep
           eq_refl).
Defined.

(** X6: on a solved state, whatever the shape of its grids, the search
    returns the empty sequence before its loop starts. *)
Theorem solved_state_needs_no_step (fuel : nat) (s : store) (rubix : Rubix2D)
    (v : rubix_2d.Rubix2D) :
  represents s rubix v →
  rubix_2d.is_solved v = true →
  (breath_first_search fuel (top rubix) (front rubix) (left rubix)
     (right rubix) (back rubix) (bottom rubix) s).2 = Ok (Returned []).
Proof.
  intros Hrep Hsolved.
  destruct (breath_first_search_setup fuel s rubix v Hrep)
    as (s' & rubix' & -> & _).
  by rewrite Hsolved.
Qed.

Lemma solved_state_needs_no_step_witness :
  ∃ s rubix,
    Rubix2D_new empty = (s, Ok rubix)
    ∧ (breath_first_search 0 (top rubix) (front rubix) (left rubix)
         (right rubix) (back rubix) (bottom rubix) s).2 = Ok (Returned []).
Proof.
  destruct Rubix2D_new_represents as (s & rubix & Hnew & Hrep).
  exists s, rubix. split; [exact Hnew|].
  apply (solved_state_needs_no_step 0 s rubix rubix_2d.init Hrep).
  by vm_compute.
Defined.

(** X4: the cube that any sequence of moves makes of the solved cube is
    solved by the search, in no more moves than were made. *)
Theorem every_scramble_is_solved (scramble : list Z) :
  ∃ v s rubix,
    replay scramble rubix_2d.init = Ok v
    ∧ (rubix ← Rubix2D_new; for_each_m scramble rotate_side rubix) empty
      = (s, Ok rubix)
    ∧ represents s rubix v
    ∧ ∃ steps,
        (length steps ≤ length scramble)%nat
        ∧ solves steps v = true
        ∧ ∀ fuel, (passes (length scramble) ≤ fuel)%nat →
            (breath_first_search fuel (top rubix) (front rubix) (left rubix)
               (right rubix) (back rubix) (bottom rubix) s).2
            = Ok (Returned steps).
Proof.
  destruct (replay_well_formed scramble rubix_2d.init eq_refl) as (v & Hv & Hwf).
  destruct Rubix2D_new_represents as (s0 & rubix0 & Hnew & Hrep0).
  destruct (replay_represents scramble s0 rubix0 _ v Hrep0 Hv)
    as (s & rubix & Hrun & Hrep).
  exists v, s, rubix. split; [exact Hv|]. split.
  { rewrite (run_bind _ _ _ _ _ Hnew). exact Hrun. }
  split; [exact Hrep|].
  destruct (breath_first_search_complete s rubix v (undo scramble) Hrep Hwf)
    as (steps & Hlen & Hs & Hsearch).
  { unfold solves. rewrite (replay_undo scramble rubix_2d.init v eq_refl Hv).
    by vm_compute. }
  unfold undo in Hlen, Hsearch.
  rewrite length_reverse, length_fmap in Hlen, Hsearch.
  exists steps. split; [exact Hlen|]. split; [exact Hs|exact Hsearch].
Qed.

Lemma every_scramble_is_solved_witness :
  ∃ steps,
    (length steps ≤ length [1])%nat
    ∧ solves steps (turn 1 rubix_2d.init) = true
    ∧ ∀ fuel, (passes (length [1]) ≤ fuel)%nat →
        (breath_first_search fuel 0%nat 4%nat 2%nat 3%nat 5%nat 6%nat
           scrambled.1).2
        = Ok (Returned steps).
Proof.
  destruct (every_scramble_is_solved [1])
    as (v & s & rubix & Hv & Hrun & _ & steps & Hlen & Hs & Hsearch).
  vm_compute in Hv. injection Hv as <-.
  vm_compute in Hrun. injection Hrun as <- <-.
  exists steps. split; [exact Hlen|]. split; [exact Hs|exact Hsearch].
Defined.

End solver_guarantees.

(** ** The facelet state machine: turns, layers and faces *)
Section facelet_guarantees.
Import rubix_2d.

(** X7: on every cube of six 3x3 grids, each of the eighteen moves made
    four times in a row gives back the cube it started from; and on every
    store that represents the cube, the four calls of [rotate_side]
    succeed and leave a store that represents it. *)
Theorem four_quarter_turns_restore (m : Z) (v : Rubix2D) :
  1 ≤ m ≤ 18 →
  well_formed v = true →
  replay [m; m; m; m] v = Ok v
  ∧ ∀ s rubix, represents s rubix v →
      ∃ s' rubix',
        rubix_store.for_each_m [m; m; m; m] rubix_store.rotate_side rubix s
        = (s', Ok rubix')
        ∧ represents s' rubix' v.
Proof.
  intros Hm Hwf.
  assert (replay [m; m; m; m] v = Ok v) as Hrun.
  { explode_state v Hwf. apply Z_cases_1_18 in Hm.
    destruct Hm as [Hm|Hm]; repeat (destruct Hm as [->|Hm]); try subst m;
      vm_compute; reflexivity. }
  split; [exact Hrun|]. by apply replay_store.
Qed.

Lemma four_quarter_turns_restore_witness :
  replay [5; 5; 5; 5] init = Ok init
  ∧ ∃ s rubix,
      rubix_store.Rubix2D_new rubix_store.empty = (s, Ok rubix)
      ∧ ∃ s' rubix',
          rubix_store.for_each_m [5; 5; 5; 5] rubix_store.rotate_side rubix s
          = (s', Ok rubix')
          ∧ represents s' rubix' init.
Proof.
  destruct (four_quarter_turns_restore 5 init) as [Hrun Hstore];
    [lia|reflexivity|].
  split; [exact Hrun|].
  destruct Rubix2D_new_represents as (s & rubix & Hnew & Hrep).
  exists s, rubix. split; [exact Hnew|exact (Hstore s rubix Hrep)].
Defined.

(** X8: for every clockwise move [m] in 1..9 and every cube of six 3x3
    grids, the counter-clockwise move [m + 9] makes the state that the
    move [m] makes when it is made three times. *)
Theorem counter_clockwise_is_three_clockwise (m : Z) (v : Rubix2D) :
  1 ≤ m ≤ 9 →
  well_formed v = true →
  ∃ w, rotate_side (m + 9) v = Ok w ∧ replay [m; m; m] v = Ok w.
Proof.
  intros Hm Hwf. explode_state v Hwf. apply Z_cases_1_9 in Hm.
  repeat (destruct Hm as [->|Hm]); try subst m;
    (eexists; split; [vm_compute; reflexivity|vm_compute; reflexivity]).
Qed.

Lemma counter_clockwise_is_three_clockwise_witness :
  ∃ w, rotate_side (7 + 9) init = Ok w ∧ replay [7; 7; 7] init = Ok w.
Proof.
  apply (counter_clockwise_is_three_clockwise 7 init); [lia|reflexivity].
Defined.

(** X9: two moves that turn layers about the same axis can be made in
    either order: on every cube of six 3x3 grids both orders succeed and
    give the same state. *)
Theorem moves_about_one_axis_commute (m1 m2 : Z) (v : Rubix2D) :
  1 ≤ m1 ≤ 18 →
  1 ≤ m2 ≤ 18 →
  axis_of_move m1 = axis_of_move m2 →
  well_formed v = true →
  ∃ w, replay [m1; m2] v = Ok w ∧ replay [m2; m1] v = Ok w.
Proof.
  intros Hm1 Hm2 Haxis Hwf. explode_state v Hwf.
  apply Z_cases_1_18 in Hm1. apply Z_cases_1_18 in Hm2.
  destruct Hm1 as [Hm1|Hm1]; repeat (destruct Hm1 as [->|Hm1]); try subst m1;
    (destruct Hm2 as [Hm2|Hm2]; repeat (destruct Hm2 as [->|Hm2]); try subst m2;
     first [ discriminate Haxis
           | eexists; split; [vm_compute; reflexivity|vm_compute; reflexivity] ]).
Qed.

Lemma moves_about_one_axis_commute_witness :
  axis_of_move 4 = axis_of_move 15
  ∧ ∃ w, replay [4; 15] init = Ok w ∧ replay [15; 4] init = Ok w.
Proof.
  split; [reflexivity|].
  apply (moves_about_one_axis_commute 4 15 init); [lia|lia|reflexivity|reflexivity].
Defined.

(** X10: [is_solved] holds exactly when each of the six grids has a cell
    and all its cells are of one colour; a grid without cells is never
    solved, and two grids may be of the same colour. *)
Theorem solved_is_one_colour_per_face (v : Rubix2D) :
  is_solved v = true
  ↔ Forall (λ side, ∃ c, one_colour c side)
      [top v; bottom v; left v; right v; front v; back v].
Proof.
  unfold is_solved. rewrite forallb_forall, Forall_forall. split.
  - intros H side Hside. apply uniform_one_colour, H. by apply list_elem_of_In.
  - intros H side Hside. apply uniform_one_colour, H. by apply list_elem_of_In.
Qed.

Lemma solved_is_one_colour_per_face_witness :
  is_solved init = true
  ↔ Forall (λ side, ∃ c, one_colour c side)
      [top init; bottom init; left init; right init; front init; back init].
Proof. exact (solved_is_one_colour_per_face init). Defined.

(** X11: with one iteration or more, [rotate_y] and [rotate_z] raise
    [KeyError] for a layer outside 0..2, on any state; [rotate_x] raises
    [IndexError] for a layer outside -3..2 on a cube of six 3x3 grids.  On
    every store that represents the state, the error is raised before any
    list is written: the store is left as it was. *)
Theorem layer_outside_the_cube_is_rejected (k iters : Z) (v : Rubix2D) :
  1 ≤ iters →
  (¬ (0 ≤ k ≤ 2) →
   rotate_y k iters v = Raise KeyError
   ∧ rotate_z k iters v = Raise KeyError
   ∧ ∀ s rubix, represents s rubix v →
       rubix_store.rotate_y k iters rubix s = (s, Raise KeyError)
       ∧ rubix_store.rotate_z k iters rubix s = (s, Raise KeyError))
  ∧ (¬ (-3 ≤ k ≤ 2) →
     well_formed v = true →
     rotate_x k iters v = Raise IndexError
     ∧ ∀ s rubix, represents s rubix v →
         rubix_store.rotate_x k iters rubix s = (s, Raise IndexError)).
Proof.
  intros Hiters. destruct (range_cons iters Hiters) as [rest Hrange]. split.
  - intros Hk. pose proof (INVERSE_get_outside k Hk) as Hinv.
    split; [|split].
    + unfold rotate_y. rewrite Hrange. cbn [for_each].
      unfold rotate_y_step. by rewrite Hinv.
    + unfold rotate_z. rewrite Hrange. cbn [for_each].
      unfold rotate_z_step. by rewrite Hinv.
    + intros s rubix Hrep. split.
      * unfold rubix_store.rotate_y. rewrite Hrange.
        cbn [rubix_store.for_each_m]. do 2 apply run_bind_raise.
        by eapply rotate_y_step_outside.
      * unfold rubix_store.rotate_z. rewrite Hrange.
        cbn [rubix_store.for_each_m]. do 2 apply run_bind_raise.
        by eapply rotate_z_step_outside.
  - intros Hk Hwf. split.
    + destruct (every_state_is_represented v) as (s & rubix & Hrep).
      destruct (rotate_x_step_outside k s rubix v Hk Hwf Hrep) as [Hstep _].
      unfold rotate_x. rewrite Hrange. cbn [for_each]. by rewrite Hstep.
    + intros s rubix Hrep.
      destruct (rotate_x_step_outside k s rubix v Hk Hwf Hrep) as [_ Hstep].
      unfold rubix_store.rotate_x. rewrite Hrange.
      cbn [rubix_store.for_each_m]. by do 2 apply run_bind_raise.
Qed.

Lemma layer_outside_the_cube_is_rejected_witness :
  rotate_y 3 1 init = Raise KeyError
  ∧ rotate_z (-1) 1 init = Raise KeyError
  ∧ rotate_x 3 1 init = Raise IndexError
  ∧ ∃ s rubix,
      rubix_store.Rubix2D_new rubix_store.empty = (s, Ok rubix)
      ∧ rubix_store.rotate_y 3 1 rubix s = (s, Raise KeyError)
      ∧ rubix_store.rotate_x 3 1 rubix s = (s, Raise IndexError).
Proof.
  destruct (layer_outside_the_cube_is_rejected 3 1 init) as [Hyz Hx]; [lia|].
  destruct Hyz as (Hy & _ & Hstore); [lia|].
  destruct Hx as (Hx & Hxstore); [lia|reflexivity|].
  destruct (layer_outside_the_cube_is_rejected (-1) 1 init) as [Hyz' _]; [lia|].
  destruct Hyz' as (_ & Hz & _); [lia|].
  split; [exact Hy|]. split; [exact Hz|]. split; [exact Hx|].
  destruct Rubix2D_new_represents as (s & rubix & Hnew & Hrep).
  exists s, rubix. split; [exact Hnew|].
  split; [apply (Hstore s rubix Hrep)|apply (Hxstore s rubix Hrep)].
Defined.

(** X12: with no iteration (zero or negative [iters]) the three turns
    return the state as it is, whatever the layer: the layer is not
    checked. *)
Theorem no_iteration_changes_nothing (k iters : Z) (v : Rubix2D) :
  iters ≤ 0 →
  rotate_x k iters v = Ok v ∧ rotate_y k iters v = Ok v
  ∧ rotate_z k iters v = Ok v.
Proof.
  intros Hiters. unfold rotate_x, rotate_y, rotate_z.
  rewrite (range_nil iters Hiters). cbn [for_each mbind result_bind mret result_ret].
  rewrite !rotate_arr_no_turn by lia.
  destruct v as [t b l r f k']. cbn.
  by destruct (k =? 0), (k =? 2).
Qed.

Lemma no_iteration_changes_nothing_witness :
  rotate_x 7 0 init = Ok init ∧ rotate_y 7 (-2) init = Ok init
  ∧ rotate_z 0 0 init = Ok init.
Proof.
  split; [|split].
  - apply (no_iteration_changes_nothing 7 0 init). lia.
  - apply (no_iteration_changes_nothing 7 (-2) init). lia.
  - apply (no_iteration_changes_nothing 0 0 init). lia.
Defined.



(** X14: whatever the move identifier, [rotate_side] succeeds on a cube
    of six 3x3 grids and returns a cube of six 3x3 grids. *)
Theorem moves_keep_the_cube_shape (index : Z) (v : Rubix2D) :
  well_formed v = true →
  ∃ w, rotate_side index v = Ok w ∧ well_formed w = true.
Proof. apply rotate_side_well_formed. Qed.

Lemma moves_keep_the_cube_shape_witness :
  ∃ w, rotate_side 13 init = Ok w ∧ well_formed w = true.
Proof. apply (moves_keep_the_cube_shape 13 init). reflexivity. Defined.

(** X15: after [Rubix2D()] and any sequence of [rotate_side] calls, the
    six grids of the instance are six distinct list objects of three rows
    each, and the eighteen rows are eighteen distinct list objects: no
    move makes two grids share a row. *)
Theorem moves_never_share_rows (scramble : list Z) :
  ∃ s rubix,
    (rubix ← rubix_store.Rubix2D_new;
     rubix_store.for_each_m scramble rubix_store.rotate_side rubix)
      rubix_store.empty = (s, Ok rubix)
    ∧ NoDup [rubix_store.top rubix; rubix_store.bottom rubix;
             rubix_store.left rubix; rubix_store.right rubix;
             rubix_store.front rubix; rubix_store.back rubix]
    ∧ ∃ t b l r f k,
        rubix_store.grids s !! rubix_store.top rubix = Some t
        ∧ rubix_store.grids s !! rubix_store.bottom rubix = Some b
        ∧ rubix_store.grids s !! rubix_store.left rubix = Some l
        ∧ rubix_store.grids s !! rubix_store.right rubix = Some r
        ∧ rubix_store.grids s !! rubix_store.front rubix = Some f
        ∧ rubix_store.grids s !! rubix_store.back rubix = Some k
        ∧ Forall (λ rs, length rs = 3%nat) [t; b; l; r; f; k]
        ∧ NoDup (t ++ b ++ l ++ r ++ f ++ k).
Proof.
  destruct (replay_well_formed scramble init eq_refl) as (v & Hv & Hwf).
  destruct Rubix2D_new_represents as (s0 & rubix0 & Hnew & Hrep0).
  destruct (replay_represents scramble s0 rubix0 _ v Hrep0 Hv)
    as (s & rubix & Hrun & (G & HG & Hholds & Hgrids & Hrows)).
  exists s, rubix. split.
  { rewrite (run_bind _ _ _ _ _ Hnew). exact Hrun. }
  split; [exact Hgrids|].
  exists (G Top), (G Bottom), (G Left), (G Right), (G Front), (G Back).
  split; [exact (HG Top)|]. split; [exact (HG Bottom)|].
  split; [exact (HG Left)|]. split; [exact (HG Right)|].
  split; [exact (HG Front)|]. split; [exact (HG Back)|]. split.
  - apply well_formed_inv in Hwf as (Ht & Hb & Hl & Hr & Hf & Hk).
    pose proof (Forall2_length _ _ _ (Hholds Top)) as Lt.
    pose proof (Forall2_length _ _ _ (Hholds Bottom)) as Lb.
    pose proof (Forall2_length _ _ _ (Hholds Left)) as Ll.
    pose proof (Forall2_length _ _ _ (Hholds Right)) as Lr.
    pose proof (Forall2_length _ _ _ (Hholds Front)) as Lf.
    pose proof (Forall2_length _ _ _ (Hholds Back)) as Lk.
    cbn [value_of] in *.
    apply is_3x3_inv in Ht as (? & ? & ? & ? & ? & ? & ? & ? & ? & Ht).
    apply is_3x3_inv in Hb as (? & ? & ? & ? & ? & ? & ? & ? & ? & Hb).
    apply is_3x3_inv in Hl as (? & ? & ? & ? & ? & ? & ? & ? & ? & Hl).
    apply is_3x3_inv in Hr as (? & ? & ? & ? & ? & ? & ? & ? & ? & Hr).
    apply is_3x3_inv in Hf as (? & ? & ? & ? & ? & ? & ? & ? & ? & Hf).
    apply is_3x3_inv in Hk as (? & ? & ? & ? & ? & ? & ? & ? & ? & Hk).
    rewrite Ht in Lt. rewrite Hb in Lb. rewrite Hl in Ll. rewrite Hr in Lr.
    rewrite Hf in Lf. rewrite Hk in Lk.
    repeat (constructor; [assumption|]). constructor.
  - cbn in Hrows. by rewrite app_nil_r in Hrows.
Qed.

End facelet_guarantees.

(** ** The solid model: cubes, layers and their turns *)
Section solid_guarantees.
Import cube main rubix_cube.
#[local] Open Scope float_scope.

(** X16: a cube that [Cube] builds at a lattice position with coordinates
    in -1..1, whatever its six colours, is accepted by [filter_cubes] on
    an axis at a target in -1..1 exactly when its coordinate on that axis
    is the target. *)
Theorem cube_is_in_the_layer_of_its_coordinate
    (x y z axis target : Z) (c1 c2 c3 c4 c5 c6 : string) (cubes : list Cube) :
  (-1 ≤ x ≤ 1)%Z → (-1 ≤ y ≤ 1)%Z → (-1 ≤ z ≤ 1)%Z →
  (0 ≤ axis ≤ 2)%Z → (-1 ≤ target ≤ 1)%Z →
  ∃ c,
    Cube_new x y z [c1; c2; c3; c4; c5; c6] cubes = Ok (cubes ++ [c])
    ∧ filter_cubes c axis (float_of_int target)
      = Ok (bool_decide (lattice_coordinate axis c = target)).
Proof.
  intros Hx Hy Hz Haxis Ht.
  apply Z_cases_unit in Hx, Hy, Hz, Ht. apply Z_cases_axis in Haxis.
  destruct Hx as [-> | [-> | ->]]; destruct Hy as [-> | [-> | ->]];
    destruct Hz as [-> | [-> | ->]]; destruct Haxis as [-> | [-> | ->]];
    destruct Ht as [-> | [-> | ->]];
    (eexists; split; [vm_compute; reflexivity|vm_compute; reflexivity]).
Qed.

Lemma cube_is_in_the_layer_of_its_coordinate_witness :
  ∃ c,
    Cube_new 1 0 (-1) ["red"; "black"; "black"; "blue"; "black"; "black"]%string []
    = Ok ([] ++ [c])
    ∧ filter_cubes c 2 (float_of_int (-1))
      = Ok (bool_decide (lattice_coordinate 2 c = (-1)%Z)).
Proof.
  apply (cube_is_in_the_layer_of_its_coordinate 1 0 (-1) 2 (-1)); lia.
Defined.

(** X17: on the scene that [main] assembles, each of the nine layers that
    the moves select (an axis in 0..2, a target in -1..1) is made of
    exactly the nine cubes whose coordinate on the axis is the target. *)
Theorem every_layer_of_the_model_has_nine_cubes (axis target : Z) :
  (0 ≤ axis ≤ 2)%Z → (-1 ≤ target ≤ 1)%Z →
  select_layer ALL_CUBES axis (float_of_int target)
  = Ok (filter (λ c, lattice_coordinate axis c = target) ALL_CUBES)
  ∧ length (filter (λ c, lattice_coordinate axis c = target) ALL_CUBES) = 9%nat.
Proof.
  intros Haxis Ht. apply Z_cases_unit in Ht. apply Z_cases_axis in Haxis.
  destruct Haxis as [-> | [-> | ->]]; destruct Ht as [-> | [-> | ->]];
    (split; by vm_compute).
Qed.

Lemma every_layer_of_the_model_has_nine_cubes_witness :
  select_layer ALL_CUBES 0 (float_of_int (-1))
  = Ok (filter (λ c, lattice_coordinate 0 c = (-1)%Z) ALL_CUBES)
  ∧ length (filter (λ c, lattice_coordinate 0 c = (-1)%Z) ALL_CUBES) = 9%nat.
Proof. apply (every_layer_of_the_model_has_nine_cubes 0 (-1)); lia. Defined.




(** X20: when [rotate_cubes] returns, with the rotation that the moves
    pair with the axis ([rotate_x] with axis 1, [rotate_y] with axis 0,
    [rotate_z] with axis 2), every cube has the extent along the axis that
    it had: [filter_cubes] on that axis answers for it as before, at every
    target, so the layer turned is still the layer, and the other layers
    of the axis are what they were.  The position fields and the colours
    of the cubes are unchanged, and a cube outside the layer is unchanged
    altogether. *)
Theorem turned_layer_stays_in_its_layer (m : engine.libm)
    (filter_ angle : float) (cubes cubes' : list Cube)
    (axis : Z) (rotate : rotation_function) :
  (axis = 1%Z ∧ rotate = engine.rotate_x m)
  ∨ (axis = 0%Z ∧ rotate = engine.rotate_y m)
  ∨ (axis = 2%Z ∧ rotate = engine.rotate_z m) →
  rotate_cubes cubes axis filter_ rotate angle = Ok cubes' →
  Forall2 (λ c c',
             (∀ target, filter_cubes c' axis target = filter_cubes c axis target)
             ∧ x c' = x c ∧ y c' = y c ∧ z c' = z c
             ∧ colours c' = colours c
             ∧ colour <$> cube c' = colour <$> cube c
             ∧ (filter_cubes c axis filter_ = Ok false → c' = c))
    cubes cubes'.
Proof.
  intros Hpair. apply rotate_cubes_turned.
  destruct (rotations_hold m) as (Hx & Hy & Hz).
  by destruct Hpair as [[-> ->] | [[-> ->] | [-> ->]]].
Qed.

Lemma turned_layer_stays_in_its_layer_witness :
  ∃ c cubes',
    Cube_new 0 1 0 ["black"; "black"; "black"; "black"; "white"; "black"]%string []
    = Ok [c]
    ∧ rotate_cubes [c] 1 1 (engine.rotate_x engine.libm_at_180) 1 = Ok cubes'
    ∧ Forall2 (λ c c',
                 (∀ target, filter_cubes c' 1 target = filter_cubes c 1 target)
                 ∧ x c' = x c ∧ y c' = y c ∧ z c' = z c
                 ∧ colours c' = colours c
                 ∧ colour <$> cube c' = colour <$> cube c
                 ∧ (filter_cubes c 1 1 = Ok false → c' = c))
        [c] cubes'.
Proof.
  eexists _, _. split; [vm_compute; reflexivity|].
  match goal with
  | |- ?run = Ok _ ∧ _ =>
      destruct run as [cubes'|] eqn:Hrun; vm_compute in Hrun;
        [|discriminate Hrun]
  end.
  injection Hrun as <-. split; [reflexivity|].
  apply (turned_layer_stays_in_its_layer engine.libm_at_180 1 1 _ _ 1
           (engine.rotate_x engine.libm_at_180)); [by left|].
  by vm_compute.
Defined.

(** X21: at an angle whose sine and cosine [math.sin] and [math.cos]
    return, [rotate_cubes] raises nothing on cubes that have a vertex and
    three coordinates a vertex, whatever the axis in 0..2, the target and
    the rotation: it returns as many cubes, again with a vertex and three
    coordinates a vertex.  The cubes that [main] assembles are such
    cubes. *)
Theorem rotate_cubes_returns (m : engine.libm) (angle s c filter_ : float)
    (axis : Z) (cubes : list Cube) (rotate : rotation_function) :
  engine.sin m (engine.radians m angle) = Ok s →
  engine.cos m (engine.radians m angle) = Ok c →
  rotate = engine.rotate_x m ∨ rotate = engine.rotate_y m
  ∨ rotate = engine.rotate_z m →
  (0 ≤ axis ≤ 2)%Z →
  Forall solid cubes →
  ∃ cubes',
    rotate_cubes cubes axis filter_ rotate angle = Ok cubes'
    ∧ Forall solid cubes' ∧ length cubes' = length cubes.
Proof.
  intros Hs Hc Hrotate Haxis Hsolid.
  assert (∀ vert, length vert = 3%nat →
            ∃ out, rotate vert [0; 0; 0] angle = Ok out ∧ length out = 3%nat)
    as Hrot.
  { intros vert Hvert.
    destruct (rotations_return m angle s c vert Hs Hc Hvert) as (Hx & Hy & Hz).
    by destruct Hrotate as [-> | [-> | ->]]. }
  unfold rotate_cubes.
  destruct (comprehension_total solid (λ _, True)
              (λ c, filter_cubes c axis filter_) cubes)
    as (chosen & -> & _ & _); [|exact Hsolid|].
  { intros cb Hcb. destruct (filter_cubes_solid cb axis filter_ Haxis Hcb)
      as [keep ->]. by eexists. }
  cbn [mbind result_bind].
  destruct (for_each_invariant
              (λ l, Forall solid l ∧ length l = length cubes)
              (range 90) (λ _, turn_chosen rotate angle chosen) cubes)
    as (cubes' & Hrun & Hsolid' & Hlen); [done| |by exists cubes'].
  intros _ l [Hl Hlenl].
  destruct (turn_chosen_solid rotate angle chosen l Hrot Hl)
    as (l' & Hrun & Hl' & Hlen').
  exists l'. split; [done|]. split; [done|]. congruence.
Qed.

Lemma rotate_cubes_returns_witness :
  Forall solid ALL_CUBES
  ∧ ∃ cubes',
      rotate_cubes ALL_CUBES 1 1 (engine.rotate_x engine.libm_at_180) 1
      = Ok cubes'
      ∧ Forall solid cubes' ∧ length cubes' = length ALL_CUBES.
Proof.
  split; [exact model_is_solid|].
  apply (rotate_cubes_returns engine.libm_at_180 1 0x1.1a62633145c07p-53
           (-1) 1 1 ALL_CUBES (engine.rotate_x engine.libm_at_180)
           eq_refl eq_refl); [by left|lia|exact model_is_solid].
Defined.

End solid_guarantees.

(** ** The shapes are drawn from the furthest to the closest *)
Section sorting_guarantees.
Import shape.

(** X22: when the key function returns on every item, [merge] returns a
    list that holds the items of its two lists, each as often as they hold
    it; if the two lists are in ascending order of keys (no item's key is
    [>] the key of the next), so is the result.  The comparison need only be
    asymmetric, as [>] on floats is, not-a-number included. *)
Theorem merge_keeps_order {A K} (func : A → result K) (gt : K → K → bool)
    (key : A → K) (array_one array_two : list A) :
  (∀ x y, gt x y = true → gt y x = false) →
  Forall (λ a, func a = Ok (key a)) array_one →
  Forall (λ a, func a = Ok (key a)) array_two →
  ∃ l,
    merge func gt array_one array_two = Ok l
    ∧ l ≡ₚ array_one ++ array_two
    ∧ (Sorted (not_after key gt) array_one →
       Sorted (not_after key gt) array_two →
       Sorted (not_after key gt) l).
Proof.
  intros Hasym Hone Htwo.
  destruct (merge_loop_run func gt key Hasym array_one array_two [] Hone Htwo)
    as (l & Hrun & Hperm & Hsorted).
  exists l. split; [exact Hrun|]. split; [exact Hperm|].
  intros H1 H2. by apply Hsorted.
Qed.

Lemma merge_keeps_order_witness :
  ∃ l,
    merge (λ z : Z, Ok z) Z.gtb [1; 3] [2; 4] = Ok l
    ∧ l ≡ₚ [1; 3] ++ [2; 4]
    ∧ (Sorted (not_after id Z.gtb) [1; 3] →
       Sorted (not_after id Z.gtb) [2; 4] →
       Sorted (not_after id Z.gtb) l).
Proof.
  apply (merge_keeps_order (λ z : Z, Ok z) Z.gtb id [1; 3] [2; 4]).
  - intros x y. rewrite !Z.gtb_ltb, Z.ltb_lt, Z.ltb_ge. lia.
  - by repeat constructor.
  - by repeat constructor.
Defined.

(** X23: on a list that is not empty, with as many nested calls allowed as
    the list has items and a key function that returns on every item,
    [merge_sort] returns a rearrangement of the list in ascending order of
    keys. *)
Theorem merge_sort_sorts {A K} (func : A → result K) (gt : K → K → bool)
    (key : A → K) (limit : nat) (arr : list A) :
  (∀ x y, gt x y = true → gt y x = false) →
  arr ≠ [] →
  (length arr ≤ limit)%nat →
  Forall (λ a, func a = Ok (key a)) arr →
  ∃ l,
    merge_sort func gt limit arr = Within (Ok l)
    ∧ l ≡ₚ arr
    ∧ Sorted (not_after key gt) l.
Proof. intros Hasym. by apply merge_sort_run. Qed.

Lemma merge_sort_sorts_witness :
  ∃ l,
    merge_sort (λ z : Z, Ok z) Z.gtb 3 [3; 1; 2] = Within (Ok l)
    ∧ l ≡ₚ [3; 1; 2]
    ∧ Sorted (not_after id Z.gtb) l.
Proof.
  apply (merge_sort_sorts (λ z : Z, Ok z) Z.gtb id 3 [3; 1; 2]).
  - intros x y. rewrite !Z.gtb_ltb, Z.ltb_lt, Z.ltb_ge. lia.
  - discriminate.
  - cbn [length]. lia.
  - by repeat constructor.
Defined.

(** X24: [merge_sort] never returns on the empty list: its length is not
    1, both halves are empty again, and the calls nest until the
    interpreter's bound, whatever it is, is passed.  So [get_sorted_shapes]
    ends in [RecursionError] when there is no shape. *)
Theorem sorting_nothing_never_returns :
  (∀ (A K : Type) (func : A → result K) (gt : K → K → bool) (limit : nat),
     merge_sort func gt limit [] = RecursionError)
  ∧ (∀ (m : engine.libm) (n : numerics) (limit : nat) (camera_pos : list float),
       get_sorted_shapes m n limit [] camera_pos = RecursionError).
Proof.
  split.
  - intros A K func gt limit. apply merge_sort_nil.
  - intros m n limit camera_pos. unfold get_sorted_shapes.
    cbn [cube.comprehension zip zip_with]. by rewrite merge_sort_nil.
Qed.

(** X25: when there is a shape, the rotations return and every distance
    is computed, [get_sorted_shapes] returns the shapes, each as often as
    it was given, from the furthest to the closest: along the sorted pairs
    of a shape and its rotated polygon, no distance is less than the
    next. *)
Theorem shapes_are_sorted_from_the_furthest (m : engine.libm) (n : numerics)
    (limit : nat) (shapes : list cube.Shape) (camera_pos : list float)
    (rotated_shapes : list (list (list float)))
    (key : cube.Shape * list (list float) → float) :
  shapes ≠ [] →
  (length shapes ≤ limit)%nat →
  cube.comprehension
    (λ shape, rotate_shape m shape (cube.orientation_x shape)
                (cube.orientation_y shape)) shapes = Ok rotated_shapes →
  Forall (λ item, distance n camera_pos item = Ok (key item))
    (zip shapes rotated_shapes) →
  ∃ sorted_shapes,
    get_sorted_shapes m n limit shapes camera_pos
    = Within (Ok sorted_shapes.*1)
    ∧ sorted_shapes ≡ₚ zip shapes rotated_shapes
    ∧ sorted_shapes.*1 ≡ₚ shapes
    ∧ Sorted (λ item next, (key item <? key next)%float = false) sorted_shapes.
Proof. apply get_sorted_shapes_run. Qed.

Lemma shapes_are_sorted_from_the_furthest_witness :
  let shapes :=
    [cube.Shape_new "red" [[0; 0; 1]]; cube.Shape_new "blue" [[0; 0; 5]];
     cube.Shape_new "green" [[0; 0; 3]]]%float in
  let key := λ item,
    match distance shape.numerics_by_hand [0; 0; -7]%float item with
    | Ok k => k
    | Raise _ => 0%float
    end in
  ∃ rotated_shapes sorted_shapes,
    cube.comprehension
      (λ shape, rotate_shape engine.libm_at_180 shape
                  (cube.orientation_x shape) (cube.orientation_y shape))
      shapes = Ok rotated_shapes
    ∧ get_sorted_shapes engine.libm_at_180 shape.numerics_by_hand 3 shapes
        [0; 0; -7]%float
      = Within (Ok sorted_shapes.*1)
    ∧ sorted_shapes.*1 ≡ₚ shapes
    ∧ Sorted (λ item next, (key item <? key next)%float = false) sorted_shapes.
Proof.
  intros shapes key.
  destruct (cube.comprehension
              (λ shape, rotate_shape engine.libm_at_180 shape
                          (cube.orientation_x shape) (cube.orientation_y shape))
              shapes) as [rotated_shapes|] eqn:Hrot;
    vm_compute in Hrot; [|discriminate Hrot].
  injection Hrot as <-.
  destruct (shapes_are_sorted_from_the_furthest engine.libm_at_180
              shape.numerics_by_hand 3 shapes [0; 0; -7]%float _ key
              ltac:(discriminate) ltac:(cbn; lia) eq_refl)
    as (sorted_shapes & Hrun & _ & Hperm & Hsorted).
  { repeat constructor. }
  eexists _, sorted_shapes. split; [reflexivity|].
  split; [exact Hrun|]. split; [exact Hperm|exact Hsorted].
Defined.

End sorting_guarantees.
